(** * HypER: the training and evaluation driver ([hyper.py])

    A shallow embedding of the class [Experiment] of [hyper.py] and the
    properties of its batching, indexing, evaluation and epoch loop.

    Conventions of the embedding.
    - Python tuples of integer ids are lists of naturals ([key]); the
      [(head, relation)] keys of the vocabulary have two components, the
      indexed triples handed to [get_batch] by [evaluate] have three.
    - An ordinary [dict] whose order is never observed by the code under
      study (the identifier indices) is a [gmap]; the [defaultdict(list)]
      built by [get_er_vocab] is an association list in insertion order,
      because [list(er_vocab.keys())] reads that order.
    - Tensor entries (targets, scores, losses) are rationals: the arithmetic
      of the source is modelled exactly and rounding is not.
    - A Python exception is a value of [exn]; code that can raise returns a
      [result]. *)

From Stdlib Require Import QArith Ascii String Sorted.
From stdpp Require Import base decidable option list strings gmap.

Open Scope Q_scope.
Open Scope nat_scope.
Open Scope list_scope.

(** ** Exceptions and results *)

Inductive exn : Type :=
  | KeyError (k : string)
  | IndexError
  | ValueError
  | ZeroDivisionError
  | UnboundLocalError (name : string).

Inductive result (A : Type) : Type :=
  | Ok (a : A)
  | Raise (e : exn).

Arguments Ok {A} a.
Arguments Raise {A} e.

(** The error monad, through stdpp's [mbind] and its [x ← c; k] notation. *)
#[global] Instance result_ret : MRet result := λ A a, Ok a.
#[global] Instance result_bind : MBind result := λ A B k c,
  match c with
  | Ok a => k a
  | Raise e => Raise e
  end.

Definition is_Ok {A : Type} (c : result A) : Prop := ∃ a, c = Ok a.

(** A [for] loop that threads an accumulator and stops at the first
    exception. *)
Fixpoint rfoldl {A B : Type} (f : B → A → result B) (b : B) (l : list A)
    : result B :=
  match l with
  | [] => Ok b
  | x :: l' => b' ← f b x; rfoldl f b' l'
  end.

(** A comprehension whose element expression may raise. *)
Fixpoint rmap {A B : Type} (f : A → result B) (l : list A) : result (list B) :=
  match l with
  | [] => Ok []
  | x :: l' => y ← f x; ys ← rmap f l'; Ok (y :: ys)
  end.

(** ** Data provided by the loader *)

Abbreviation raw_triple := (string * string * string)%type.
Abbreviation idx_triple := (nat * nat * nat)%type.

(** The object [d] of the source: the loader's output. *)
Record Data : Type := {
  entities : list string;
  relations : list string;
  train_data : list raw_triple;
  valid_data : list raw_triple;
  test_data : list raw_triple
}.

(** Modelled from the spec: the attribute [d.data] is set by the loader
    ([load_data.Data], not part of the sources at hand); the specification
    describes it as the full dataset, train + valid + test combined. *)
Definition data (d : Data) : list raw_triple :=
  train_data d ++ valid_data d ++ test_data d.

(** ** Identifier indices *)

(** [{xs[i]: i for i in range(len(xs))}]: a later position overwrites an
    earlier one with the same identifier. *)
Definition build_idxs (xs : list string) : gmap string nat :=
  foldl (λ m ix, <[ix.2 := ix.1]> m) ∅ (imap pair xs).

(** [index[k]] on a plain dict. *)
Definition idx_getitem (index : gmap string nat) (k : string) : result nat :=
  match index !! k with
  | Some i => Ok i
  | None => Raise (KeyError k)
  end.

Definition idx_triple_of (entity_idxs relation_idxs : gmap string nat)
    (tr : raw_triple) : result idx_triple :=
  h ← idx_getitem entity_idxs tr.1.1;
  r ← idx_getitem relation_idxs tr.1.2;
  t ← idx_getitem entity_idxs tr.2;
  Ok (h, r, t).

(** [Experiment.get_data_idxs]: the comprehension is evaluated left to
    right and the first failing lookup raises. *)
Definition get_data_idxs (entity_idxs relation_idxs : gmap string nat)
    (dat : list raw_triple) : result (list idx_triple) :=
  rmap (idx_triple_of entity_idxs relation_idxs) dat.

(** ** The (head, relation) vocabulary *)

Definition key : Type := list nat.

(** A [defaultdict(list)] from keys to tail lists, in insertion order. *)
Definition vocab : Type := list (key * list nat).

Fixpoint vocab_lookup (k : key) (m : vocab) : option (list nat) :=
  match m with
  | [] => None
  | (k', v) :: m' => if decide (k' = k) then Some v else vocab_lookup k m'
  end.

(** [m[k]] on the defaultdict: a missing key is inserted with [[]]. *)
Definition vocab_getitem (m : vocab) (k : key) : vocab * list nat :=
  match vocab_lookup k m with
  | Some v => (m, v)
  | None => (m ++ [(k, [])], [])
  end.

(** In-place update of the list stored under [k]. *)
Fixpoint vocab_store (k : key) (v : list nat) (m : vocab) : vocab :=
  match m with
  | [] => []
  | (k', v') :: m' =>
      if decide (k' = k) then (k', v) :: m' else (k', v') :: vocab_store k v m'
  end.

(** [m[k].append(t)]. *)
Definition vocab_append (m : vocab) (k : key) (t : nat) : vocab :=
  let '(m1, v) := vocab_getitem m k in vocab_store k (v ++ [t]) m1.

(** [Experiment.get_er_vocab]. *)
Definition get_er_vocab (dat : list idx_triple) : vocab :=
  foldl (λ m tr, vocab_append m [tr.1.1; tr.1.2] tr.2) [] dat.

(** [list(er_vocab.keys())]. *)
Definition vocab_keys (m : vocab) : list key := m.*1.

(** ** Slices, ranges and dense rows *)

(** [l[a:b]] for [0 <= a], [0 <= b]. *)
Definition slice {A : Type} (a b : nat) (l : list A) : list A :=
  take (b - a) (drop a l).

(** [range(start, stop, step)] unrolled at most [fuel] times. *)
Fixpoint range_from (fuel start stop step : nat) : list nat :=
  match fuel with
  | 0 => []
  | S fuel' =>
      if decide (start < stop)
      then start :: range_from fuel' (start + step) stop step
      else []
  end.

(** [range(0, stop, step)]; a zero step is a [ValueError]. *)
Definition range_step (stop step : nat) : result (list nat) :=
  if decide (step = 0) then Raise ValueError
  else Ok (range_from stop 0 stop step).

(** [row[cols] = v] with an integer list as index: every index is bounds
    checked, a repeated index is written again. *)
Definition set_cols (row : list Q) (cols : list nat) (v : Q) : result (list Q) :=
  if decide (Forall (λ c, c < length row) cols)
  then Ok (foldl (λ r c, <[c := v]> r) row cols)
  else Raise IndexError.

(** [row[c]]. *)
Definition row_getitem {A : Type} (row : list A) (c : nat) : result A :=
  match row !! c with
  | Some x => Ok x
  | None => Raise IndexError
  end.

(** ** Batches *)

(** The loop of [get_batch] that fills the target matrix, one row per key;
    each lookup goes through the defaultdict. *)
Fixpoint target_rows (N : nat) (m : vocab) (batch : list key)
    : result (vocab * list (list Q)) :=
  match batch with
  | [] => Ok (m, [])
  | k :: rest =>
      let '(m1, tails) := vocab_getitem m k in
      row ← set_cols (replicate N 0%Q) tails 1%Q;
      '(m2, rows) ← target_rows N m1 rest;
      Ok (m2, row :: rows)
  end.

(** [Experiment.get_batch], with [batch_size] and [len(d.entities)] as
    [B] and [N]; the vocabulary after the call is returned as well. *)
Definition get_batch (B N : nat) (er_vocab : vocab) (er_vocab_pairs : list key)
    (idx : nat) : result (vocab * (list key * list (list Q))) :=
  let batch :=
    slice idx (Nat.min (idx + B) (length er_vocab_pairs)) er_vocab_pairs in
  '(er_vocab', targets) ← target_rows N er_vocab batch;
  Ok (er_vocab', (batch, targets)).

(** ** External collaborators *)

(** The architectures of [models.py]. *)
Inductive variant : Type := HypE | HypER | DistMult | ConvE | ComplEx.

(** The scoring model with its optimiser and scheduler, the random number
    generator behind [np.random.shuffle], and [torch.sort]: none of them is
    defined in [hyper.py], which only calls them.  [forward] takes the
    train/eval mode of the module as its second argument; [opt_step] stands
    for [opt.zero_grad(); loss.backward(); opt.step()] on one batch;
    [argsort_desc] is the index output of
    [torch.sort(predictions, dim=1, descending=True)] on one row, whose
    order among equal scores is left to the library. *)
Class Externals : Type := {
  model_state : Type;
  construct : variant → Data → model_state;
  init : model_state → model_state;
  forward : model_state → bool → list nat → list nat → list (list Q);
  loss : list (list Q) → list (list Q) → Q;
  opt_step : model_state → list nat → list nat → list (list Q) → model_state;
  scheduler_step : model_state → model_state;
  rng : Type;
  shuffle : rng → list key → rng * list key;
  argsort_desc : list Q → list nat
}.

(** The attributes of [Experiment] read by the methods below.  The
    remaining constructor arguments are only forwarded to the model. *)
Record Experiment : Type := {
  model_name : string;
  num_iterations : nat;
  batch_size : nat;
  decay_rate : Q;
  label_smoothing : Q
}.

(** ** Evaluation *)

Definition tuple3 (tr : idx_triple) : key := [tr.1.1; tr.1.2; tr.2].

(** [batch[:, c]] *)
Definition column (c : nat) (batch : list key) : result (list nat) :=
  rmap (λ k, row_getitem k c) batch.

(** [np.where(idxs == t)[0][0]] *)
Definition first_index (idxs : list nat) (t : nat) : result nat :=
  match list_find (λ x, x = t) idxs with
  | Some (p, _) => Ok p
  | None => Raise IndexError
  end.

(** Lines 82-85: one pass of the filtering loop, on row [j]. *)
Definition filter_step (data_batch : list key) (e2_idx : list nat)
    (st : vocab * list (list Q)) (j : nat) : result (vocab * list (list Q)) :=
  let '(er_vocab, predictions) := st in
  kj ← row_getitem data_batch j;
  h ← row_getitem kj 0;
  r ← row_getitem kj 1;
  let '(er_vocab1, filt) := vocab_getitem er_vocab [h; r] in
  t ← row_getitem e2_idx j;
  row ← row_getitem predictions j;
  target_value ← row_getitem row t;
  row1 ← set_cols row filt 0%Q;
  Ok (er_vocab1, <[j := <[t := target_value]> row1]> predictions).

(** Lines 91-98: one pass of the ranking loop, on row [j]; [hits] holds
    the ten lists [hits[0..9]]. *)
Definition rank_step (sort_idxs : list (list nat)) (e2_idx : list nat)
    (acc : list nat * list (list Q)) (j : nat)
    : result (list nat * list (list Q)) :=
  let '(ranks, hits) := acc in
  idxs ← row_getitem sort_idxs j;
  t ← row_getitem e2_idx j;
  rank ← first_index idxs t;
  Ok (ranks ++ [rank + 1],
      imap (λ hits_level h,
              h ++ [if decide (rank ≤ hits_level) then 1%Q else 0%Q]) hits).

Section Evaluate.
Context `{Externals}.
Variables (self : Experiment) (entity_idxs relation_idxs : gmap string nat).
Variable d : Data.

(** Lines 71-98: the body of the batch loop of [evaluate]. *)
Definition evaluate_batch (model : model_state) (training : bool)
    (test_data_idxs : list key)
    (st : vocab * list nat * list (list Q)) (i : nat)
    : result (vocab * list nat * list (list Q)) :=
  let '(er_vocab, ranks, hits) := st in
  '(er_vocab1, (data_batch, _)) ←
    get_batch (batch_size self) (length (entities d)) er_vocab test_data_idxs i;
  e1_idx ← column 0 data_batch;
  r_idx ← column 1 data_batch;
  e2_idx ← column 2 data_batch;
  let predictions := forward model training e1_idx r_idx in
  '(er_vocab2, predictions1) ←
    rfoldl (filter_step data_batch e2_idx) (er_vocab1, predictions)
           (seq 0 (length data_batch));
  let sort_idxs := argsort_desc <$> predictions1 in
  '(ranks1, hits1) ←
    rfoldl (rank_step sort_idxs e2_idx) (ranks, hits)
           (seq 0 (length data_batch));
  Ok (er_vocab2, ranks1, hits1).

(** [Experiment.evaluate].  The source prints the means of [hits] and
    [ranks]; the lists themselves are returned here, together with the
    filter vocabulary as the calls left it. *)
Definition evaluate (model : model_state) (training : bool)
    (dat : list raw_triple) : result (vocab * list nat * list (list Q)) :=
  let hits := replicate 10 [] in
  test_data_idxs ← get_data_idxs entity_idxs relation_idxs dat;
  full ← get_data_idxs entity_idxs relation_idxs (data d);
  let er_vocab := get_er_vocab full in
  offsets ← range_step (length test_data_idxs) (batch_size self);
  rfoldl (evaluate_batch model training (tuple3 <$> test_data_idxs))
         (er_vocab, [], hits) offsets.
End Evaluate.

(** ** Training *)

(** [str.lower] on the ASCII letters.  A string is a sequence of bytes
    here; a name with a character outside ASCII never lowers to one of
    the five ASCII architecture names, in Python as in this model, so the
    comparisons of [select_model] are decided by this part of
    [str.lower]. *)
Definition lower_char (c : ascii) : ascii :=
  let n := nat_of_ascii c in
  if decide (65 ≤ n ∧ n ≤ 90) then ascii_of_nat (n + 32) else c.

Fixpoint lower (s : string) : string :=
  match s with
  | EmptyString => EmptyString
  | String c s' => String (lower_char c) (lower s')
  end.

(** Lines 124-133: the [if]/[elif] chain; it has no [else], so an unknown
    name leaves the local [model] unbound. *)
Definition select_model (name : string) : option variant :=
  if decide (lower name = "hype") then Some HypE
  else if decide (lower name = "hyper") then Some HypER
  else if decide (lower name = "distmult") then Some DistMult
  else if decide (lower name = "conve") then Some ConvE
  else if decide (lower name = "complex") then Some ComplEx
  else None.

(** Truth value of a Python float. *)
Definition truthy (x : Q) : bool := negb (Qeq_bool x 0).

(** Line 167, on one entry of the target tensor of width [N]. *)
Definition smooth_entry (s : Q) (N : nat) (t : Q) : Q :=
  ((1 - s) * t + 1 / inject_Z (Z.of_nat N))%Q.

(** Lines 166-167.  [targets.size(1)] is the width [N] of the tensor; the
    float division raises on a zero width. *)
Definition smooth_targets (s : Q) (N : nat) (targets : list (list Q))
    : result (list (list Q)) :=
  if truthy s then
    if decide (N = 0) then Raise ZeroDivisionError
    else Ok (map (map (smooth_entry s N)) targets)
  else Ok targets.

(** ** Paths

    [pathlib.Path] in its POSIX flavour, as far as lines 187-200 use it:
    a path is a root and a list of components. *)
Record PurePath : Type := {
  path_root : string;
  path_parts : list string
}.

(** [s.split('/')] *)
Fixpoint split_slash (s : string) : list string :=
  match s with
  | EmptyString => [EmptyString]
  | String c s' =>
      if Ascii.eqb c "/" then EmptyString :: split_slash s'
      else match split_slash s' with
           | x :: xs => String c x :: xs
           | [] => [String c EmptyString]
           end
  end.

(** [len(s) - len(s.lstrip('/'))] *)
Fixpoint leading_slashes (s : string) : nat :=
  match s with
  | String c s' => if Ascii.eqb c "/" then S (leading_slashes s') else 0
  | EmptyString => 0
  end.

(** [Path(s)]: exactly two leading slashes are kept as the root, any
    other positive number is one; empty components and [.] are dropped,
    a trailing slash with them. *)
Definition Path (s : string) : PurePath :=
  let n := leading_slashes s in
  {| path_root := if decide (n = 0) then "" else if decide (n = 2) then "//"
                  else "/";
     path_parts := filter (λ x, x ≠ "" ∧ x ≠ ".") (split_slash s) |}.

(** [p / q]: a rooted [q] replaces [p]. *)
Definition path_div (p q : PurePath) : PurePath :=
  if decide (path_root q = "")
  then {| path_root := path_root p; path_parts := path_parts p ++ path_parts q |}
  else q.

(** [str(p)] *)
Definition path_str (p : PurePath) : string :=
  if decide (path_root p = "" ∧ path_parts p = []) then "."
  else path_root p +:+ String.concat "/" (path_parts p).

(** What a run leaves behind or reports. *)
Inductive split : Type := Valid | Test.

Inductive event `{Externals} : Type :=
  | SavedKeys (path : string) (dictionary : gmap string nat)
  | Mkdir (path : string)
  | SavedStateDict (path : string) (model : model_state)
  | SavedEntityWeights (path : string) (model : model_state)
  | SavedRelationWeights (path : string) (model : model_state)
  | AvgLoss (it : nat) (losses : list Q)
  | EvaluateCall (it : nat) (s : split) (training grad_enabled : bool)
  | EvaluateDone (it : nat) (s : split) (ranks : list nat).

Arguments SavedKeys {_} path dictionary.
Arguments Mkdir {_} path.
Arguments SavedStateDict {_} path model.
Arguments SavedEntityWeights {_} path model.
Arguments SavedRelationWeights {_} path model.
Arguments AvgLoss {_} it losses.
Arguments EvaluateCall {_} it s training grad_enabled.
Arguments EvaluateDone {_} it s ranks.

(** A computation that logs events and may raise: the events logged
    before an exception are kept. *)
Record run `{Externals} (A : Type) : Type := Run {
  events : list event;
  outcome : result A
}.

Arguments Run {_ A} events outcome.
Arguments events {_ A} r.
Arguments outcome {_ A} r.

#[global] Instance run_ret `{Externals} : MRet run := λ A a, Run [] (Ok a).
#[global] Instance run_bind `{Externals} : MBind run := λ A B k c,
  match outcome c with
  | Ok a => Run (events c ++ events (k a)) (outcome (k a))
  | Raise e => Run (events c) (Raise e)
  end.

Definition emit `{Externals} (e : event) : run unit := Run [e] (Ok ()).
Definition lift `{Externals} {A : Type} (c : result A) : run A := Run [] c.

Fixpoint run_foldl `{Externals} {A B : Type} (f : B → A → run B) (b : B)
    (l : list A) : run B :=
  match l with
  | [] => mret b
  | x :: l' => b' ← f b x; run_foldl f b' l'
  end.

(** The local variables of [train_and_eval] that live across epochs,
    with the mode of the module and torch's gradient switch.  [loss_var]
    is the local [loss]: unbound until the first batch assigns it. *)
Record locals `{Externals} : Type := Locals {
  model : model_state;
  training : bool;
  grad_enabled : bool;
  gen : rng;
  er_vocab : vocab;
  er_vocab_pairs : list key;
  loss_var : option Q
}.

Arguments Locals {_} model training grad_enabled gen er_vocab er_vocab_pairs loss_var.

Section Train.
Context `{Externals}.
Variables (self : Experiment) (d : Data) (data_dir : string).

Let entity_idxs := build_idxs (entities d).
Let relation_idxs := build_idxs (relations d).

(** Lines 157-171: the body of the batch loop. *)
Definition train_batch (st : locals) (j : nat) : result locals :=
  '(er_vocab1, (data_batch, targets)) ←
    get_batch (batch_size self) (length (entities d))
              (er_vocab st) (er_vocab_pairs st) j;
  e1_idx ← column 0 data_batch;
  r_idx ← column 1 data_batch;
  let predictions := forward (model st) (training st) e1_idx r_idx in
  targets1 ← smooth_targets (label_smoothing self) (length (entities d)) targets;
  let l := loss predictions targets1 in
  Ok (Locals (opt_step (model st) e1_idx r_idx targets1)
             (training st) (grad_enabled st) (gen st)
             er_vocab1 (er_vocab_pairs st) (Some l)).

(** Lines 177-184. *)
Definition evaluation_phase (it : nat) (st : locals) : run locals :=
  if decide (valid_data d ≠ [] ∧ test_data d ≠ []) then
    let st1 := Locals (model st) false false (gen st)
                      (er_vocab st) (er_vocab_pairs st) (loss_var st) in
    emit (EvaluateCall it Valid (training st1) (grad_enabled st1));;
    '(_, ranks, _) ← lift (evaluate self entity_idxs relation_idxs d
                             (model st1) (training st1) (valid_data d));
    emit (EvaluateDone it Valid ranks);;
    (if decide (it `mod` 2 = 0) then
       emit (EvaluateCall it Test (training st1) (grad_enabled st1));;
       '(_, ranks, _) ← lift (evaluate self entity_idxs relation_idxs d
                                (model st1) (training st1) (test_data d));
       emit (EvaluateDone it Test ranks)
     else mret ());;
    mret (Locals (model st) false (grad_enabled st) (gen st)
                 (er_vocab st) (er_vocab_pairs st) (loss_var st))
  else mret st.

(** Lines 186-200: the two directories are created and the three files
    written under the names that [str] gives their paths. *)
Definition checkpoint (st : locals) : run unit :=
  let name := lower (model_name self) in
  let model_save_path := Path (data_dir +:+ "/model") in
  emit (Mkdir (path_str model_save_path));;
  emit (SavedStateDict
          (path_str (path_div model_save_path (Path (name +:+ "_model.torch"))))
          (model st));;
  let embeddings_save_path := Path (data_dir +:+ "/embeddings") in
  emit (Mkdir (path_str embeddings_save_path));;
  emit (SavedEntityWeights
          (path_str (path_div embeddings_save_path
                              (Path (name +:+ "_entity_embeddings.torch"))))
          (model st));;
  emit (SavedRelationWeights
          (path_str (path_div embeddings_save_path
                              (Path (name +:+ "_relation_embeddings.torch"))))
          (model st)).

(** Lines 151-200: one iteration of the epoch loop. *)
Definition epoch (st : locals) (it : nat) : run locals :=
  let losses : list Q := [] in
  let '(gen1, pairs1) := shuffle (gen st) (er_vocab_pairs st) in
  let st1 := Locals (model st) true (grad_enabled st) gen1
                    (er_vocab st) pairs1 (loss_var st) in
  offsets ← lift (range_step (length pairs1) (batch_size self));
  st2 ← lift (rfoldl train_batch st1 offsets);
  let st3 :=
    if truthy (decay_rate self)
    then Locals (scheduler_step (model st2)) (training st2) (grad_enabled st2)
                (gen st2) (er_vocab st2) (er_vocab_pairs st2) (loss_var st2)
    else st2 in
  l ← lift (match loss_var st3 with
            | Some l => Ok l
            | None => Raise (UnboundLocalError "loss")
            end);
  let losses := losses ++ [l] in
  emit (AvgLoss it losses);;
  st4 ← evaluation_phase it st3;
  checkpoint st4;;
  mret st4.

(** [Experiment.train_and_eval]. *)
Definition train_and_eval (gen0 : rng) : run unit :=
  train_data_idxs ← lift (get_data_idxs entity_idxs relation_idxs (train_data d));
  emit (SavedKeys (data_dir +:+ "/entities.npy") entity_idxs);;
  emit (SavedKeys (data_dir +:+ "/relations.npy") relation_idxs);;
  m ← lift (match select_model (model_name self) with
            | Some v => Ok (construct v d)
            | None => Raise (UnboundLocalError "model")
            end);
  let m := init m in
  let er_vocab := get_er_vocab train_data_idxs in
  let er_vocab_pairs := vocab_keys er_vocab in
  run_foldl epoch (Locals m true true gen0 er_vocab er_vocab_pairs None)
            (seq 1 (num_iterations self));;
  mret ().
End Train.

(** ** A small instance

    A three-entity graph and a deterministic stand-in for the external
    collaborators, used to run the definitions above. *)

(** Insertion of index [i] into a list of larger indices ordered by
    descending score: [i] goes before the first index whose score is not
    above its own, so that equal scores keep the smaller index first. *)
Fixpoint insert_desc (l : list Q) (i : nat) (acc : list nat) : list nat :=
  match acc with
  | [] => [i]
  | j :: acc' =>
      if Qle_bool (nth j l 0%Q) (nth i l 0%Q)
      then i :: acc
      else j :: insert_desc l i acc'
  end.

(** A stable descending argsort: the indices are inserted from the last
    to the first. *)
Definition stable_argsort_desc (l : list Q) : list nat :=
  foldr (insert_desc l) [] (seq 0 (length l)).

Definition toy_score (h r e : nat) : Q :=
  inject_Z (Z.of_nat ((h + r + 3 * e) `mod` 5)).

#[local] Instance toy_externals : Externals := {|
  model_state := nat;
  construct := λ _ d, length (entities d);
  init := λ m, m;
  forward := λ m _ hs rs,
    (λ hr, (λ e, toy_score hr.1 hr.2 e) <$> seq 0 m) <$> zip hs rs;
  loss := λ p _, inject_Z (Z.of_nat (length p));
  opt_step := λ m _ _ _, m;
  scheduler_step := λ m, m;
  rng := unit;
  shuffle := λ g l, (g, reverse l);
  argsort_desc := stable_argsort_desc
|}.

Definition toy_gen : @rng toy_externals := tt.

Definition toy_model : @model_state toy_externals := 3.

Definition toy_data : Data := {|
  entities := ["A"; "B"; "C"];
  relations := ["R"];
  train_data := [("A", "R", "B"); ("B", "R", "C"); ("C", "R", "A")];
  valid_data := [("A", "R", "C")];
  test_data := [("B", "R", "A")]
|}.

Definition toy_experiment (name : string) (B : nat) : Experiment := {|
  model_name := name;
  num_iterations := 2;
  batch_size := B;
  decay_rate := 99 # 100;
  label_smoothing := 1 # 10
|}.

(** ** Vocabulary of the statements *)

(** All three identifiers of a triple are in the indices. *)
Definition indexed (entity_idxs relation_idxs : gmap string nat)
    (tr : raw_triple) : Prop :=
  is_Some (entity_idxs !! tr.1.1) ∧ is_Some (relation_idxs !! tr.1.2)
  ∧ is_Some (entity_idxs !! tr.2).

(** [x] is [tr] with each component replaced by its index. *)
Definition indexes_to (entity_idxs relation_idxs : gmap string nat)
    (tr : raw_triple) (x : idx_triple) : Prop :=
  entity_idxs !! tr.1.1 = Some x.1.1 ∧ relation_idxs !! tr.1.2 = Some x.1.2
  ∧ entity_idxs !! tr.2 = Some x.2.


(** The tails registered for [k]; none when the key is absent. *)
Definition vocab_get (m : vocab) (k : key) : list nat :=
  default [] (vocab_lookup k m).

(** Flattening of a vocabulary: one (key, tail) pair per stored tail, and
    the triple [(h, r, t)] for each such pair whose key is [(h, r)]. *)
Definition vocab_entries (m : vocab) : list (key * nat) :=
  m ≫= λ kv, (λ t, (kv.1, t)) <$> kv.2.

Definition triple_of_entry (e : key * nat) : option idx_triple :=
  match e.1 with
  | [h; r] => Some (h, r, e.2)
  | _ => None
  end.

Definition flatten_vocab (m : vocab) : list idx_triple :=
  omap triple_of_entry (vocab_entries m).

(** The (key, tail) pair that a triple contributes. *)
Definition entry_of_triple (tr : idx_triple) : key * nat :=
  ([tr.1.1; tr.1.2], tr.2).

(** [ceil(V / B)] on naturals. *)
Definition div_ceil (V B : nat) : nat := (V + B - 1) / B.

(** Every stored tail is a valid column of a width-[N] row. *)
Definition vocab_bounded (N : nat) (m : vocab) : Prop :=
  Forall (λ kv, Forall (λ t, t < N) kv.2) m.

(** [m'] is [m] up to keys added with an empty tail list. *)
Definition vocab_extends (m m' : vocab) : Prop :=
  (∀ k v, vocab_lookup k m = Some v → vocab_lookup k m' = Some v)
  ∧ (∀ k, vocab_get m' k = vocab_get m k).

(** The width-[N] row holding 1 at the columns listed in [tails] and 0
    elsewhere. *)
Definition indicator_row (N : nat) (tails : list nat) : list Q :=
  (λ c, if decide (c ∈ tails) then 1%Q else 0%Q) <$> seq 0 N.

(** Modelled from the spec: label smoothing as the specification words
    it, [(1 - smoothing) * t + smoothing / numEntities]; to be compared
    with [smooth_entry], which follows line 167. *)
Definition smooth_entry_spec (s : Q) (N : nat) (t : Q) : Q :=
  ((1 - s) * t + s / inject_Z (Z.of_nat N))%Q.

(** The loss lists reported by a run, with their epoch. *)
Definition epoch_losses `{Externals} (evs : list event) : list (nat * list Q) :=
  omap (λ e, match e with AvgLoss it ls => Some (it, ls) | _ => None end) evs.

(** The artifacts a run has written to storage, by path. *)
Definition written `{Externals} (evs : list event) : list string :=
  omap (λ e, match e with
             | SavedKeys p _ | Mkdir p | SavedStateDict p _
             | SavedEntityWeights p _ | SavedRelationWeights p _ => Some p
             | _ => None
             end) evs.

(** An event of the training state proper: everything but the two index
    files written at line 121-122. *)
Definition is_index_file `{Externals} (e : event) : Prop :=
  match e with
  | SavedKeys _ _ => True
  | _ => False
  end.

(** The five architecture names. *)
Definition known_names : list string :=
  ["hype"; "hyper"; "distmult"; "conve"; "complex"].

(** The score vector of an evaluation triple with tail [t] after
    filtering, as the specification words it: the score of every tail of
    the filter set is replaced by 0.0, except that [t] keeps its score. *)
Definition filtered_scores (row : list Q) (filt : list nat) (t : nat) : list Q :=
  imap (λ c x, if decide (c = t) then x
               else if decide (c ∈ filt) then 0%Q else x) row.

(** The raw score vector of the [k]-th evaluation triple: its row in the
    output of the forward pass on the batch it belongs to. *)
Definition score_row `{Externals} (B : nat) (mdl : model_state)
    (training : bool) (tds : list idx_triple) (k : nat) : option (list Q) :=
  let trs := take B (drop (k / B * B) tds) in
  forward mdl training ((λ tr, tr.1.1) <$> trs) ((λ tr, tr.1.2) <$> trs)
    !! (k `mod` B).

(** The contract of the scoring model: one row per (head, relation) pair,
    one score per entity. *)
Definition forward_shape `{Externals} (N : nat) (mdl : model_state)
    (training : bool) : Prop :=
  ∀ hs rs, length hs = length rs →
    length (forward mdl training hs rs) = length hs
    ∧ Forall (λ row, length row = N) (forward mdl training hs rs).

(** The contract of the sort: the returned indices are the positions of
    the row, each once. *)
Definition argsort_permutes `{Externals} : Prop :=
  ∀ l, argsort_desc l ≡ₚ seq 0 (length l).

(** The rank that the ranking loop appends for row [j]. *)
Definition rank_of_row (sort_idxs : list (list nat)) (e2_idx : list nat)
    (j : nat) : option nat :=
  idxs ← sort_idxs !! j;
  t ← e2_idx !! j;
  match first_index idxs t with
  | Ok p => Some (p + 1)
  | Raise _ => None
  end.

(** Row [j] of the prediction matrix once the filtering loop has passed
    it, for the batch [trs] and the filter vocabulary [m]. *)
Definition filtered_row (m : vocab) (trs : list idx_triple)
    (preds : list (list Q)) (j : nat) : option (list Q) :=
  tr ← trs !! j;
  row ← preds !! j;
  Some (filtered_scores row (vocab_get m [tr.1.1; tr.1.2]) tr.2).

(** [rk] is the rank of the [k]-th evaluation triple [(h, r, t)] as the
    specification defines it: 1 + the position of [t] in the descending
    sort of its score vector filtered by the tails that [m0] registers
    for [(h, r)]. *)
Definition filtered_rank `{Externals} (B : nat) (mdl : model_state)
    (training : bool) (m0 : vocab) (tds : list idx_triple) (k rk : nat)
    : Prop :=
  ∃ tr row p,
    tds !! k = Some tr
    ∧ score_row B mdl training tds k = Some row
    ∧ first_index
        (argsort_desc
           (filtered_scores row (vocab_get m0 [tr.1.1; tr.1.2]) tr.2))
        tr.2 = Ok p
    ∧ rk = 1 + p.

(** The split that an evaluation event names. *)
Definition split_data (d : Data) (s : split) : list raw_triple :=
  match s with
  | Valid => valid_data d
  | Test => test_data d
  end.

(** What an [EvaluateCall] event of epoch [it] can be. *)
Definition call_in_schedule `{Externals} (d : Data) (it : nat) (e : event)
    : Prop :=
  ∀ it' s tr g, e = EvaluateCall it' s tr g →
    it' = it ∧ valid_data d ≠ [] ∧ test_data d ≠ []
    ∧ tr = false ∧ g = false ∧ (s = Test → it `mod` 2 = 0).
(** ** Further definitions: persisted index files *)

(** [d[k] = v] on an ordinary dict, kept in insertion order: a key that
    is already present keeps its place. *)
Fixpoint odict_set (k : string) (v : nat) (m : list (string * nat))
    : list (string * nat) :=
  match m with
  | [] => [(k, v)]
  | (k', v') :: m' =>
      if decide (k' = k) then (k', v) :: m' else (k', v') :: odict_set k v m'
  end.

(** [{xs[i]: i for i in range(len(xs))}] with the order of its items, which
    [save_as_numpy] reads; [build_idxs] is the same dict without the
    order. *)
Definition build_idxs_items (xs : list string) : list (string * nat) :=
  foldl (λ m ix, odict_set ix.2 ix.1 m) [] (imap pair xs).

(** What a fixed-width unicode array gives back for the string [s] it
    was built from: the padding is NUL, so NUL characters at the end of
    [s] are lost. *)
Fixpoint rstrip_nul (s : string) : string :=
  match s with
  | EmptyString => EmptyString
  | String c s' =>
      match rstrip_nul s' with
      | EmptyString =>
          if Ascii.eqb c Ascii.zero then EmptyString else String c EmptyString
      | r => String c r
      end
  end.

(** [np.array(elements)] on a list of strings, as the list of its
    items. *)
Definition np_array (elements : list string) : list string :=
  rstrip_nul <$> elements.

(** [Experiment.save_as_numpy]: the array handed to [np.save], built from
    the keys of the dictionary in the order of [dictionary.items()]. *)
Definition save_as_numpy (dictionary : list (string * nat)) : list string :=
  let elements := foldl (λ elements kv, elements ++ [kv.1]) [] dictionary in
  np_array elements.

(** The elements of a list without repetition, each at the place of its
    first occurrence. *)
Fixpoint first_occurrences {A : Type} `{EqDecision A} (l : list A) : list A :=
  match l with
  | [] => []
  | x :: l' => x :: filter (λ y, y ≠ x) (first_occurrences l')
  end.

(** ** Further definitions: contents of the vocabulary *)

(** The tails of the triples of [dat] whose (head, relation) pair is [k],
    in the order of [dat], repetitions included. *)
Definition tails_of (dat : list idx_triple) (k : key) : list nat :=
  omap (λ tr : idx_triple,
          if decide ([tr.1.1; tr.1.2] = k) then Some tr.2 else None) dat.

(** ** Further definitions: the training loop *)

(** Every key of the list iterated by the batch loop is a key of the
    vocabulary. *)
Definition pairs_in_vocab `{Externals} (st : locals) : Prop :=
  Forall (λ k, is_Some (vocab_lookup k (er_vocab st))) (er_vocab_pairs st).

(** The contract of [np.random.shuffle]: the list is reordered, nothing
    more. *)
Definition shuffle_permutes `{Externals} : Prop :=
  ∀ g l, (shuffle g l).2 ≡ₚ l.

(** The state in which the small instance enters the epoch loop. *)
Definition toy_locals : @locals toy_externals :=
  Locals toy_model true true toy_gen
         (get_er_vocab [(0, 0, 1); (1, 0, 2); (2, 0, 0)])
         (vocab_keys (get_er_vocab [(0, 0, 1); (1, 0, 2); (2, 0, 0)])) None.

(** ** Further definitions: evaluation metrics *)

(** The ten indicator lists determined by a list of ranks: list [level]
    holds, for each rank, 1.0 when the rank is at most [level + 1]. *)
Definition hits_of_ranks (ranks : list nat) : list (list Q) :=
  (λ level, (λ rk, if decide (rk ≤ level + 1) then 1%Q else 0%Q) <$> ranks)
    <$> seq 0 10.

(** The sort is descending: along the returned indices the scores never
    increase. *)
Definition argsort_descending `{Externals} : Prop :=
  ∀ l i j a b x y, i ≤ j →
    argsort_desc l !! i = Some a → argsort_desc l !! j = Some b →
    l !! a = Some x → l !! b = Some y → (y <= x)%Q.

(** The entities other than [t] that the filter leaves in competition. *)
Definition unfiltered_rivals (N : nat) (filt : list nat) (t : nat) : list nat :=
  filter (λ c, c ≠ t ∧ c ∉ filt) (seq 0 N).

(** A model that scores every (head, relation) pair of a batch on its
    own. *)
Definition forward_rowwise `{Externals} (N : nat) (mdl : model_state)
    (training : bool) (f : nat → nat → list Q) : Prop :=
  (∀ hs rs, forward mdl training hs rs = zip_with f hs rs)
  ∧ ∀ h r, length (f h r) = N.

(** ** Further definitions: what a run writes *)

(** The five paths that one checkpoint touches (lines 186-200), in the
    order of the writes, as [pathlib] names them. *)
Definition checkpoint_paths (self : Experiment) (data_dir : string)
    : list string :=
  let name := lower (model_name self) in
  let model_save_path := Path (data_dir +:+ "/model") in
  let embeddings_save_path := Path (data_dir +:+ "/embeddings") in
  [path_str model_save_path;
   path_str (path_div model_save_path (Path (name +:+ "_model.torch")));
   path_str embeddings_save_path;
   path_str (path_div embeddings_save_path
                      (Path (name +:+ "_entity_embeddings.torch")));
   path_str (path_div embeddings_save_path
                      (Path (name +:+ "_relation_embeddings.torch")))].

(** A single path component: not empty, not [.], without a slash. *)
Fixpoint has_slash (s : string) : bool :=
  match s with
  | EmptyString => false
  | String c s' => Ascii.eqb c "/" || has_slash s'
  end.

Definition plain_component (c : string) : Prop :=
  has_slash c = false ∧ c ≠ "" ∧ c ≠ ".".

(** The two index files of lines 121-122. *)
Definition index_paths (data_dir : string) : list string :=
  [data_dir +:+ "/entities.npy"; data_dir +:+ "/relations.npy"].

(** The name under which [select_model] recognises an architecture. *)
Definition variant_name (v : variant) : string :=
  match v with
  | HypE => "hype"
  | HypER => "hyper"
  | DistMult => "distmult"
  | ConvE => "conve"
  | ComplEx => "complex"
  end.

(** The contract of the model, as an invariant [good] of its state: the
    optimiser and the scheduler keep it, and under it [forward] returns
    one row of [N] scores per input pair. *)
Definition model_contract `{Externals} (N : nat)
    (good : model_state → Prop) : Prop :=
  (∀ m hs rs ts, good m → good (opt_step m hs rs ts))
  ∧ (∀ m, good m → good (scheduler_step m))
  ∧ (∀ m tr, good m → forward_shape N m tr).

(** What every epoch finds and leaves: the vocabulary of the training
    triples, its keys in some order, and a model within its contract. *)
Definition epoch_inv `{Externals} (good : model_state → Prop) (V0 : vocab)
    (st : locals) : Prop :=
  er_vocab st = V0 ∧ er_vocab_pairs st ≡ₚ vocab_keys V0 ∧ good (model st).

(** [np.mean] of a list of floats; the mean of no value is nan, here
    [None]. *)
Definition np_sum (l : list Q) : Q := foldr Qplus 0%Q l.

Definition np_mean (l : list Q) : option Q :=
  match l with
  | [] => None
  | _ => Some (np_sum l / inject_Z (Z.of_nat (length l)))%Q
  end.

(** The five figures that [evaluate] prints. *)
Record metrics : Type := Metrics {
  hits_at_10 : option Q;
  hits_at_3 : option Q;
  hits_at_1 : option Q;
  mean_rank : option Q;
  mean_reciprocal_rank : option Q
}.

Definition rank_value (rk : nat) : Q := inject_Z (Z.of_nat rk).

(** Lines 100-104, on the lists that the loop of [evaluate] has filled. *)
Definition printed_metrics (ranks : list nat) (hits : list (list Q))
    : result metrics :=
  h10 ← row_getitem hits 9;
  h3 ← row_getitem hits 2;
  h1 ← row_getitem hits 0;
  Ok (Metrics (np_mean h10) (np_mean h3) (np_mean h1)
              (np_mean (rank_value <$> ranks))
              (np_mean ((λ rk, 1 / rank_value rk)%Q <$> ranks))).
(** * Properties *)

(** ** The error monad *)

Lemma rbind_Ok {A B : Type} (c : result A) (k : A → result B) (b : B) :
  c ≫= k = Ok b ↔ ∃ a, c = Ok a ∧ k a = Ok b.
Proof.
  destruct c as [a|e]; simpl; split.
  - intros Hk. by exists a.
  - by intros (a' & [= <-] & Hk).
  - intros [=].
  - by intros (a' & [=] & _).
Qed.

Lemma rbind_Raise {A B : Type} (c : result A) (k : A → result B) (e : exn) :
  c ≫= k = Raise e ↔ c = Raise e ∨ ∃ a, c = Ok a ∧ k a = Raise e.
Proof.
  destruct c as [a|e']; simpl; split.
  - intros Hk. right. by exists a.
  - intros [[=] | (a' & [= <-] & Hk)]. done.
  - intros [= ->]. by left.
  - intros [[= ->] | (a' & [=] & _)]. done.
Qed.

Lemma result_cases {A : Type} (c : result A) :
  is_Ok c ∨ ∃ e, c = Raise e.
Proof. destruct c as [a|e]; [left; by exists a | right; by exists e]. Qed.


(** Decompose hypotheses of the form [c ≫= k = Ok b]. *)
Ltac inv_Ok :=
  repeat match goal with
  | H : Ok _ = Ok _ |- _ => simplify_eq
  | H : Raise _ = Ok _ |- _ => discriminate H
  | H : Ok _ = Raise _ |- _ => discriminate H
  | H : _ ≫= _ = Ok _ |- _ =>
      let a := fresh "a" in
      let Ha := fresh "Ha" in
      apply rbind_Ok in H as (a & Ha & H)
  | H : (let '(_, _) := ?p in _) = Ok _ |- _ => destruct p eqn:?
  end.

Lemma rmap_Ok {A B : Type} (f : A → result B) (l : list A) (out : list B) :
  rmap f l = Ok out ↔ Forall2 (λ x y, f x = Ok y) l out.
Proof.
  revert out. induction l as [|x l IH]; intros out; simpl.
  - split; [intros [= <-]; constructor | by inversion 1].
  - split.
    + intros Hb. inv_Ok. constructor; [done | by apply IH].
    + inversion 1 as [|? y ? ys Hy Hys]; subst.
      rewrite Hy. simpl. apply IH in Hys. rewrite Hys. done.
Qed.

Lemma rmap_Raise {A B : Type} (f : A → result B) (l : list A) (e : exn) :
  rmap f l = Raise e → ∃ x, x ∈ l ∧ f x = Raise e.
Proof.
  induction l as [|x l IH]; simpl; [done|].
  intros [Hx | (y & Hy & Hr)]%rbind_Raise.
  - exists x. split; [left | done].
  - apply rbind_Raise in Hr as [Hr | (ys & _ & [=])].
    destruct (IH Hr) as (x' & Hin & Hx'). exists x'. split; [by right | done].
Qed.


(** ** Identifier indices *)

Lemma idx_getitem_Ok (index : gmap string nat) (k : string) (i : nat) :
  idx_getitem index k = Ok i ↔ index !! k = Some i.
Proof.
  unfold idx_getitem. destruct (index !! k) as [i'|]; split; try done.
  - by intros [= ->].
  - by intros [= ->].
Qed.

Lemma idx_getitem_Raise (index : gmap string nat) (k : string) (e : exn) :
  idx_getitem index k = Raise e ↔ index !! k = None ∧ e = KeyError k.
Proof.
  unfold idx_getitem. destruct (index !! k) as [i'|]; split; try done.
  - by intros [[=] _].
  - by intros [= <-].
  - by intros [_ ->].
Qed.

Lemma idx_triple_of_Ok ent rel (tr : raw_triple) (x : idx_triple) :
  idx_triple_of ent rel tr = Ok x ↔ indexes_to ent rel tr x.
Proof.
  unfold idx_triple_of, indexes_to. split.
  - intros Hb. inv_Ok. simpl. by rewrite <- !idx_getitem_Ok.
  - destruct x as [[h r] t]. simpl. intros (Hh & Hr & Ht).
    apply idx_getitem_Ok in Hh, Hr, Ht. rewrite Hh. simpl. rewrite Hr. simpl.
    by rewrite Ht.
Qed.

Lemma idx_triple_of_Raise ent rel (tr : raw_triple) (e : exn) :
  idx_triple_of ent rel tr = Raise e →
  ¬ indexed ent rel tr ∧
  ∃ k, e = KeyError k ∧ (k = tr.1.1 ∨ k = tr.1.2 ∨ k = tr.2).
Proof.
  unfold idx_triple_of, indexed.
  intros [Hh | (h & Hh & Hr)]%rbind_Raise.
  { apply idx_getitem_Raise in Hh as [Hh ->].
    split; [rewrite Hh; by intros [[? [=]] _] | eauto]. }
  apply rbind_Raise in Hr as [Hr | (r & Hr & Ht)].
  { apply idx_getitem_Raise in Hr as [Hr ->].
    split; [rewrite Hr; by intros (_ & [? [=]] & _) | eauto]. }
  apply rbind_Raise in Ht as [Ht | (t & _ & [=])].
  apply idx_getitem_Raise in Ht as [Ht ->].
  split; [rewrite Ht; by intros (_ & _ & [? [=]]) | eauto].
Qed.

Lemma indexed_indexes_to ent rel (tr : raw_triple) :
  indexed ent rel tr ↔ ∃ x, indexes_to ent rel tr x.
Proof.
  unfold indexed, indexes_to. split.
  - intros ([h Hh] & [r Hr] & [t Ht]). by exists (h, r, t).
  - intros (x & Hh & Hr & Ht). eauto.
Qed.

Lemma indexes_to_total ent rel (dat : list raw_triple) :
  Forall (indexed ent rel) dat → ∃ out, Forall2 (indexes_to ent rel) dat out.
Proof.
  induction 1 as [|tr l Htr _ [out IH]]; [by exists []|].
  apply indexed_indexes_to in Htr as [x Hx]. exists (x :: out).
  by constructor.
Qed.

(** C8. [get_data_idxs] raises exactly when some triple of its input has an
    identifier that is absent from the entity or relation index, the
    exception is then a [KeyError] on such an identifier, and it returns
    [out] exactly when [out] is the input with every component replaced
    by its index: no other id is ever substituted. *)
Theorem get_data_idxs_key_error (entity_idxs relation_idxs : gmap string nat)
    (dat : list raw_triple) :
  ((∃ e, get_data_idxs entity_idxs relation_idxs dat = Raise e)
     ↔ Exists (λ tr, ¬ indexed entity_idxs relation_idxs tr) dat)
  ∧ (∀ e, get_data_idxs entity_idxs relation_idxs dat = Raise e →
       ∃ k tr, e = KeyError k ∧ tr ∈ dat
               ∧ (k = tr.1.1 ∨ k = tr.1.2 ∨ k = tr.2)
               ∧ ¬ indexed entity_idxs relation_idxs tr)
  ∧ (∀ out, get_data_idxs entity_idxs relation_idxs dat = Ok out
       ↔ Forall2 (indexes_to entity_idxs relation_idxs) dat out)
  ∧ (Forall (indexed entity_idxs relation_idxs) dat →
       is_Ok (get_data_idxs entity_idxs relation_idxs dat)).
Proof.
  assert (Hok : ∀ out, get_data_idxs entity_idxs relation_idxs dat = Ok out
       ↔ Forall2 (indexes_to entity_idxs relation_idxs) dat out).
  { intros out. unfold get_data_idxs. rewrite rmap_Ok.
    split; intros HF; (eapply Forall2_impl; [exact HF|]);
      intros tr x; by rewrite idx_triple_of_Ok. }
  assert (Hraise : ∀ e, get_data_idxs entity_idxs relation_idxs dat = Raise e →
       ∃ k tr, e = KeyError k ∧ tr ∈ dat
               ∧ (k = tr.1.1 ∨ k = tr.1.2 ∨ k = tr.2)
               ∧ ¬ indexed entity_idxs relation_idxs tr).
  { intros e (tr & Hin & Htr)%rmap_Raise.
    apply idx_triple_of_Raise in Htr as (Hn & k & -> & Hk). by exists k, tr. }
  assert (Hall : Forall (indexed entity_idxs relation_idxs) dat →
       is_Ok (get_data_idxs entity_idxs relation_idxs dat)).
  { intros [out Hout]%indexes_to_total. exists out. by apply Hok. }
  split_and!; try done.
  split.
  - intros [e He]. destruct (Hraise e He) as (k & tr & _ & Hin & _ & Hn).
    apply Exists_exists. by exists tr.
  - intros Hex.
    destruct (result_cases (get_data_idxs entity_idxs relation_idxs dat))
      as [[out Hout] | He]; [|done].
    apply Hok in Hout. apply Exists_exists in Hex as (tr & Hin & Hn).
    exfalso. apply Hn.
    apply list_elem_of_lookup in Hin as [i Hi].
    destruct (Forall2_lookup_l _ _ _ _ _ Hout Hi) as (x & _ & Hx).
    apply indexed_indexes_to. by exists x.
Qed.

(** ** The vocabulary *)

Lemma vocab_lookup_app (k : key) (m1 m2 : vocab) :
  vocab_lookup k (m1 ++ m2) =
  match vocab_lookup k m1 with
  | Some v => Some v
  | None => vocab_lookup k m2
  end.
Proof.
  induction m1 as [|[k' v'] m1 IH]; simpl; [done|].
  by destruct (decide (k' = k)).
Qed.

Lemma vocab_store_app_None (k : key) (v : list nat) (m1 m2 : vocab) :
  vocab_lookup k m1 = None →
  vocab_store k v (m1 ++ m2) = m1 ++ vocab_store k v m2.
Proof.
  induction m1 as [|[k' v'] m1 IH]; simpl; [done|].
  destruct (decide (k' = k)); [done|]. intros Hm1. by rewrite IH.
Qed.

Lemma vocab_entries_app (m1 m2 : vocab) :
  vocab_entries (m1 ++ m2) = vocab_entries m1 ++ vocab_entries m2.
Proof. unfold vocab_entries. apply bind_app. Qed.

Lemma vocab_entries_store (k : key) (v : list nat) (t : nat) (m : vocab) :
  vocab_lookup k m = Some v →
  vocab_entries (vocab_store k (v ++ [t]) m) ≡ₚ vocab_entries m ++ [(k, t)].
Proof.
  induction m as [|[k' v'] m IH]; simpl; [done|].
  destruct (decide (k' = k)) as [->|Hne].
  - intros [= ->]. unfold vocab_entries. rewrite !bind_cons. simpl.
    rewrite fmap_app. simpl. rewrite <- !(assoc_L (++)).
    apply Permutation_app_head, Permutation_app_comm.
  - intros Hm. unfold vocab_entries in *. rewrite !bind_cons.
    rewrite <- (assoc_L (++)). by apply Permutation_app_head, IH.
Qed.

Lemma vocab_entries_append (m : vocab) (k : key) (t : nat) :
  vocab_entries (vocab_append m k t) ≡ₚ vocab_entries m ++ [(k, t)].
Proof.
  unfold vocab_append, vocab_getitem.
  destruct (vocab_lookup k m) as [v|] eqn:Hm.
  - by apply vocab_entries_store.
  - rewrite vocab_store_app_None by done. simpl.
    rewrite decide_True by done. by rewrite !vocab_entries_app.
Qed.

Lemma vocab_entries_foldl (m : vocab) (dat : list idx_triple) :
  vocab_entries (foldl (λ m tr, vocab_append m [tr.1.1; tr.1.2] tr.2) m dat)
  ≡ₚ vocab_entries m ++ (entry_of_triple <$> dat).
Proof.
  revert m. induction dat as [|tr dat IH]; intros m; simpl.
  - by rewrite (right_id_L [] (++)).
  - rewrite IH, vocab_entries_append. by rewrite <- (assoc_L (++)).
Qed.

Lemma omap_entry_of_triple (dat : list idx_triple) :
  omap triple_of_entry (entry_of_triple <$> dat) = dat.
Proof.
  induction dat as [|[[h r] t] dat IH]; csimpl; [done|]. by rewrite IH.
Qed.

(** C6. Flattening the vocabulary built from a list of indexed triples
    gives back the triples, each as often as it was fed in: the two lists
    are equal as multisets. *)
Theorem get_er_vocab_round_trip (dat : list idx_triple) :
  flatten_vocab (get_er_vocab dat) ≡ₚ dat.
Proof.
  unfold flatten_vocab, get_er_vocab.
  rewrite vocab_entries_foldl. simpl. apply reflexive_eq, omap_entry_of_triple.
Qed.

(** ** Ranges and slices *)

Lemma div_ceil_0 (B : nat) : 0 < B → div_ceil 0 B = 0.
Proof. intros HB. unfold div_ceil. apply Nat.div_small. lia. Qed.

Lemma div_ceil_S (n B : nat) :
  0 < B → 0 < n → div_ceil n B = S (div_ceil (n - B) B).
Proof.
  intros HB Hn. unfold div_ceil.
  destruct (decide (B ≤ n)) as [Hle|Hgt].
  - replace (n + B - 1) with ((n - B + B - 1) + 1 * B) by lia.
    rewrite Nat.div_add by lia. lia.
  - replace (n - B) with 0 by lia. simpl.
    rewrite (Nat.div_small (B - 1) B) by lia.
    replace (n + B - 1) with ((n - 1) + 1 * B) by lia.
    rewrite Nat.div_add by lia. rewrite Nat.div_small by lia. done.
Qed.

Lemma div_ceil_split (V B : nat) :
  0 < B →
  div_ceil V B = V / B + (if decide (V `mod` B = 0) then 0 else 1).
Proof.
  intros HB. unfold div_ceil.
  pose proof (Nat.div_mod_eq V B) as Hdm.
  pose proof (Nat.mod_upper_bound V B ltac:(lia)) as Hlt.
  case_decide as Hm.
  - symmetry. apply (Nat.div_unique _ _ _ (B - 1)); lia.
  - symmetry. apply (Nat.div_unique _ _ _ (V `mod` B - 1)); lia.
Qed.

Lemma div_ceil_cover (V B : nat) : 0 < B → V ≤ div_ceil V B * B.
Proof.
  intros HB. rewrite div_ceil_split by done.
  pose proof (Nat.div_mod_eq V B) as Hdm.
  pose proof (Nat.mod_upper_bound V B ltac:(lia)) as Hlt.
  case_decide; nia.
Qed.

Lemma div_ceil_le (V B : nat) : 0 < B → div_ceil V B ≤ V.
Proof.
  intros HB. rewrite div_ceil_split by done.
  pose proof (Nat.div_mod_eq V B) as Hdm.
  pose proof (Nat.mod_upper_bound V B ltac:(lia)) as Hlt.
  case_decide; nia.
Qed.

Lemma range_from_closed (fuel start stop step : nat) :
  0 < step → div_ceil (stop - start) step ≤ fuel →
  range_from fuel start stop step
  = (λ q, start + q * step) <$> seq 0 (div_ceil (stop - start) step).
Proof.
  intros Hstep. revert start.
  induction fuel as [|fuel IH]; intros start Hfuel; simpl.
  - by replace (div_ceil (stop - start) step) with 0 by lia.
  - case_decide as Hlt.
    + rewrite (div_ceil_S (stop - start)) in * by lia. simpl.
      f_equal; [lia|].
      rewrite IH by (replace (stop - (start + step)) with (stop - start - step)
                       by lia; lia).
      rewrite <- fmap_S_seq, <- list_fmap_compose.
      replace (stop - (start + step)) with (stop - start - step) by lia.
      apply list_fmap_ext. intros _ q _. simpl. lia.
    + replace (stop - start) with 0 by lia. by rewrite div_ceil_0.
Qed.

(** The offsets visited by [range(0, V, B)]. *)
Lemma range_step_closed (V B : nat) :
  0 < B → range_step V B = Ok ((λ q, q * B) <$> seq 0 (div_ceil V B)).
Proof.
  intros HB. unfold range_step. rewrite decide_False by lia.
  rewrite range_from_closed by (rewrite ?Nat.sub_0_r; auto using div_ceil_le).
  by rewrite Nat.sub_0_r.
Qed.

Lemma slice_take_drop {A : Type} (o B : nat) (l : list A) :
  slice o (Nat.min (o + B) (length l)) l = take B (drop o l).
Proof.
  unfold slice. destruct (decide (o + B ≤ length l)) as [Hle|Hgt].
  - f_equal. lia.
  - rewrite !take_ge; [done| |]; rewrite length_drop; lia.
Qed.

Lemma chunks_concat {A : Type} (B n : nat) (l : list A) :
  length l ≤ n * B →
  concat ((λ q, take B (drop (q * B) l)) <$> seq 0 n) = l.
Proof.
  revert l. induction n as [|n IH]; intros l Hlen; simpl.
  - destruct l; [done | simpl in Hlen; lia].
  - rewrite <- fmap_S_seq, <- list_fmap_compose.
    transitivity (take B l ++ drop B l); [|apply take_drop]. f_equal.
    etransitivity; [|apply (IH (drop B l)); rewrite length_drop; lia].
    f_equal. apply list_fmap_ext. intros _ q _. simpl.
    by rewrite drop_drop.
Qed.

Lemma slice_length_inner {A : Type} (q B : nat) (l : list A) :
  0 < B → q < div_ceil (length l) B →
  length (take B (drop (q * B) l))
  = if decide (S q = div_ceil (length l) B)
    then (if decide (length l `mod` B = 0) then B else length l `mod` B)
    else B.
Proof.
  intros HB Hq. rewrite length_take, length_drop.
  rewrite div_ceil_split in * by done.
  pose proof (Nat.div_mod_eq (length l) B) as Hdm.
  pose proof (Nat.mod_upper_bound (length l) B ltac:(lia)) as Hlt.
  repeat case_decide; nia.
Qed.

(** ** Lookups through the defaultdict *)

Lemma vocab_extends_refl (m : vocab) : vocab_extends m m.
Proof. by split. Qed.

Lemma vocab_extends_trans (m1 m2 m3 : vocab) :
  vocab_extends m1 m2 → vocab_extends m2 m3 → vocab_extends m1 m3.
Proof.
  intros [H1 H1'] [H2 H2']. split.
  - intros k v Hk. by apply H2, H1.
  - intros k. by rewrite H2', H1'.
Qed.

Lemma vocab_getitem_spec (m m' : vocab) (k : key) (v : list nat) :
  vocab_getitem m k = (m', v) →
  v = vocab_get m k ∧ vocab_lookup k m' = Some v ∧ vocab_extends m m'
  ∧ (vocab_lookup k m = None → m' = m ++ [(k, [])])
  ∧ (is_Some (vocab_lookup k m) → m' = m).
Proof.
  unfold vocab_getitem, vocab_get.
  destruct (vocab_lookup k m) as [v0|] eqn:Hm; intros [= <- <-]; simpl.
  - split_and!; done.
  - split_and!; try done.
    + rewrite vocab_lookup_app, Hm. simpl. by rewrite decide_True.
    + split.
      * intros k' v' Hk'. by rewrite vocab_lookup_app, Hk'.
      * intros k'. unfold vocab_get. rewrite vocab_lookup_app.
        destruct (vocab_lookup k' m) as [v'|] eqn:Hk'; [done|]. simpl.
        by case_decide.
Qed.

Lemma vocab_bounded_lookup (N : nat) (m : vocab) (k : key) (v : list nat) :
  vocab_bounded N m → vocab_lookup k m = Some v → Forall (λ t, t < N) v.
Proof.
  unfold vocab_bounded. induction 1 as [|[k' v'] m Hv _ IH]; simpl; [done|].
  case_decide; [by intros [= <-] | done].
Qed.

Lemma vocab_bounded_get (N : nat) (m : vocab) (k : key) :
  vocab_bounded N m → Forall (λ t, t < N) (vocab_get m k).
Proof.
  intros Hb. unfold vocab_get.
  destruct (vocab_lookup k m) as [v|] eqn:Hm; simpl; [|constructor].
  by eapply vocab_bounded_lookup.
Qed.

Lemma vocab_bounded_getitem (N : nat) (m m' : vocab) (k : key) (v : list nat) :
  vocab_bounded N m → vocab_getitem m k = (m', v) → vocab_bounded N m'.
Proof.
  unfold vocab_getitem, vocab_bounded.
  destruct (vocab_lookup k m); intros Hb [= <- <-]; [done|].
  apply Forall_app. split; [done|]. by repeat constructor.
Qed.

(** ** Dense rows *)

Lemma foldl_insert_length (v : Q) (cols : list nat) (row : list Q) :
  length (foldl (λ r c, <[c := v]> r) row cols) = length row.
Proof.
  revert row. induction cols as [|c cols IH]; intros row; simpl; [done|].
  by rewrite IH, length_insert.
Qed.

Lemma foldl_insert_lookup (v : Q) (cols : list nat) (row : list Q) (c : nat) :
  c < length row →
  foldl (λ r c, <[c := v]> r) row cols !! c
  = if decide (c ∈ cols) then Some v else row !! c.
Proof.
  revert row. induction cols as [|c' cols IH]; intros row Hc.
  - case_decide as Hin; [by apply elem_of_nil in Hin | done].
  - change (foldl (λ r c, <[c := v]> r) (<[c' := v]> row) cols !! c
            = if decide (c ∈ c' :: cols) then Some v else row !! c).
    rewrite IH by (by rewrite length_insert).
    destruct (decide (c = c')) as [->|Hne].
    + rewrite list_lookup_insert_eq by done.
      rewrite (decide_True (P := c' ∈ c' :: cols)) by left.
      by case_decide.
    + rewrite list_lookup_insert_ne by done.
      destruct (decide (c ∈ cols)) as [Hin|Hnin].
      * by rewrite decide_True by (by right).
      * rewrite decide_False; [done|]. by intros [?|?]%elem_of_cons.
Qed.

Lemma set_cols_Ok (row : list Q) (cols : list nat) (v : Q) (out : list Q) :
  set_cols row cols v = Ok out ↔
  Forall (λ c, c < length row) cols
  ∧ out = foldl (λ r c, <[c := v]> r) row cols.
Proof.
  unfold set_cols. case_decide; split; try done.
  - by intros [= <-].
  - by intros [_ ->].
  - by intros [? _].
Qed.


Lemma indicator_row_length (N : nat) (tails : list nat) :
  length (indicator_row N tails) = N.
Proof. unfold indicator_row. by rewrite length_fmap, length_seq. Qed.

Lemma indicator_row_lookup (N : nat) (tails : list nat) (c : nat) :
  c < N →
  indicator_row N tails !! c = Some (if decide (c ∈ tails) then 1%Q else 0%Q).
Proof.
  intros Hc. unfold indicator_row. rewrite list_lookup_fmap.
  by rewrite lookup_seq_lt.
Qed.

Lemma indicator_row_nil (N : nat) : indicator_row N [] = replicate N 0%Q.
Proof.
  apply list_eq. intros c. destruct (decide (c < N)) as [Hc|Hc].
  - rewrite indicator_row_lookup by done.
    rewrite decide_False by apply not_elem_of_nil.
    symmetry. by apply lookup_replicate_2.
  - rewrite !lookup_ge_None_2;
      rewrite ?indicator_row_length, ?length_replicate; [done|lia..].
Qed.

(** The assignment [targets[idx, tails] = 1.] on a fresh row of zeros. *)
Lemma set_cols_indicator (N : nat) (tails : list nat) :
  Forall (λ t, t < N) tails →
  set_cols (replicate N 0%Q) tails 1%Q = Ok (indicator_row N tails).
Proof.
  intros Hb. apply set_cols_Ok. rewrite length_replicate. split; [done|].
  apply list_eq. intros c. destruct (decide (c < N)) as [Hc|Hc].
  - rewrite indicator_row_lookup by done.
    rewrite foldl_insert_lookup by (by rewrite length_replicate).
    case_decide; [done|]. symmetry. by apply lookup_replicate_2.
  - rewrite !lookup_ge_None_2;
      rewrite ?indicator_row_length, ?foldl_insert_length, ?length_replicate;
      [done|lia..].
Qed.

(** ** The target matrix *)

Lemma target_rows_Ok (N : nat) (batch : list key) (m m' : vocab)
    (rows : list (list Q)) :
  target_rows N m batch = Ok (m', rows) →
  rows = (λ k, indicator_row N (vocab_get m k)) <$> batch
  ∧ Forall (λ k, Forall (λ t, t < N) (vocab_get m k)) batch
  ∧ vocab_extends m m'
  ∧ Forall (λ k, is_Some (vocab_lookup k m')) batch
  ∧ (vocab_bounded N m → vocab_bounded N m').
Proof.
  revert m m' rows. induction batch as [|k batch IH]; intros m m' rows; simpl.
  - intros [= <- <-]. split_and!; done.
  - destruct (vocab_getitem m k) as [m1 tails] eqn:Hget.
    intros Hb. apply rbind_Ok in Hb as (row & Hrow & Hb).
    apply rbind_Ok in Hb as ([m2 rows2] & Hrest & [= <- <-]).
    pose proof (vocab_getitem_spec _ _ _ _ Hget) as (-> & Hk & Hext & _).
    destruct (IH _ _ _ Hrest) as (-> & Hbs & Hext2 & Hin & Hbd).
    apply set_cols_Ok in Hrow as [Hlt ->]. rewrite length_replicate in Hlt.
    destruct Hext as [Hext Hext'], Hext2 as [Hext2 Hext2'].
    split_and!.
    + csimpl. f_equal.
      * pose proof (set_cols_indicator N _ Hlt) as Hs.
        apply set_cols_Ok in Hs as [_ ->]. done.
      * apply list_fmap_ext. intros _ k' _. by rewrite Hext'.
    + constructor; [done|]. eapply Forall_impl; [exact Hbs|].
      intros k'. simpl. by rewrite Hext'.
    + by apply (vocab_extends_trans _ m1).
    + constructor; [|done]. eexists. by apply Hext2.
    + intros Hm. eapply Hbd, vocab_bounded_getitem; eauto.
Qed.

Lemma target_rows_total (N : nat) (batch : list key) (m : vocab) :
  Forall (λ k, Forall (λ t, t < N) (vocab_get m k)) batch →
  is_Ok (target_rows N m batch).
Proof.
  revert m. induction batch as [|k batch IH]; intros m Hb; simpl.
  - by eexists.
  - destruct (vocab_getitem m k) as [m1 tails] eqn:Hget.
    pose proof (vocab_getitem_spec _ _ _ _ Hget) as (-> & _ & [_ Hext] & _).
    apply Forall_cons in Hb as [Hk Hb].
    rewrite set_cols_indicator by done. simpl.
    destruct (IH m1) as [[m2 rows] ->].
    { eapply Forall_impl; [exact Hb|]. intros k'. simpl. by rewrite Hext. }
    by eexists.
Qed.

Lemma get_batch_Ok (B N : nat) (m m' : vocab) (keys batch : list key)
    (idx : nat) (targets : list (list Q)) :
  get_batch B N m keys idx = Ok (m', (batch, targets)) →
  batch = take B (drop idx keys)
  ∧ targets = (λ k, indicator_row N (vocab_get m k)) <$> batch
  ∧ vocab_extends m m'
  ∧ Forall (λ k, is_Some (vocab_lookup k m')) batch
  ∧ (vocab_bounded N m → vocab_bounded N m').
Proof.
  unfold get_batch. rewrite slice_take_drop. intros Hb.
  apply rbind_Ok in Hb as ([m1 rows] & Hrows & [= <- <- <-]).
  apply target_rows_Ok in Hrows as (-> & _ & Hext & Hin & Hbd). done.
Qed.

Lemma get_batch_total (B N : nat) (m : vocab) (keys : list key) (idx : nat) :
  Forall (λ k, Forall (λ t, t < N) (vocab_get m k)) (take B (drop idx keys)) →
  is_Ok (get_batch B N m keys idx).
Proof.
  intros Hb. unfold get_batch. rewrite slice_take_drop.
  destruct (target_rows_total N _ m Hb) as [[m1 rows] ->]. by eexists.
Qed.

Lemma get_batch_bounded_total (B N : nat) (m : vocab) (keys : list key)
    (idx : nat) :
  vocab_bounded N m → is_Ok (get_batch B N m keys idx).
Proof.
  intros Hb. apply get_batch_total, Forall_forall. intros k _.
  by apply vocab_bounded_get.
Qed.

(** C4. With a positive batch size [B], [range(0, V, B)] visits the
    [ceil(V / B)] offsets [0, B, 2B, ...]; at each of them [get_batch]
    returns without an exception (on a vocabulary whose tails are valid
    columns) the key slice [keys[o : min(o + B, V)]], which is non-empty,
    at most [B] long and paired with exactly as many target rows (no
    padding); the last slice has [V mod B] keys, or [B] when [B] divides
    [V]; and the slices concatenated in order are the key list itself, so
    that every position is served once and a duplicate-free key list
    yields duplicate-free batches. *)
Theorem get_batch_partition (B N : nat) (keys : list key) :
  0 < B →
  let V := length keys in
  let offsets := (λ q, q * B) <$> seq 0 (div_ceil V B) in
  let batch_at := λ o, slice o (Nat.min (o + B) V) keys in
  range_step V B = Ok offsets
  ∧ length offsets = div_ceil V B
  ∧ (∀ o m, o ∈ offsets → vocab_bounded N m →
       ∃ m' targets,
         get_batch B N m keys o = Ok (m', (batch_at o, targets))
         ∧ length targets = length (batch_at o)
         ∧ 0 < length (batch_at o) ≤ B
         ∧ vocab_bounded N m')
  ∧ (∀ o, last offsets = Some o →
       length (batch_at o) = if decide (V `mod` B = 0) then B else V `mod` B)
  ∧ concat (batch_at <$> offsets) = keys
  ∧ (NoDup keys → NoDup (concat (batch_at <$> offsets))).
Proof.
  intros HB V offsets batch_at. subst V.
  assert (Hat : ∀ o, batch_at o = take B (drop o keys)).
  { intros o. apply slice_take_drop. }
  assert (Hcat : concat (batch_at <$> offsets) = keys).
  { unfold offsets. rewrite <- list_fmap_compose.
    etransitivity;
      [|apply (chunks_concat B (div_ceil (length keys) B) keys),
               div_ceil_cover, HB].
    f_equal. apply list_fmap_ext. intros _ q _. simpl. apply Hat. }
  split_and!.
  - by apply range_step_closed.
  - unfold offsets. by rewrite length_fmap, length_seq.
  - intros o m Ho Hm.
    apply list_elem_of_fmap in Ho as (q & -> & Hq%elem_of_seq).
    destruct (get_batch_bounded_total B N m keys (q * B) Hm)
      as [[m' [batch targets]] Hget].
    pose proof (get_batch_Ok _ _ _ _ _ _ _ _ Hget) as (Hb & -> & _ & _ & Hbd).
    exists m', ((λ k, indicator_row N (vocab_get m k)) <$> batch).
    rewrite Hat, <- Hb.
    split_and!; [done | by rewrite length_fmap | | | by apply Hbd].
    + rewrite Hb, slice_length_inner by (done || lia).
      pose proof (Nat.mod_upper_bound (length keys) B ltac:(lia)).
      repeat case_decide; lia.
    + rewrite Hb, length_take. lia.
  - intros o Ho. unfold offsets in Ho. rewrite fmap_last in Ho.
    destruct (div_ceil (length keys) B) as [|n] eqn:Hn; [done|].
    rewrite seq_S, last_snoc in Ho. simpl in Ho. injection Ho as <-.
    rewrite Hat, slice_length_inner by (done || lia).
    rewrite Hn. by rewrite decide_True.
  - done.
  - by rewrite Hcat.
Qed.

Lemma get_batch_partition_witness :
  0 < 2 ∧
  range_step 3 2 = Ok [0; 2]
  ∧ concat ((λ o, slice o (Nat.min (o + 2) 3) [[0; 0]; [1; 0]; [2; 0]])
              <$> [0; 2]) = [[0; 0]; [1; 0]; [2; 0]].
Proof.
  assert (H2 : 0 < 2) by lia. split; [exact H2|].
  destruct (get_batch_partition 2 3 [[0; 0]; [1; 0]; [2; 0]] H2)
    as (Hr & _ & _ & _ & Hc & _).
  split; [exact Hr | exact Hc].
Defined.

(** C5. On a vocabulary whose tails are valid columns [get_batch] returns,
    and whenever it returns, the target matrix has one row per key of the
    batch, each row has width [N] (the entity count), and the row of key
    [k] holds 1.0 at exactly the columns registered for [k] in the
    vocabulary and 0.0 at every other column. *)
Theorem get_batch_target_rows (B N : nat) (m : vocab) (keys : list key)
    (idx : nat) :
  (vocab_bounded N m → is_Ok (get_batch B N m keys idx))
  ∧ ∀ m' batch targets,
      get_batch B N m keys idx = Ok (m', (batch, targets)) →
      length targets = length batch
      ∧ ∀ j k, batch !! j = Some k →
          ∃ row, targets !! j = Some row ∧ length row = N
            ∧ ∀ c, c < N →
                row !! c
                = Some (if decide (c ∈ vocab_get m k) then 1%Q else 0%Q).
Proof.
  split; [apply get_batch_bounded_total|].
  intros m' batch targets (_ & -> & _)%get_batch_Ok.
  split; [by rewrite length_fmap|].
  intros j k Hj. exists (indicator_row N (vocab_get m k)).
  split_and!.
  - by rewrite list_lookup_fmap, Hj.
  - apply indicator_row_length.
  - intros c Hc. by apply indicator_row_lookup.
Qed.

Lemma get_batch_target_rows_witness :
  get_batch 2 3 [([0; 0], [1; 2]); ([1; 0], [2])] [[0; 0]; [1; 0]] 0
  = Ok ([([0; 0], [1; 2]); ([1; 0], [2])],
        ([[0; 0]; [1; 0]], [[0; 1; 1]; [0; 0; 1]]%Q))
  ∧ ∃ row, [[0; 1; 1]; [0; 0; 1]]%Q !! 0 = Some row ∧ length row = 3
      ∧ ∀ c, c < 3 →
          row !! c
          = Some (if decide (c ∈ vocab_get [([0; 0], [1; 2]); ([1; 0], [2])]
                                            [0; 0])
                  then 1%Q else 0%Q).
Proof.
  assert (Hrun : get_batch 2 3 [([0; 0], [1; 2]); ([1; 0], [2])]
                   [[0; 0]; [1; 0]] 0
                 = Ok ([([0; 0], [1; 2]); ([1; 0], [2])],
                       ([[0; 0]; [1; 0]], [[0; 1; 1]; [0; 0; 1]]%Q)))
    by (vm_compute; reflexivity).
  split; [exact Hrun|].
  destruct (get_batch_target_rows 2 3 [([0; 0], [1; 2]); ([1; 0], [2])]
              [[0; 0]; [1; 0]] 0) as [_ Hrows].
  destruct (Hrows _ _ _ Hrun) as [_ Hrow].
  exact (Hrow 0 [0; 0] eq_refl).
Defined.

(** Discharge the first computation of [c ≫= k = Ok b] with [H]. *)
Ltac step_Ok H :=
  apply rbind_Ok; eexists; split; [exact H | cbn beta].

(** Split a [Forall] over an explicit list into one goal per element. *)
Ltac Forall_explicit :=
  repeat match goal with
  | |- Forall _ (_ :: _) => apply List.Forall_cons
  | |- Forall _ [] => apply List.Forall_nil
  end.

(** ** Runs and their events *)

Section RunFacts.
Context `{Externals}.

Lemma run_bind_events {A B : Type} (c : run A) (k : A → run B) :
  events (c ≫= k)
  = events c ++ match outcome c with
                | Ok a => events (k a)
                | Raise _ => []
                end.
Proof.
  unfold mbind, run_bind. destruct (outcome c); simpl; [done|].
  by rewrite (right_id_L [] (++)).
Qed.

Lemma run_bind_outcome {A B : Type} (c : run A) (k : A → run B) :
  outcome (c ≫= k)
  = match outcome c with
    | Ok a => outcome (k a)
    | Raise e => Raise e
    end.
Proof. unfold mbind, run_bind. by destruct (outcome c). Qed.

Lemma run_bind_outcome_Ok {A B : Type} (c : run A) (k : A → run B) (b : B) :
  outcome (c ≫= k) = Ok b ↔ ∃ a, outcome c = Ok a ∧ outcome (k a) = Ok b.
Proof.
  rewrite run_bind_outcome. destruct (outcome c) as [a|e]; split.
  - intros Hk. by exists a.
  - by intros (a' & [= <-] & Hk).
  - done.
  - by intros (a' & [=] & _).
Qed.


End RunFacts.

(** ** Label smoothing *)

Lemma inject_nat_nonzero (N : nat) :
  0 < N → ¬ (inject_Z (Z.of_nat N) == 0)%Q.
Proof.
  intros HN Heq. unfold Qeq in Heq. simpl in Heq. lia.
Qed.

Lemma smooth_entry_agrees (s : Q) (N : nat) (t : Q) :
  0 < N →
  (smooth_entry s N t == smooth_entry_spec s N t)%Q ↔ (s == 1)%Q.
Proof.
  intros HN. unfold smooth_entry, smooth_entry_spec.
  rewrite Qplus_inj_l. unfold Qdiv. rewrite Qmult_inj_r.
  - split; intros Hs; by rewrite Hs.
  - intros Hinv. apply (inject_nat_nonzero N HN).
    rewrite <- (Qinv_involutive (inject_Z (Z.of_nat N))). by rewrite Hinv.
Qed.

Lemma smooth_targets_Ok (s : Q) (N : nat) (targets : list (list Q)) :
  truthy s = true → 0 < N →
  smooth_targets s N targets = Ok (map (map (smooth_entry s N)) targets).
Proof.
  intros Hs HN. unfold smooth_targets. rewrite Hs.
  by rewrite decide_False by lia.
Qed.

(** C1. What line 167 computes: with a nonzero smoothing factor [s] and
    [N] entities every target [t] becomes [(1 - s) * t + 1 / N]; the
    uniform term is [1 / N], not the [s / N] of the specification, and the
    two agree only for [s = 1].  With [s = 1/10] and [N = 4], in the
    target row [1, 0, 0, 0], the target 1.0 becomes 23/20 (the
    specification gives 37/40) and a target of 0.0 becomes 1/4 (the
    specification gives 1/40). *)
Theorem label_smoothing_uniform_term :
  (∀ s N targets, truthy s = true → 0 < N →
     smooth_targets s N targets = Ok (map (map (smooth_entry s N)) targets))
  ∧ (∀ s N t, 0 < N →
       (smooth_entry s N t == smooth_entry_spec s N t)%Q ↔ (s == 1)%Q)
  ∧ smooth_targets (1 # 10) 4 [[1%Q; 0%Q; 0%Q; 0%Q]]
    = Ok [[smooth_entry (1 # 10) 4 1; smooth_entry (1 # 10) 4 0;
           smooth_entry (1 # 10) 4 0; smooth_entry (1 # 10) 4 0]]
  ∧ (smooth_entry (1 # 10) 4 1 == 23 # 20)%Q
  ∧ (smooth_entry (1 # 10) 4 0 == 1 # 4)%Q
  ∧ (smooth_entry_spec (1 # 10) 4 1 == 37 # 40)%Q
  ∧ (smooth_entry_spec (1 # 10) 4 0 == 1 # 40)%Q
  ∧ ¬ (smooth_entry (1 # 10) 4 1 == smooth_entry_spec (1 # 10) 4 1)%Q
  ∧ ¬ (smooth_entry (1 # 10) 4 0 == smooth_entry_spec (1 # 10) 4 0)%Q.
Proof.
  split_and!.
  - apply smooth_targets_Ok.
  - apply smooth_entry_agrees.
  - reflexivity.
  - reflexivity.
  - reflexivity.
  - reflexivity.
  - reflexivity.
  - rewrite smooth_entry_agrees by lia. discriminate.
  - rewrite smooth_entry_agrees by lia. discriminate.
Qed.

(** ** The epoch loop *)

Section TrainFacts.
Context `{Externals}.
Variables (self : Experiment) (d : Data) (data_dir : string).

Lemma lift_Ok_bind {A B : Type} (a : A) (k : A → run B) :
  lift (Ok a) ≫= k = k a.
Proof. unfold mbind, run_bind, lift. simpl. by destruct (k a). Qed.


Lemma emit_bind_events {B : Type} (e : event) (k : unit → run B) :
  events (emit e ≫= k) = e :: events (k ()).
Proof. done. Qed.

Lemma emit_bind_outcome {B : Type} (e : event) (k : unit → run B) :
  outcome (emit e ≫= k) = outcome (k ()).
Proof. done. Qed.

(** The events of lines 177-184, spelled out. *)
Lemma evaluation_phase_events (it : nat) (st : locals) :
  events (evaluation_phase self d it st)
  = if decide (valid_data d ≠ [] ∧ test_data d ≠ []) then
      EvaluateCall it Valid false false ::
      match evaluate self (build_idxs (entities d)) (build_idxs (relations d))
                     d (model st) false (valid_data d) with
      | Ok (_, ranks, _) =>
          EvaluateDone it Valid ranks ::
          (if decide (it `mod` 2 = 0) then
             EvaluateCall it Test false false ::
             match evaluate self (build_idxs (entities d))
                            (build_idxs (relations d)) d (model st) false
                            (test_data d) with
             | Ok (_, ranks', _) => [EvaluateDone it Test ranks']
             | Raise _ => []
             end
           else [])
      | Raise _ => []
      end
    else [].
Proof.
  unfold evaluation_phase. cbv zeta. case_decide as Hsplits; [|done].
  rewrite emit_bind_events. cbn [training grad_enabled model]. f_equal.
  destruct (evaluate _ _ _ _ _ _ (valid_data d)) as [[[v ranks] hits]|e];
    [|done].
  rewrite lift_Ok_bind, emit_bind_events. f_equal.
  rewrite run_bind_events. case_decide as Heven.
  - rewrite emit_bind_events, emit_bind_outcome.
    destruct (evaluate _ _ _ _ _ _ (test_data d)) as [[[v' ranks'] hits']|e'];
      [|done].
    by rewrite lift_Ok_bind.
  - done.
Qed.

Lemma evaluation_phase_outcome (it : nat) (st st' : locals) :
  outcome (evaluation_phase self d it st) = Ok st' →
  loss_var st' = loss_var st ∧ model st' = model st
  ∧ er_vocab st' = er_vocab st ∧ er_vocab_pairs st' = er_vocab_pairs st
  ∧ (valid_data d ≠ [] ∧ test_data d ≠ [] →
       is_Ok (evaluate self (build_idxs (entities d))
                (build_idxs (relations d)) d (model st) false (valid_data d))
       ∧ (it `mod` 2 = 0 →
            is_Ok (evaluate self (build_idxs (entities d))
                     (build_idxs (relations d)) d (model st) false
                     (test_data d)))).
Proof.
  unfold evaluation_phase. cbv zeta. cbn [training grad_enabled model].
  case_decide as Hsplits.
  - rewrite emit_bind_outcome.
    destruct (evaluate _ _ _ _ _ _ (valid_data d)) as [[[v ranks] hits]|e];
      [|done].
    rewrite lift_Ok_bind, emit_bind_outcome, run_bind_outcome.
    case_decide as Heven.
    + rewrite emit_bind_outcome.
      destruct (evaluate _ _ _ _ _ _ (test_data d))
        as [[[v' ranks'] hits']|e']; [|done].
      rewrite lift_Ok_bind. simpl. intros [= <-]. simpl.
      split_and!; try done. intros _. split; [by eexists|]. intros _.
      by eexists.
    + simpl. intros [= <-]. simpl.
      split_and!; try done. intros _. split; [by eexists | done].
  - simpl. intros [= <-]. by split_and!.
Qed.

Lemma checkpoint_events (st : locals) :
  epoch_losses (events (checkpoint self data_dir st)) = []
  ∧ Forall (λ e, ∀ it s tr g, e ≠ EvaluateCall it s tr g)
           (events (checkpoint self data_dir st))
  ∧ outcome (checkpoint self data_dir st) = Ok ().
Proof.
  split_and!; [done | | done].
  unfold checkpoint. simpl. Forall_explicit; by intros it s tr g.
Qed.

Lemma evaluation_phase_losses (it : nat) (st : locals) :
  epoch_losses (events (evaluation_phase self d it st)) = [].
Proof.
  rewrite evaluation_phase_events.
  repeat (case_decide || case_match); done.
Qed.

(** Lines 151-200: an epoch either raises in its training part, before
    anything is reported, or reports one loss list and goes on to the
    evaluation and the checkpoint. *)
Lemma epoch_unfold (st : locals) (it : nat) :
  (∃ e, epoch self d data_dir st it = Run [] (Raise e))
  ∨ ∃ st3 l,
      loss_var st3 = Some l
      ∧ epoch self d data_dir st it
        = (emit (AvgLoss it [l]);;
           st4 ← evaluation_phase self d it st3;
           checkpoint self data_dir st4;;
           mret st4).
Proof.
  unfold epoch. cbv zeta.
  destruct (shuffle (gen st) (er_vocab_pairs st)) as [gen1 pairs1].
  destruct (range_step (length pairs1) (batch_size self)) as [offsets|e];
    [|left; by exists e].
  rewrite lift_Ok_bind.
  destruct (rfoldl _ _ offsets) as [st2|e]; [|left; by exists e].
  rewrite lift_Ok_bind.
  match goal with
  | |- context [lift (match loss_var ?s with _ => _ end)] =>
      set (st3 := s); destruct (loss_var st3) as [l|] eqn:Hl
  end.
  - right. exists st3, l. split; [done|]. by rewrite lift_Ok_bind.
  - left. by eexists.
Qed.
End TrainFacts.

Section EpochFacts.
Context `{Externals}.
Variables (self : Experiment) (d : Data) (data_dir : string).

Lemma epoch_losses_app (l1 l2 : list event) :
  epoch_losses (l1 ++ l2) = epoch_losses l1 ++ epoch_losses l2.
Proof. apply omap_app. Qed.

(** The tail of an epoch, after its loss has been reported. *)
Lemma epoch_tail_events (it : nat) (st3 : locals) :
  events (st4 ← evaluation_phase self d it st3;
          checkpoint self data_dir st4;; mret st4)
  = events (evaluation_phase self d it st3)
    ++ match outcome (evaluation_phase self d it st3) with
       | Ok st4 => events (checkpoint self data_dir st4)
       | Raise _ => []
       end.
Proof.
  by rewrite run_bind_events.
Qed.

Lemma epoch_tail_outcome (it : nat) (st3 : locals) :
  outcome (st4 ← evaluation_phase self d it st3;
           checkpoint self data_dir st4;; mret st4)
  = outcome (evaluation_phase self d it st3).
Proof.
  rewrite run_bind_outcome.
  by destruct (outcome (evaluation_phase self d it st3)).
Qed.

Lemma epoch_reports_one_loss (st : locals) (it : nat) :
  epoch_losses (events (epoch self d data_dir st it)) = []
  ∨ ∃ l, epoch_losses (events (epoch self d data_dir st it)) = [(it, [l])].
Proof.
  destruct (epoch_unfold self d data_dir st it) as [[e ->] | (st3 & l & _ & ->)];
    [by left|].
  right. exists l. rewrite emit_bind_events, epoch_tail_events. simpl.
  f_equal. rewrite epoch_losses_app, evaluation_phase_losses. simpl.
  destruct (outcome (evaluation_phase self d it st3)); [|done].
  apply checkpoint_events.
Qed.

Lemma evaluation_phase_sound (it : nat) (st : locals) :
  Forall (call_in_schedule d it) (events (evaluation_phase self d it st)).
Proof.
  rewrite evaluation_phase_events. unfold call_in_schedule.
  case_decide as Hsplits; [destruct Hsplits as [Hv Ht] | constructor].
  repeat (case_decide || case_match); Forall_explicit;
    intros it' s tr g [=]; subst; by split_and!.
Qed.

Lemma epoch_sound (st : locals) (it : nat) :
  Forall (call_in_schedule d it) (events (epoch self d data_dir st it)).
Proof.
  destruct (epoch_unfold self d data_dir st it) as [[e ->] | (st3 & l & _ & ->)];
    [constructor|].
  rewrite emit_bind_events, epoch_tail_events.
  constructor; [by intros it' s tr g [=]|].
  apply Forall_app. split; [apply evaluation_phase_sound|].
  destruct (outcome (evaluation_phase self d it st3)); [|constructor].
  unfold checkpoint. simpl. Forall_explicit; by intros it' s tr g [=].
Qed.

Lemma epoch_complete (st st' : locals) (it : nat) :
  outcome (epoch self d data_dir st it) = Ok st' →
  valid_data d ≠ [] → test_data d ≠ [] →
  EvaluateCall it Valid false false ∈ events (epoch self d data_dir st it)
  ∧ (it `mod` 2 = 0 →
       EvaluateCall it Test false false
       ∈ events (epoch self d data_dir st it)).
Proof.
  destruct (epoch_unfold self d data_dir st it) as [[e ->] | (st3 & l & _ & ->)];
    [done|].
  rewrite emit_bind_outcome, epoch_tail_outcome.
  rewrite emit_bind_events, epoch_tail_events.
  intros Hok Hv Ht.
  apply evaluation_phase_outcome in Hok as (_ & _ & _ & _ & Hev).
  destruct Hev as [[[[v ranks] hits] Hvalid] Htest]; [done|].
  rewrite evaluation_phase_events, decide_True, Hvalid by done.
  split.
  - apply elem_of_cons. right. apply elem_of_app. left. left.
  - intros Heven. apply elem_of_cons. right. apply elem_of_app. left.
    rewrite decide_True by done. do 2 right. left.
Qed.
(** The outcome of lines 177-184, spelled out: the first failing
    [evaluate] ends the phase with its exception. *)
Lemma evaluation_phase_outcome_cases (it : nat) (st : locals) :
  outcome (evaluation_phase self d it st)
  = if decide (valid_data d ≠ [] ∧ test_data d ≠ []) then
      match evaluate self (build_idxs (entities d)) (build_idxs (relations d))
                     d (model st) false (valid_data d) with
      | Ok _ =>
          if decide (it `mod` 2 = 0) then
            match evaluate self (build_idxs (entities d))
                           (build_idxs (relations d)) d (model st) false
                           (test_data d) with
            | Ok _ => Ok (Locals (model st) false (grad_enabled st) (gen st)
                                 (er_vocab st) (er_vocab_pairs st)
                                 (loss_var st))
            | Raise e => Raise e
            end
          else Ok (Locals (model st) false (grad_enabled st) (gen st)
                          (er_vocab st) (er_vocab_pairs st) (loss_var st))
      | Raise e => Raise e
      end
    else Ok st.
Proof.
  unfold evaluation_phase. cbv zeta. cbn [training grad_enabled model].
  case_decide as Hsplits; [|done].
  rewrite emit_bind_outcome.
  destruct (evaluate _ _ _ _ _ _ (valid_data d)) as [[[v ranks] hits]|e];
    [|done].
  rewrite lift_Ok_bind, emit_bind_outcome, run_bind_outcome.
  case_decide as Heven; [|done].
  rewrite emit_bind_outcome.
  destruct (evaluate _ _ _ _ _ _ (test_data d)) as [[[v' ranks'] hits']|e'];
    [|done].
  by rewrite lift_Ok_bind.
Qed.

(** Every announced call is the call of [evaluate] on the named split,
    with the announced mode: its ranks are reported, or its exception is
    the outcome. *)
Lemma evaluation_phase_calls (it : nat) (st : locals) (it' : nat) (s : split)
    (tr g : bool) :
  EvaluateCall it' s tr g ∈ events (evaluation_phase self d it st) →
  it' = it
  ∧ match evaluate self (build_idxs (entities d)) (build_idxs (relations d))
                   d (model st) tr (split_data d s) with
    | Ok (_, ranks, _) =>
        EvaluateDone it s ranks ∈ events (evaluation_phase self d it st)
    | Raise e => outcome (evaluation_phase self d it st) = Raise e
    end.
Proof.
  rewrite evaluation_phase_events, evaluation_phase_outcome_cases.
  case_decide as Hsplits; [|by intros ?%elem_of_nil].
  destruct (evaluate _ _ _ _ _ _ (valid_data d))
    as [[[v ranks] hits]|e] eqn:Hvalid.
  - case_decide as Heven.
    + destruct (evaluate _ _ _ _ _ _ (test_data d))
        as [[[v' ranks'] hits']|e'] eqn:Htest;
        intros Hin; repeat (apply elem_of_cons in Hin as [[=]|Hin]);
        try (by apply elem_of_nil in Hin); subst; simpl;
        rewrite ?Hvalid, ?Htest; (split; [done|]); try done;
        apply list_elem_of_In; simpl; auto 10.
    + intros Hin; repeat (apply elem_of_cons in Hin as [[=]|Hin]);
        try (by apply elem_of_nil in Hin); subst; simpl;
        rewrite ?Hvalid; (split; [done|]);
        apply list_elem_of_In; simpl; auto 10.
  - intros Hin; repeat (apply elem_of_cons in Hin as [[=]|Hin]);
      try (by apply elem_of_nil in Hin); subst; simpl;
      rewrite ?Hvalid; by split.
Qed.

(** Every reported rank list is the result of [evaluate] on the named
    split in inference mode, and was announced. *)
Lemma evaluation_phase_dones (it : nat) (st : locals) (it' : nat) (s : split)
    (ranks : list nat) :
  EvaluateDone it' s ranks ∈ events (evaluation_phase self d it st) →
  it' = it
  ∧ EvaluateCall it s false false ∈ events (evaluation_phase self d it st)
  ∧ ∃ v' hits,
      evaluate self (build_idxs (entities d)) (build_idxs (relations d))
               d (model st) false (split_data d s)
      = Ok (v', ranks, hits).
Proof.
  rewrite evaluation_phase_events.
  case_decide as Hsplits; [|by intros ?%elem_of_nil].
  destruct (evaluate _ _ _ _ _ _ (valid_data d))
    as [[[v ranks0] hits]|e] eqn:Hvalid.
  - case_decide as Heven.
    + destruct (evaluate _ _ _ _ _ _ (test_data d))
        as [[[v' ranks'] hits']|e'] eqn:Htest;
        intros Hin; repeat (apply elem_of_cons in Hin as [[=]|Hin]);
        try (by apply elem_of_nil in Hin); subst; simpl;
        (split_and!; [done | apply list_elem_of_In; simpl; auto 10
                    | by eexists _, _]).
    + intros Hin; repeat (apply elem_of_cons in Hin as [[=]|Hin]);
        try (by apply elem_of_nil in Hin); subst; simpl;
        (split_and!; [done | apply list_elem_of_In; simpl; auto 10
                    | by eexists _, _]).
  - intros Hin; repeat (apply elem_of_cons in Hin as [[=]|Hin]);
      by apply elem_of_nil in Hin.
Qed.

Lemma checkpoint_no_evaluation (st : locals) (e : event) :
  e ∈ events (checkpoint self data_dir st) →
  (∀ it s tr g, e ≠ EvaluateCall it s tr g)
  ∧ (∀ it s ranks, e ≠ EvaluateDone it s ranks).
Proof.
  unfold checkpoint. cbv zeta. rewrite !emit_bind_events.
  intros Hin. repeat (apply elem_of_cons in Hin as [->|Hin]);
    [by split .. | by apply elem_of_nil in Hin].
Qed.

Lemma epoch_calls (st : locals) (it it' : nat) (s : split) (tr g : bool) :
  EvaluateCall it' s tr g ∈ events (epoch self d data_dir st it) →
  it' = it
  ∧ ∃ mdl,
      match evaluate self (build_idxs (entities d)) (build_idxs (relations d))
                     d mdl tr (split_data d s) with
      | Ok (_, ranks, _) =>
          EvaluateDone it s ranks ∈ events (epoch self d data_dir st it)
      | Raise e => outcome (epoch self d data_dir st it) = Raise e
      end.
Proof.
  destruct (epoch_unfold self d data_dir st it) as [[e ->] | (st3 & l & _ & ->)];
    [by intros ?%elem_of_nil|].
  rewrite emit_bind_outcome, epoch_tail_outcome.
  rewrite emit_bind_events, epoch_tail_events.
  intros [[=] | [Hin|Hin]%elem_of_app]%elem_of_cons.
  - apply evaluation_phase_calls in Hin as [-> Hcall]. split; [done|].
    exists (model st3).
    destruct (evaluate _ _ _ _ _ _ _) as [[[v ranks] hits]|e]; [|done].
    apply elem_of_cons. right. apply elem_of_app. by left.
  - destruct (outcome (evaluation_phase self d it st3)) as [st4|];
      [|by apply elem_of_nil in Hin].
    apply checkpoint_no_evaluation in Hin as [Hcall _].
    by destruct (Hcall it' s tr g).
Qed.

Lemma epoch_dones (st : locals) (it it' : nat) (s : split)
    (ranks : list nat) :
  EvaluateDone it' s ranks ∈ events (epoch self d data_dir st it) →
  it' = it
  ∧ EvaluateCall it s false false ∈ events (epoch self d data_dir st it)
  ∧ ∃ mdl v' hits,
      evaluate self (build_idxs (entities d)) (build_idxs (relations d))
               d mdl false (split_data d s)
      = Ok (v', ranks, hits).
Proof.
  destruct (epoch_unfold self d data_dir st it) as [[e ->] | (st3 & l & _ & ->)];
    [by intros ?%elem_of_nil|].
  rewrite emit_bind_events, epoch_tail_events.
  intros [[=] | [Hin|Hin]%elem_of_app]%elem_of_cons.
  - apply evaluation_phase_dones in Hin as (-> & Hcall & v' & hits & Hev).
    split_and!; [done | | by exists (model st3), v', hits].
    apply elem_of_cons. right. apply elem_of_app. by left.
  - destruct (outcome (evaluation_phase self d it st3)) as [st4|];
      [|by apply elem_of_nil in Hin].
    apply checkpoint_no_evaluation in Hin as [_ Hdone].
    by destruct (Hdone it' s ranks).
Qed.
End EpochFacts.

(** ** The whole run *)

Section RunFoldFacts.
Context `{Externals}.

Lemma run_foldl_Ok_inv {A B : Type} (f : B → A → run B) (l : list A)
    (b b' : B) :
  outcome (run_foldl f b l) = Ok b' →
  ∀ x, x ∈ l →
    ∃ b0 b1, outcome (f b0 x) = Ok b1
             ∧ events (f b0 x) ⊆ events (run_foldl f b l).
Proof.
  revert b. induction l as [|y l IH]; intros b Hok x Hx.
  { by apply elem_of_nil in Hx. }
  simpl in *. rewrite run_bind_events.
  apply run_bind_outcome_Ok in Hok as (b1 & Hy & Hrest). rewrite Hy.
  apply elem_of_cons in Hx as [->|Hx].
  - exists b, b1. split; [done|]. intros e He. apply elem_of_app. by left.
  - destruct (IH _ Hrest x Hx) as (b0 & b2 & Hx0 & Hsub).
    exists b0, b2. split; [done|]. intros e He. apply elem_of_app. right.
    by apply Hsub.
Qed.

Lemma run_foldl_events_In {A B : Type} (f : B → A → run B) (l : list A)
    (b : B) (e : event) :
  e ∈ events (run_foldl f b l) → ∃ b0 x, x ∈ l ∧ e ∈ events (f b0 x).
Proof.
  revert b. induction l as [|y l IH]; intros b; simpl.
  { by intros ?%elem_of_nil. }
  rewrite run_bind_events. intros [He|He]%elem_of_app.
  - exists b, y. split; [left | done].
  - destruct (outcome (f b y)) as [b1|]; [|by apply elem_of_nil in He].
    destruct (IH _ He) as (b0 & x & Hx & Hin). exists b0, x.
    split; [by right | done].
Qed.

Lemma epoch_losses_run_foldl {A B : Type} (f : B → A → run B) (l : list A)
    (b : B) (P : nat * list Q → Prop) :
  (∀ b x, Forall P (epoch_losses (events (f b x)))) →
  Forall P (epoch_losses (events (run_foldl f b l))).
Proof.
  intros Hf. revert b. induction l as [|y l IH]; intros b; simpl.
  { constructor. }
  rewrite run_bind_events. unfold epoch_losses at 1. rewrite omap_app.
  apply Forall_app. split; [apply Hf|].
  destruct (outcome (f b y)); [apply IH | constructor].
Qed.

(** An event of a loop belongs to one of its iterations, whose events
    are all kept and whose exception, if any, is that of the loop. *)
Lemma run_foldl_events_step {A B : Type} (f : B → A → run B) (l : list A)
    (b : B) (e : event) :
  e ∈ events (run_foldl f b l) →
  ∃ b0 x, x ∈ l ∧ e ∈ events (f b0 x)
          ∧ events (f b0 x) ⊆ events (run_foldl f b l)
          ∧ ∀ err, outcome (f b0 x) = Raise err →
                   outcome (run_foldl f b l) = Raise err.
Proof.
  revert b. induction l as [|y l IH]; intros b; simpl.
  { by intros ?%elem_of_nil. }
  rewrite run_bind_events, run_bind_outcome. intros [He|He]%elem_of_app.
  - exists b, y. split_and!; [left | done | |].
    + intros e' He'. apply elem_of_app. by left.
    + intros err Herr. by rewrite Herr.
  - destruct (outcome (f b y)) as [b1|]; [|by apply elem_of_nil in He].
    destruct (IH _ He) as (b0 & x & Hx & Hin & Hsub & Herr).
    exists b0, x. split_and!; [by right | done | | done].
    intros e' He'. apply elem_of_app. right. by apply Hsub.
Qed.
End RunFoldFacts.

Lemma select_model_None (name : string) :
  select_model name = None ↔ lower name ∉ known_names.
Proof.
  unfold select_model, known_names. rewrite !not_elem_of_cons.
  repeat case_decide; split; try done.
  - intros (Hn & _). done.
  - intros (_ & Hn & _). done.
  - intros (_ & _ & Hn & _). done.
  - intros (_ & _ & _ & Hn & _). done.
  - intros (_ & _ & _ & _ & Hn & _). done.
  - intros _. split_and!; try done. apply not_elem_of_nil.
Qed.

Section WholeRun.
Context `{Externals}.
Variables (self : Experiment) (d : Data) (data_dir : string) (gen0 : rng).

(** Lines 115-150: a run stops on a training triple that does not index,
    or after the two index files on an unknown architecture name, or
    enters the epoch loop. *)
Lemma train_and_eval_unfold :
  (∃ e, get_data_idxs (build_idxs (entities d)) (build_idxs (relations d))
          (train_data d) = Raise e
        ∧ train_and_eval self d data_dir gen0 = Run [] (Raise e))
  ∨ (is_Ok (get_data_idxs (build_idxs (entities d))
              (build_idxs (relations d)) (train_data d))
     ∧ select_model (model_name self) = None
     ∧ train_and_eval self d data_dir gen0
       = Run [SavedKeys (data_dir +:+ "/entities.npy")
                        (build_idxs (entities d));
              SavedKeys (data_dir +:+ "/relations.npy")
                        (build_idxs (relations d))]
             (Raise (UnboundLocalError "model")))
  ∨ (∃ st0,
       is_Some (select_model (model_name self))
       ∧ events (train_and_eval self d data_dir gen0)
         = [SavedKeys (data_dir +:+ "/entities.npy") (build_idxs (entities d));
            SavedKeys (data_dir +:+ "/relations.npy")
                      (build_idxs (relations d))]
           ++ events (run_foldl (epoch self d data_dir) st0
                                (seq 1 (num_iterations self)))
       ∧ (is_Ok (outcome (train_and_eval self d data_dir gen0))
          → is_Ok (outcome (run_foldl (epoch self d data_dir) st0
                                       (seq 1 (num_iterations self)))))).
Proof.
  unfold train_and_eval. cbv zeta.
  destruct (get_data_idxs _ _ (train_data d)) as [idxs|e] eqn:Hidx.
  2:{ left. by exists e. }
  right. rewrite lift_Ok_bind.
  destruct (select_model (model_name self)) as [v|] eqn:Hsel.
  2:{ left. split_and!; [by eexists | done | done]. }
  right. eexists. split; [by eexists|].
  rewrite !emit_bind_events, !emit_bind_outcome, lift_Ok_bind.
  rewrite run_bind_events, run_bind_outcome. split.
  - simpl. do 2 f_equal.
    match goal with
    | |- ?l ++ match ?o with _ => _ end = _ => by destruct o; rewrite (right_id_L [] (++))
    end.
  - match goal with
    | |- is_Ok (match ?o with _ => _ end) → _ =>
        destruct o as [st|e]; [by eexists | by intros [? [=]]]
    end.
Qed.
(** An evaluation event of a run belongs to one of its epochs. *)
Lemma train_and_eval_epoch_event (e : event) :
  e ∈ events (train_and_eval self d data_dir gen0) →
  (∃ p m, e = SavedKeys p m)
  ∨ ∃ st it,
      1 ≤ it ≤ num_iterations self
      ∧ e ∈ events (epoch self d data_dir st it)
      ∧ events (epoch self d data_dir st it)
        ⊆ events (train_and_eval self d data_dir gen0)
      ∧ ∀ err, outcome (epoch self d data_dir st it) = Raise err →
               outcome (train_and_eval self d data_dir gen0) = Raise err.
Proof.
  unfold train_and_eval. cbv zeta.
  destruct (get_data_idxs _ _ (train_data d)) as [idxs|e0] eqn:Hidx.
  2:{ by intros ?%elem_of_nil. }
  rewrite lift_Ok_bind.
  destruct (select_model (model_name self)) as [v|] eqn:Hsel.
  2:{ intros Hin. left. simpl in Hin.
      repeat (apply elem_of_cons in Hin as [->|Hin]);
        [by eexists _, _ .. | by apply elem_of_nil in Hin]. }
  rewrite !emit_bind_events, !emit_bind_outcome, lift_Ok_bind.
  rewrite run_bind_events, run_bind_outcome.
  intros [->|[->|Hin]%elem_of_cons]%elem_of_cons; [left; by eexists _, _ ..|].
  apply elem_of_app in Hin as [Hin|Hin].
  2:{ destruct (outcome (run_foldl _ _ _)); by apply elem_of_nil in Hin. }
  apply run_foldl_events_step in Hin
    as (st & it & Hit%elem_of_seq & Hin & Hsub & Herr).
  right. exists st, it. split; [lia|]. split_and!; [done | |].
  - intros e' He'. do 2 (apply elem_of_cons; right).
    apply elem_of_app. left. by apply Hsub.
  - intros err Hraise. by rewrite (Herr err Hraise).
Qed.
End WholeRun.

(** C3. An epoch reports a single loss, that of its last batch, however
    many batches it has processed: line 174 appends to [losses] after the
    batch loop, not inside it.  On the three-key training split of the
    small instance with batch size 1 each epoch runs the three batches
    at offsets 0, 1, 2 and its loss list has one entry, not three. *)
Theorem epoch_records_single_loss :
  (∀ (ext : Externals) self d data_dir st it,
     Forall (λ x, x.1 = it ∧ length x.2 = 1)
            (epoch_losses (events (epoch self d data_dir st it))))
  ∧ (∀ (ext : Externals) self d data_dir gen0,
       Forall (λ x, length x.2 = 1)
              (epoch_losses (events (train_and_eval self d data_dir gen0))))
  ∧ get_data_idxs (build_idxs (entities toy_data))
                  (build_idxs (relations toy_data)) (train_data toy_data)
    = Ok [(0, 0, 1); (1, 0, 2); (2, 0, 0)]
  ∧ vocab_keys (get_er_vocab [(0, 0, 1); (1, 0, 2); (2, 0, 0)])
    = [[0; 0]; [1; 0]; [2; 0]]
  ∧ range_step 3 1 = Ok [0; 1; 2]
  ∧ div_ceil 3 1 = 3
  ∧ epoch_losses
      (events (train_and_eval (toy_experiment "HypER" 1) toy_data "data" toy_gen))
    = [(1, [1%Q]); (2, [1%Q])].
Proof.
  assert (Hepoch : ∀ (ext : Externals) self d data_dir st it,
     Forall (λ x, x.1 = it ∧ length x.2 = 1)
            (epoch_losses (events (epoch self d data_dir st it)))).
  { intros ext self d data_dir st it.
    destruct (epoch_reports_one_loss self d data_dir st it) as [-> | [l ->]].
    - constructor.
    - by repeat constructor. }
  split_and!; [done | | by vm_compute..].
  intros ext self d data_dir gen0.
  destruct (train_and_eval_unfold self d data_dir gen0)
    as [(e & _ & ->) | [(_ & _ & ->) | (st0 & _ & -> & _)]];
    [constructor | constructor |].
  rewrite epoch_losses_app. simpl.
  apply epoch_losses_run_foldl. intros b x.
  eapply Forall_impl; [apply Hepoch|]. by intros ? [_ ?].
Qed.

(** C9, as the code has it.  A run whose architecture name is not one of
    the five known ones (compared in lower case) raises; it constructs no
    model, enters no epoch and writes no model state or embedding: the
    only events it leaves are index files.  When the training triples
    index without error, the two index mapping files have been written by
    then, and the exception is the unbound local [model] of line 134. *)
Theorem unknown_model_stops_after_index_files `{Externals}
    (self : Experiment) (d : Data) (data_dir : string) (gen0 : rng) :
  lower (model_name self) ∉ known_names →
  let r := train_and_eval self d data_dir gen0 in
  (∃ e, outcome r = Raise e)
  ∧ Forall is_index_file (events r)
  ∧ (is_Ok (get_data_idxs (build_idxs (entities d))
              (build_idxs (relations d)) (train_data d)) →
     outcome r = Raise (UnboundLocalError "model")
     ∧ written (events r)
       = [data_dir +:+ "/entities.npy"; data_dir +:+ "/relations.npy"])
  ∧ (∀ e, get_data_idxs (build_idxs (entities d))
            (build_idxs (relations d)) (train_data d) = Raise e →
       outcome r = Raise e ∧ events r = []).
Proof.
  intros Hname%select_model_None r. subst r.
  destruct (train_and_eval_unfold self d data_dir gen0)
    as [(e & Hidx & ->) | [(Hidx & _ & ->) | (st0 & Hsel & _)]].
  - split_and!; simpl.
    + by exists e.
    + constructor.
    + intros [idxs Hok]. by rewrite Hok in Hidx.
    + intros e' He'. rewrite He' in Hidx. by injection Hidx as ->.
  - split_and!; simpl.
    + by eexists.
    + by repeat constructor.
    + done.
    + intros e He. destruct Hidx as [idxs Hok]. by rewrite Hok in He.
  - rewrite Hname in Hsel. by destruct Hsel.
Qed.

Lemma unknown_model_stops_after_index_files_witness :
  (lower "foo" ∉ known_names)
  ∧ Forall is_index_file
      (events (train_and_eval (toy_experiment "foo" 2) toy_data "data" toy_gen)).
Proof.
  assert (Hname : lower (model_name (toy_experiment "foo" 2)) ∉ known_names).
  { apply select_model_None. vm_compute. reflexivity. }
  split; [exact Hname|].
  destruct (unknown_model_stops_after_index_files
              (toy_experiment "foo" 2) toy_data "data" toy_gen Hname)
    as (_ & Hev & _).
  exact Hev.
Defined.

(** C9, as stated, fails: the name ["foo"] is none of the five, the run
    raises, and by then two artifacts are on storage. *)
Lemma unknown_model_has_written_index_files :
  (lower "foo" ∉ known_names)
  ∧ outcome (train_and_eval (toy_experiment "foo" 2) toy_data "data" toy_gen)
    = Raise (UnboundLocalError "model")
  ∧ written (events (train_and_eval (toy_experiment "foo" 2) toy_data
                                    "data" toy_gen))
    = ["data/entities.npy"; "data/relations.npy"]
  ∧ ¬ (written (events (train_and_eval (toy_experiment "foo" 2) toy_data
                                       "data" toy_gen)) = []).
Proof.
  split_and!.
  - apply select_model_None. vm_compute. reflexivity.
  - vm_compute. reflexivity.
  - vm_compute. reflexivity.
  - vm_compute. discriminate.
Qed.

(** C7. In a run of [train_and_eval], every call of [evaluate] belongs to
    an epoch [it] of [1..N], is made only when both the validation and
    the test split are non-empty, with the model in eval mode and
    gradient tracking off, and a call on the test split only in an even
    epoch; and in a run that completes, every epoch [it] of [1..N] with
    both splits non-empty calls [evaluate] on the validation split, and
    on the test split as well when [it] is even.  The events are those of
    the calls themselves: an announced call is the call of [evaluate] on
    the announced split with the announced mode as its training argument,
    whose ranks are then reported for that epoch and split, or whose
    exception is the outcome of the run; every reported rank list is
    the result of [evaluate] in inference mode on the split it is
    reported for, in an epoch that announced it; and in a run that
    completes, every epoch of [1..N] with both splits non-empty reports
    the ranks that [evaluate] returned in inference mode on the
    validation split, and, when [it] is even, on the test split. *)
Theorem evaluation_schedule `{Externals}
    (self : Experiment) (d : Data) (data_dir : string) (gen0 : rng) :
  (∀ it s tr g,
     EvaluateCall it s tr g ∈ events (train_and_eval self d data_dir gen0) →
     1 ≤ it ≤ num_iterations self
     ∧ valid_data d ≠ [] ∧ test_data d ≠ []
     ∧ tr = false ∧ g = false ∧ (s = Test → it `mod` 2 = 0))
  ∧ (is_Ok (outcome (train_and_eval self d data_dir gen0)) →
     ∀ it, 1 ≤ it ≤ num_iterations self →
       valid_data d ≠ [] → test_data d ≠ [] →
       EvaluateCall it Valid false false
       ∈ events (train_and_eval self d data_dir gen0)
       ∧ (it `mod` 2 = 0 →
            EvaluateCall it Test false false
            ∈ events (train_and_eval self d data_dir gen0)))
  ∧ (∀ it s tr g,
       EvaluateCall it s tr g ∈ events (train_and_eval self d data_dir gen0) →
       ∃ mdl,
         match evaluate self (build_idxs (entities d))
                        (build_idxs (relations d)) d mdl tr (split_data d s)
         with
         | Ok (_, ranks, _) =>
             EvaluateDone it s ranks
             ∈ events (train_and_eval self d data_dir gen0)
         | Raise e => outcome (train_and_eval self d data_dir gen0) = Raise e
         end)
  ∧ (∀ it s ranks,
       EvaluateDone it s ranks ∈ events (train_and_eval self d data_dir gen0) →
       EvaluateCall it s false false
       ∈ events (train_and_eval self d data_dir gen0)
       ∧ ∃ mdl v' hits,
           evaluate self (build_idxs (entities d)) (build_idxs (relations d))
                    d mdl false (split_data d s)
           = Ok (v', ranks, hits))
  ∧ (is_Ok (outcome (train_and_eval self d data_dir gen0)) →
     ∀ it s, 1 ≤ it ≤ num_iterations self →
       valid_data d ≠ [] → test_data d ≠ [] →
       (s = Test → it `mod` 2 = 0) →
       ∃ mdl v' ranks hits,
         evaluate self (build_idxs (entities d)) (build_idxs (relations d))
                  d mdl false (split_data d s)
         = Ok (v', ranks, hits)
         ∧ EvaluateDone it s ranks
           ∈ events (train_and_eval self d data_dir gen0)).
Proof.
  assert (Hrun : is_Ok (outcome (train_and_eval self d data_dir gen0)) →
     ∀ it, 1 ≤ it ≤ num_iterations self →
       valid_data d ≠ [] → test_data d ≠ [] →
       EvaluateCall it Valid false false
       ∈ events (train_and_eval self d data_dir gen0)
       ∧ (it `mod` 2 = 0 →
            EvaluateCall it Test false false
            ∈ events (train_and_eval self d data_dir gen0))).
  { destruct (train_and_eval_unfold self d data_dir gen0)
      as [(e & _ & ->) | [(_ & _ & ->) | (st0 & _ & -> & Hout)]];
      [by intros [? [=]] | by intros [? [=]] |].
    intros Hok it Hit Hv Ht. apply Hout in Hok as [st' Hok].
    destruct (run_foldl_Ok_inv _ _ _ _ Hok it) as (b0 & b1 & Hep & Hsub).
    { apply elem_of_seq. lia. }
    destruct (epoch_complete self d data_dir b0 b1 it Hep Hv Ht)
      as [Hvalid Htest].
    split.
    + apply elem_of_app. right. by apply Hsub.
    + intros Heven. apply elem_of_app. right. by apply Hsub, Htest. }
  assert (Hcalls : ∀ it s tr g,
       EvaluateCall it s tr g ∈ events (train_and_eval self d data_dir gen0) →
       ∃ mdl,
         match evaluate self (build_idxs (entities d))
                        (build_idxs (relations d)) d mdl tr (split_data d s)
         with
         | Ok (_, ranks, _) =>
             EvaluateDone it s ranks
             ∈ events (train_and_eval self d data_dir gen0)
         | Raise e => outcome (train_and_eval self d data_dir gen0) = Raise e
         end).
  { intros it s tr g Hin.
    apply train_and_eval_epoch_event in Hin
      as [(p & m & [=]) | (st & it0 & _ & Hin & Hsub & Herr)].
    apply epoch_calls in Hin as (-> & mdl & Hcall). exists mdl.
    destruct (evaluate _ _ _ _ _ _ _) as [[[v ranks] hits]|e].
    + by apply Hsub.
    + by apply Herr. }
  split_and!; [| exact Hrun | exact Hcalls | |].
  - destruct (train_and_eval_unfold self d data_dir gen0)
      as [(e & _ & ->) | [(_ & _ & ->) | (st0 & _ & -> & Hout)]].
    + by intros it s tr g ?%elem_of_nil.
    + intros it s tr g Hin. simpl in Hin.
      repeat (apply elem_of_cons in Hin as [[=]|Hin]).
      by apply elem_of_nil in Hin.
    + intros it s tr g [Hin|Hin]%elem_of_app.
      { repeat (apply elem_of_cons in Hin as [[=]|Hin]).
        by apply elem_of_nil in Hin. }
      apply run_foldl_events_In in Hin as (b0 & x & Hx%elem_of_seq & Hin).
      pose proof (epoch_sound self d data_dir b0 x) as Hs.
      rewrite Forall_forall in Hs.
      destruct (Hs _ Hin it s tr g eq_refl) as (-> & Hrest).
      split; [lia | done].
  - intros it s ranks Hin.
    apply train_and_eval_epoch_event in Hin
      as [(p & m & [=]) | (st & it0 & _ & Hin & Hsub & _)].
    apply epoch_dones in Hin as (-> & Hcall & Hev).
    split; [by apply Hsub | done].
  - intros Hok it s Hit Hv Ht Hs.
    destruct (Hrun Hok it Hit Hv Ht) as [Hvalid Htest].
    assert (Hcall : EvaluateCall it s false false
                    ∈ events (train_and_eval self d data_dir gen0)).
    { destruct s; [done | by apply Htest, Hs]. }
    destruct (Hcalls it s false false Hcall) as [mdl Hev].
    destruct (evaluate _ _ _ _ _ _ _) as [[[v ranks] hits]|e] eqn:Heval.
    + by exists mdl, v, ranks, hits.
    + destruct Hok as [u Hu]. congruence.
Qed.

Lemma evaluation_schedule_witness :
  is_Ok (outcome (train_and_eval (toy_experiment "HypER" 2) toy_data
                                 "data" toy_gen))
  ∧ EvaluateCall 2 Valid false false
    ∈ events (train_and_eval (toy_experiment "HypER" 2) toy_data "data" toy_gen)
  ∧ EvaluateCall 2 Test false false
    ∈ events (train_and_eval (toy_experiment "HypER" 2) toy_data "data" toy_gen)
  ∧ ∃ mdl,
      match evaluate (toy_experiment "HypER" 2)
                     (build_idxs (entities toy_data))
                     (build_idxs (relations toy_data)) toy_data mdl false
                     (split_data toy_data Test) with
      | Ok (_, ranks, _) =>
          EvaluateDone 2 Test ranks
          ∈ events (train_and_eval (toy_experiment "HypER" 2) toy_data
                                   "data" toy_gen)
      | Raise e =>
          outcome (train_and_eval (toy_experiment "HypER" 2) toy_data
                                  "data" toy_gen) = Raise e
      end.
Proof.
  assert (Hok : is_Ok (outcome (train_and_eval (toy_experiment "HypER" 2)
                                               toy_data "data" toy_gen))).
  { exists tt. vm_compute. reflexivity. }
  split; [exact Hok|].
  destruct (evaluation_schedule (toy_experiment "HypER" 2) toy_data "data" toy_gen)
    as (_ & Hrun & Hcall & _).
  destruct (Hrun Hok 2) as [Hvalid Htest];
    [simpl; lia | discriminate | discriminate |].
  split; [exact Hvalid|]. split; [exact (Htest eq_refl)|].
  exact (Hcall 2 Test false false (Htest eq_refl)).
Defined.

(** ** Loops in the error monad *)

Lemma rfoldl_app {A B : Type} (f : B → A → result B) (b : B) (l1 l2 : list A) :
  rfoldl f b (l1 ++ l2) = rfoldl f b l1 ≫= λ b', rfoldl f b' l2.
Proof.
  revert b. induction l1 as [|x l1 IH]; intros b; simpl; [done|].
  destruct (f b x) as [b1|e]; simpl; [apply IH | done].
Qed.

(** An invariant of the loop that may mention the elements already
    processed. *)
Lemma rfoldl_invariant {A B : Type} (P : list A → B → Prop)
    (f : B → A → result B) (l : list A) (b b' : B) :
  P [] b →
  (∀ pre x b1 b2, pre ++ [x] `prefix_of` l →
     P pre b1 → f b1 x = Ok b2 → P (pre ++ [x]) b2) →
  rfoldl f b l = Ok b' → P l b'.
Proof.
  revert b b'. induction l as [|x l IH] using rev_ind; intros b b' H0 Hstep.
  - by intros [= <-].
  - rewrite rfoldl_app. intros Hb. apply rbind_Ok in Hb as (b1 & Hl & Hx).
    simpl in Hx. apply rbind_Ok in Hx as (b2 & Hx & [= <-]).
    apply (Hstep l x b1 b2); [done | | done].
    apply (IH b b1); [done | | done].
    intros pre y c1 c2 Hpre. apply Hstep.
    etransitivity; [exact Hpre|]. by apply prefix_app_r.
Qed.

(** A loop whose body succeeds under an invariant succeeds. *)
Lemma rfoldl_total {A B : Type} (P : list A → B → Prop)
    (f : B → A → result B) (l : list A) (b : B) :
  P [] b →
  (∀ pre x b1, pre ++ [x] `prefix_of` l → P pre b1 →
     ∃ b2, f b1 x = Ok b2 ∧ P (pre ++ [x]) b2) →
  ∃ b', rfoldl f b l = Ok b' ∧ P l b'.
Proof.
  revert b. induction l as [|x l IH] using rev_ind; intros b H0 Hstep.
  - by exists b.
  - destruct (IH b H0) as (b1 & Hl & HP).
    { intros pre y c1 Hpre. apply Hstep.
      etransitivity; [exact Hpre|]. by apply prefix_app_r. }
    destruct (Hstep l x b1) as (b2 & Hx & HP2); [done | done |].
    exists b2. split; [|done]. rewrite rfoldl_app, Hl. simpl. by rewrite Hx.
Qed.

(** ** Keys of the built vocabulary *)

Lemma vocab_store_keys (k : key) (v : list nat) (m : vocab) :
  (vocab_store k v m).*1 = m.*1.
Proof.
  induction m as [|[k' v'] m IH]; [done|]. cbn [vocab_store].
  case_decide; csimpl; [done | by rewrite IH].
Qed.

Lemma get_er_vocab_keys (dat : list idx_triple) :
  Forall (λ k, length k = 2) (vocab_keys (get_er_vocab dat)).
Proof.
  unfold get_er_vocab, vocab_keys.
  assert (Hgen : ∀ m : vocab, Forall (λ k, length k = 2) m.*1 →
            Forall (λ k, length k = 2)
              (foldl (λ m tr, vocab_append m [tr.1.1; tr.1.2] tr.2) m dat).*1).
  { induction dat as [|tr dat IH]; intros m Hm; simpl; [done|].
    apply IH. unfold vocab_append, vocab_getitem.
    destruct (vocab_lookup _ m); rewrite vocab_store_keys; [done|].
    rewrite fmap_app. apply Forall_app. split; [done|]. by repeat constructor. }
  by apply Hgen.
Qed.

Lemma vocab_lookup_Some_key (k : key) (m : vocab) (v : list nat) :
  vocab_lookup k m = Some v → k ∈ vocab_keys m.
Proof.
  unfold vocab_keys. induction m as [|[k' v'] m IH]; simpl; [done|].
  case_decide as Hk; [intros _; subst; left | intros Hm; right; by apply IH].
Qed.

(** An indexed triple, taken whole as a key, is not a key of the built
    vocabulary. *)
Lemma get_er_vocab_no_triple (dat : list idx_triple) (tr : idx_triple) :
  vocab_lookup (tuple3 tr) (get_er_vocab dat) = None.
Proof.
  destruct (vocab_lookup _ _) as [v|] eqn:Hm; [|done].
  apply vocab_lookup_Some_key in Hm.
  pose proof (get_er_vocab_keys dat) as Hk. rewrite Forall_forall in Hk.
  by apply Hk in Hm.
Qed.

Lemma vocab_extends_absent (m m' : vocab) (k : key) :
  vocab_extends m m' → vocab_lookup k m = None →
  vocab_lookup k m' = None ∨ vocab_lookup k m' = Some [].
Proof.
  intros [_ Hget] Hm. specialize (Hget k). unfold vocab_get in Hget.
  rewrite Hm in Hget. destruct (vocab_lookup k m') as [v|]; [|by left].
  right. simpl in Hget. by rewrite Hget.
Qed.

Lemma vocab_extends_get_absent (m m' : vocab) (k : key) :
  vocab_extends m m' → vocab_lookup k m = None → vocab_get m' k = [].
Proof.
  intros [_ Hget] Hm. rewrite Hget. unfold vocab_get. by rewrite Hm.
Qed.

(** ** Missing keys *)

Lemma get_batch_absent_row (B N : nat) (m m' : vocab) (keys batch : list key)
    (idx j : nat) (targets : list (list Q)) (k : key) :
  get_batch B N m keys idx = Ok (m', (batch, targets)) →
  batch !! j = Some k → vocab_lookup k m = None →
  targets !! j = Some (replicate N 0%Q)
  ∧ vocab_lookup k m' = Some [] ∧ vocab_lookup k m' ≠ vocab_lookup k m.
Proof.
  intros (_ & -> & Hext & Hin & _)%get_batch_Ok Hj Hm.
  assert (Hk' : vocab_lookup k m' = Some []).
  { rewrite Forall_forall in Hin.
    destruct (Hin k) as [v Hv]; [by eapply list_elem_of_lookup_2|].
    destruct (vocab_extends_absent _ _ _ Hext Hm) as [Hn|Hs]; [|done].
    by rewrite Hn in Hv. }
  split_and!; [| done | by rewrite Hk', Hm].
  rewrite list_lookup_fmap, Hj. simpl. unfold vocab_get. rewrite Hm. simpl.
  by rewrite indicator_row_nil.
Qed.

Lemma get_batch_absent_total (B N : nat) (m : vocab) (keys : list key)
    (idx : nat) :
  Forall (λ k, vocab_lookup k m = None ∨ Forall (λ t, t < N) (vocab_get m k))
         (take B (drop idx keys)) →
  is_Ok (get_batch B N m keys idx).
Proof.
  intros Hb. apply get_batch_total. eapply Forall_impl; [exact Hb|].
  intros k [Hk|Hk]; [|done]. unfold vocab_get. rewrite Hk. constructor.
Qed.

(** [get_batch] on keys that are all missing: zeros, and no exception. *)
Lemma get_batch_all_absent (B N : nat) (m m0 : vocab) (keys : list key)
    (idx : nat) :
  vocab_extends m0 m → Forall (λ k, vocab_lookup k m0 = None) keys →
  ∃ m', get_batch B N m keys idx
        = Ok (m', (take B (drop idx keys),
                   replicate (length (take B (drop idx keys)))
                             (replicate N 0%Q)))
        ∧ vocab_extends m0 m'
        ∧ Forall (λ k, vocab_lookup k m' = Some []) (take B (drop idx keys)).
Proof.
  intros Hext Habs.
  assert (Hbatch : Forall (λ k, vocab_lookup k m0 = None)
                          (take B (drop idx keys))).
  { rewrite Forall_forall in *. intros k Hk. apply Habs.
    by eapply subseteq_drop, subseteq_take. }
  destruct (get_batch_total B N m keys idx) as [[m' [batch targets]] Hget].
  { eapply Forall_impl; [exact Hbatch|]. intros k Hk. simpl.
    rewrite (vocab_extends_get_absent m0 m) by done. constructor. }
  pose proof (get_batch_Ok _ _ _ _ _ _ _ _ Hget) as (-> & -> & Hext' & Hin & _).
  exists m'. split_and!.
  - rewrite Hget. do 3 f_equal. apply list_eq. intros j.
    rewrite list_lookup_fmap.
    destruct (take B (drop idx keys) !! j) as [k|] eqn:Hj; simpl.
    + rewrite lookup_replicate_2 by (by eapply lookup_lt_Some).
      rewrite (vocab_extends_get_absent m0 m); [by rewrite indicator_row_nil
                                                | done |].
      rewrite Forall_forall in Hbatch. eapply Hbatch, list_elem_of_lookup_2, Hj.
    + symmetry. apply lookup_ge_None_2. rewrite length_replicate.
      by apply lookup_ge_None_1.
  - by apply (vocab_extends_trans _ m).
  - rewrite Forall_forall in *. intros k Hk.
    destruct (Hin k Hk) as [v Hv].
    destruct (vocab_extends_absent m0 m' k) as [Hn|Hs];
      [by apply (vocab_extends_trans _ m) | by apply Hbatch | | done].
    by rewrite Hn in Hv.
Qed.

(** ** The small instance, evaluated *)

(** The validation triple (A, R, C) of the small instance: the raw scores
    of A, B, C are 0, 3, 1; B is a known tail of (A, R) and is zeroed, so
    that C ranks first. *)
Example evaluate_toy_valid :
  evaluate (toy_experiment "HypER" 2) (build_idxs (entities toy_data))
           (build_idxs (relations toy_data)) toy_data toy_model false
           (valid_data toy_data)
  = Ok ([([0; 0], [1; 2]); ([1; 0], [2; 0]); ([2; 0], [0]); ([0; 0; 2], [])],
        [1], replicate 10 [1%Q]).
Proof. vm_compute. reflexivity. Qed.

(** The test triple (B, R, A): the scores of A, B, C are 1, 4, 2; C is a
    known tail of (B, R) and is zeroed, B is not, and A ranks second. *)
Example evaluate_toy_test :
  evaluate (toy_experiment "HypER" 2) (build_idxs (entities toy_data))
           (build_idxs (relations toy_data)) toy_data toy_model false
           (test_data toy_data)
  = Ok ([([0; 0], [1; 2]); ([1; 0], [2; 0]); ([2; 0], [0]); ([1; 0; 0], [])],
        [2], [0%Q] :: replicate 9 [1%Q]).
Proof. vm_compute. reflexivity. Qed.

Example filtered_scores_toy :
  score_row 2 toy_model false [(0, 0, 2)] 0 = Some [0; 3; 1]%Q
  ∧ stable_argsort_desc [0; 3; 1]%Q = [1; 2; 0]
  ∧ filtered_scores [0; 3; 1]%Q [1; 2] 2 = [0; 0; 1]%Q
  ∧ stable_argsort_desc (filtered_scores [0; 3; 1]%Q [1; 2] 2) = [2; 0; 1].
Proof. split_and!; vm_compute; reflexivity. Qed.

(** ** The filter vocabulary during evaluation *)

Lemma elem_of_concat {A : Type} (x : A) (ls : list (list A)) :
  x ∈ concat ls ↔ ∃ l, x ∈ l ∧ l ∈ ls.
Proof.
  induction ls as [|l ls IH]; simpl.
  - split; [by intros ?%elem_of_nil | by intros (l & _ & ?%elem_of_nil)].
  - rewrite elem_of_app, IH. split.
    + intros [Hx | (l' & Hx & Hl')]; [exists l | exists l'];
        (split; [done|]); [left | by right].
    + intros (l' & Hx & [->|Hl']%elem_of_cons); [by left|].
      right. by exists l'.
Qed.

Lemma filter_step_extends (data_batch : list key) (e2_idx : list nat)
    (m m' : vocab) (preds preds' : list (list Q)) (j : nat) :
  filter_step data_batch e2_idx (m, preds) j = Ok (m', preds') →
  vocab_extends m m' ∧ length preds' = length preds.
Proof.
  unfold filter_step. intros Hb.
  apply rbind_Ok in Hb as (kj & _ & Hb).
  apply rbind_Ok in Hb as (h & _ & Hb).
  apply rbind_Ok in Hb as (r & _ & Hb).
  destruct (vocab_getitem m [h; r]) as [m1 filt] eqn:Hget.
  apply rbind_Ok in Hb as (t & _ & Hb).
  apply rbind_Ok in Hb as (row & _ & Hb).
  apply rbind_Ok in Hb as (tv & _ & Hb).
  apply rbind_Ok in Hb as (row1 & _ & [= <- <-]).
  apply vocab_getitem_spec in Hget as (_ & _ & Hext & _).
  split; [done | by rewrite length_insert].
Qed.

Lemma filter_loop_extends (data_batch : list key) (e2_idx : list nat)
    (m m' : vocab) (preds preds' : list (list Q)) (js : list nat) :
  rfoldl (filter_step data_batch e2_idx) (m, preds) js = Ok (m', preds') →
  vocab_extends m m' ∧ length preds' = length preds.
Proof.
  intros Hloop.
  apply (rfoldl_invariant
           (λ _ st, vocab_extends m st.1 ∧ length st.2 = length preds))
    in Hloop; [done | split; [apply vocab_extends_refl | done] |].
  intros pre j [m1 p1] [m2 p2] _ [Hext Hlen] Hstep. simpl in *.
  apply filter_step_extends in Hstep as [Hext' Hlen'].
  split; [by apply (vocab_extends_trans _ m1) | congruence].
Qed.

Section EvaluateVocab.
Context `{Externals}.
Variables (self : Experiment) (entity_idxs relation_idxs : gmap string nat).
Variables (d : Data) (mdl : model_state) (training : bool).

Lemma evaluate_batch_extends (tks : list key) (m m' : vocab)
    (ranks ranks' : list nat) (hits hits' : list (list Q)) (i : nat) :
  evaluate_batch self d mdl training tks (m, ranks, hits) i
  = Ok (m', ranks', hits') →
  vocab_extends m m'
  ∧ Forall (λ k, is_Some (vocab_lookup k m'))
           (take (batch_size self) (drop i tks)).
Proof.
  unfold evaluate_batch. intros Hb.
  apply rbind_Ok in Hb as ([m1 [data_batch targets]] & Hget & Hb).
  apply rbind_Ok in Hb as (e1 & _ & Hb).
  apply rbind_Ok in Hb as (r & _ & Hb).
  apply rbind_Ok in Hb as (e2 & _ & Hb).
  apply rbind_Ok in Hb as ([m2 preds1] & Hfilter & Hb).
  apply rbind_Ok in Hb as ([ranks1 hits1] & _ & [= <- <- <-]).
  apply get_batch_Ok in Hget as (-> & _ & Hext & Hin & _).
  apply filter_loop_extends in Hfilter as [Hext' _].
  split; [by apply (vocab_extends_trans _ m1)|].
  eapply Forall_impl; [exact Hin|]. intros k [v Hv]. exists v.
  by apply Hext'.
Qed.

(** After [evaluate], every evaluation triple is a key of the filter
    vocabulary. *)
Lemma evaluate_vocab (dat : list raw_triple) (tds : list idx_triple)
    (v' : vocab) (ranks : list nat) (hits : list (list Q)) :
  get_data_idxs entity_idxs relation_idxs dat = Ok tds →
  evaluate self entity_idxs relation_idxs d mdl training dat
  = Ok (v', ranks, hits) →
  ∃ full,
    get_data_idxs entity_idxs relation_idxs (data d) = Ok full
    ∧ vocab_extends (get_er_vocab full) v'
    ∧ Forall (λ tr, is_Some (vocab_lookup (tuple3 tr) v')) tds.
Proof.
  intros Htds. unfold evaluate. rewrite Htds. simpl. intros Hb.
  apply rbind_Ok in Hb as (full & Hfull & Hb).
  apply rbind_Ok in Hb as (offsets & Hoff & Hloop).
  exists full. split; [done|].
  set (B := batch_size self) in *. set (tks := tuple3 <$> tds) in *.
  assert (HB : 0 < B).
  { unfold range_step in Hoff. case_decide; [done | lia]. }
  rewrite range_step_closed in Hoff by done. injection Hoff as <-.
  apply (rfoldl_invariant
           (λ offs st,
              vocab_extends (get_er_vocab full) st.1.1
              ∧ Forall (λ o, Forall (λ k, is_Some (vocab_lookup k st.1.1))
                                    (take B (drop o tks))) offs)) in Hloop.
  - simpl in Hloop. destruct Hloop as [Hext Hall]. split; [done|].
    rewrite Forall_forall in Hall. apply Forall_forall. intros tr Htr.
    assert (Hk : tuple3 tr ∈ tks) by (by apply list_elem_of_fmap_2).
    rewrite <- (chunks_concat B (div_ceil (length tks) B) tks) in Hk
      by (by apply div_ceil_cover).
    apply elem_of_concat in Hk as (chunk & Hk & Hchunk).
    apply list_elem_of_fmap in Hchunk as (q & -> & Hq).
    specialize (Hall (q * B)). rewrite Forall_forall in Hall.
    apply Hall; [|done]. apply (list_elem_of_fmap_2 (λ q, q * B)).
    unfold tks in Hq. by rewrite length_fmap in Hq.
  - split; [apply vocab_extends_refl | constructor].
  - intros pre o [[m1 r1] h1] [[m2 r2] h2] _ [Hext Hall] Hstep. simpl in *.
    apply evaluate_batch_extends in Hstep as [Hext' Hin].
    split; [by apply (vocab_extends_trans _ m1)|].
    apply Forall_app. split; [|by repeat constructor].
    eapply Forall_impl; [exact Hall|]. intros o'. simpl. intros Ho'.
    eapply Forall_impl; [exact Ho'|]. intros k [v Hv]. exists v.
    by apply Hext'.
Qed.
End EvaluateVocab.

(** C10. A key of the batch that is absent from the vocabulary gets an
    all-zero target row, raises nothing (an exception of [get_batch] can
    only come from a stored tail that is not a valid column) and is, after
    the call, a key of the vocabulary with the empty tail list.  In
    [evaluate] the keys handed to [get_batch] are whole indexed triples,
    none of which is a key of the filter vocabulary as built: each such
    call returns an all-zero target matrix, and when [evaluate] returns,
    every evaluation triple has been inserted into the filter vocabulary
    with an empty tail list, so the vocabulary has changed as soon as the
    split is non-empty. *)
Theorem get_batch_missing_key :
  (∀ B N m m' keys batch idx j targets k,
     get_batch B N m keys idx = Ok (m', (batch, targets)) →
     batch !! j = Some k → vocab_lookup k m = None →
     targets !! j = Some (replicate N 0%Q)
     ∧ vocab_lookup k m' = Some [] ∧ vocab_lookup k m' ≠ vocab_lookup k m)
  ∧ (∀ B N m keys idx,
       Forall (λ k, vocab_lookup k m = None
                    ∨ Forall (λ t, t < N) (vocab_get m k))
              (take B (drop idx keys)) →
       is_Ok (get_batch B N m keys idx))
  ∧ (∀ (ext : Externals) self entity_idxs relation_idxs d mdl training
       dat tds v' ranks hits,
       get_data_idxs entity_idxs relation_idxs dat = Ok tds →
       evaluate self entity_idxs relation_idxs d mdl training dat
       = Ok (v', ranks, hits) →
       ∃ full,
         get_data_idxs entity_idxs relation_idxs (data d) = Ok full
         ∧ (∀ tr, tr ∈ tds →
              vocab_lookup (tuple3 tr) (get_er_vocab full) = None
              ∧ vocab_lookup (tuple3 tr) v' = Some [])
         ∧ (tds ≠ [] → v' ≠ get_er_vocab full)
         ∧ (∀ m i, vocab_extends (get_er_vocab full) m →
              ∃ m',
                get_batch (batch_size self) (length (entities d)) m
                          (tuple3 <$> tds) i
                = Ok (m', (take (batch_size self) (drop i (tuple3 <$> tds)),
                           replicate
                             (length (take (batch_size self)
                                           (drop i (tuple3 <$> tds))))
                             (replicate (length (entities d)) 0%Q)))
                ∧ vocab_extends (get_er_vocab full) m')
         ∧ (∀ m ranks1 hits1 i m' ranks2 hits2,
              vocab_extends (get_er_vocab full) m →
              evaluate_batch self d mdl training (tuple3 <$> tds)
                             (m, ranks1, hits1) i
              = Ok (m', ranks2, hits2) →
              vocab_extends (get_er_vocab full) m')).
Proof.
  split_and!.
  - intros B N m m' keys batch idx j targets k. apply get_batch_absent_row.
  - apply get_batch_absent_total.
  - intros ext self entity_idxs relation_idxs d mdl training dat tds v' ranks
      hits Htds Hev.
    destruct (evaluate_vocab _ _ _ _ _ _ _ _ _ _ _ Htds Hev)
      as (full & Hfull & Hext & Hin).
    exists full.
    assert (Habs : ∀ tr, vocab_lookup (tuple3 tr) (get_er_vocab full) = None).
    { intros tr. apply get_er_vocab_no_triple. }
    assert (Hins : ∀ tr, tr ∈ tds → vocab_lookup (tuple3 tr) v' = Some []).
    { intros tr Htr. rewrite Forall_forall in Hin.
      destruct (Hin tr Htr) as [v Hv].
      destruct (vocab_extends_absent _ _ _ Hext (Habs tr)) as [Hn|Hs];
        [by rewrite Hn in Hv | done]. }
    split_and!.
    + done.
    + intros tr Htr. split; [apply Habs | by apply Hins].
    + intros Hne Heq. destruct tds as [|tr tds]; [done|].
      specialize (Hins tr ltac:(left)). rewrite Heq, Habs in Hins. done.
    + intros m i Hm.
      destruct (get_batch_all_absent (batch_size self) (length (entities d))
                  m (get_er_vocab full) (tuple3 <$> tds) i Hm)
        as (m' & Hget & Hext' & _).
      { apply Forall_fmap, Forall_forall. intros tr _. apply Habs. }
      by exists m'.
    + intros m ranks1 hits1 i m' ranks2 hits2 Hm Hstep.
      apply evaluate_batch_extends in Hstep as [Hext' _].
      by apply (vocab_extends_trans _ m).
Qed.

Lemma get_batch_missing_key_witness :
  get_batch 2 3 [([0; 0], [1])] [[0; 0; 1]] 0
  = Ok ([([0; 0], [1]); ([0; 0; 1], [])], ([[0; 0; 1]], [[0; 0; 0]]%Q))
  ∧ [[0; 0; 0]]%Q !! 0 = Some (replicate 3 0%Q)
  ∧ vocab_lookup [0; 0; 1] [([0; 0], [1]); ([0; 0; 1], [])] = Some []
  ∧ ∃ full,
      get_data_idxs (build_idxs (entities toy_data))
                    (build_idxs (relations toy_data)) (data toy_data)
      = Ok full
      ∧ vocab_lookup (tuple3 (0, 0, 2)) (get_er_vocab full) = None
      ∧ vocab_lookup (tuple3 (0, 0, 2))
          [([0; 0], [1; 2]); ([1; 0], [2; 0]); ([2; 0], [0]); ([0; 0; 2], [])]
        = Some [].
Proof.
  assert (Hrun : get_batch 2 3 [([0; 0], [1])] [[0; 0; 1]] 0
                 = Ok ([([0; 0], [1]); ([0; 0; 1], [])],
                       ([[0; 0; 1]], [[0; 0; 0]]%Q)))
    by (vm_compute; reflexivity).
  split; [exact Hrun|].
  destruct get_batch_missing_key as (Habsent & _ & Heval).
  destruct (Habsent 2 3 _ _ _ _ 0 0 _ [0; 0; 1] Hrun eq_refl eq_refl)
    as (Hrow & Hins & _).
  split; [exact Hrow|]. split; [exact Hins|].
  assert (Htds : get_data_idxs (build_idxs (entities toy_data))
                   (build_idxs (relations toy_data)) (valid_data toy_data)
                 = Ok [(0, 0, 2)]) by (vm_compute; reflexivity).
  destruct (Heval toy_externals _ _ _ _ _ _ _ _ _ _ _ Htds evaluate_toy_valid)
    as (full & Hfull & Hkeys & _).
  exists full. split; [exact Hfull|].
  exact (Hkeys (0, 0, 2) ltac:(left)).
Defined.

(** ** Bounds on indexed data *)

Lemma build_idxs_bound (xs : list string) (k : string) (i : nat) :
  build_idxs xs !! k = Some i → i < length xs.
Proof.
  unfold build_idxs.
  assert (Hgen : ∀ (l : list (nat * string)) (m : gmap string nat) n,
            Forall (λ ix, ix.1 < n) l →
            (∀ k i, m !! k = Some i → i < n) →
            ∀ k i, foldl (λ m ix, <[ix.2 := ix.1]> m) m l !! k = Some i →
                   i < n).
  { induction l as [|[j x] l IH]; intros m n Hl Hm k' i'; simpl.
    - apply Hm.
    - apply Forall_cons in Hl as [Hj Hl]. apply (IH _ n Hl).
      intros k'' i''. simpl. rewrite lookup_insert.
      case_decide; [intros [= <-]; done | apply Hm]. }
  apply (Hgen _ ∅ (length xs)); [|by intros ? ?; rewrite lookup_empty].
  apply Forall_forall. intros [j x] Hin.
  apply list_elem_of_lookup in Hin as [p Hp].
  rewrite list_lookup_imap in Hp.
  destruct (xs !! p) eqn:Hxp; simpl in Hp; [|done].
  injection Hp as <- <-. simpl. by eapply lookup_lt_Some.
Qed.

Lemma get_data_idxs_bound (ent rel : gmap string nat) (N : nat)
    (dat : list raw_triple) (out : list idx_triple) :
  (∀ k i, ent !! k = Some i → i < N) →
  get_data_idxs ent rel dat = Ok out →
  Forall (λ tr, tr.1.1 < N ∧ tr.2 < N) out.
Proof.
  intros Hent Hout. unfold get_data_idxs in Hout. apply rmap_Ok in Hout.
  induction Hout as [|tr x dat out Hx _ IH]; constructor; [|done].
  apply idx_triple_of_Ok in Hx as (Hh & _ & Ht). eauto.
Qed.

Lemma vocab_bounded_entries (N : nat) (m : vocab) :
  vocab_bounded N m ↔ Forall (λ e, e.2 < N) (vocab_entries m).
Proof.
  unfold vocab_bounded, vocab_entries.
  induction m as [|[k v] m IH]; [done|].
  rewrite Forall_cons, bind_cons, Forall_app, IH, Forall_fmap. done.
Qed.

Lemma get_er_vocab_bounded (N : nat) (dat : list idx_triple) :
  Forall (λ tr, tr.2 < N) dat → vocab_bounded N (get_er_vocab dat).
Proof.
  intros Hdat. apply vocab_bounded_entries. unfold get_er_vocab.
  rewrite vocab_entries_foldl. simpl. by apply Forall_fmap.
Qed.

(** ** Columns of a batch of triples *)

Lemma column_tuple3 (trs : list idx_triple) :
  column 0 (tuple3 <$> trs) = Ok ((λ tr, tr.1.1) <$> trs)
  ∧ column 1 (tuple3 <$> trs) = Ok ((λ tr, tr.1.2) <$> trs)
  ∧ column 2 (tuple3 <$> trs) = Ok ((λ tr, tr.2) <$> trs).
Proof.
  unfold column. split_and!; apply rmap_Ok;
    (induction trs as [|tr trs IH]; csimpl; constructor; [done | apply IH]).
Qed.

(** ** Filtering one row *)

Lemma filtered_scores_length (row : list Q) (filt : list nat) (t : nat) :
  length (filtered_scores row filt t) = length row.
Proof. unfold filtered_scores. apply length_imap. Qed.

(** Lines 83-85 compute the filtered score vector. *)
Lemma filter_row_spec (row : list Q) (filt : list nat) (t : nat) (tv : Q) :
  row !! t = Some tv →
  <[t := tv]> (foldl (λ r c, <[c := 0%Q]> r) row filt)
  = filtered_scores row filt t.
Proof.
  intros Ht. pose proof (lookup_lt_Some _ _ _ Ht) as Hlt.
  apply list_eq. intros c. unfold filtered_scores. rewrite list_lookup_imap.
  destruct (decide (c = t)) as [->|Hne].
  - rewrite list_lookup_insert_eq by (by rewrite foldl_insert_length).
    by rewrite Ht.
  - rewrite list_lookup_insert_ne by done.
    destruct (decide (c < length row)) as [Hc|Hc].
    + rewrite foldl_insert_lookup by done.
      destruct (row !! c) as [x|] eqn:Hx.
      * cbn [fmap option_fmap option_map]. by case_decide.
      * apply lookup_ge_None_1 in Hx. lia.
    + rewrite !lookup_ge_None_2; rewrite ?foldl_insert_length; [done|lia..].
Qed.

(** ** The loops of one evaluation batch *)

Lemma lookup_fmap_Some_2 {A B : Type} (f : A → B) (l : list A) (i : nat)
    (x : A) :
  l !! i = Some x → (f <$> l) !! i = Some (f x).
Proof. intros Hx. by rewrite list_lookup_fmap, Hx. Qed.

Lemma prefix_seq_snoc (pre : list nat) (x n : nat) :
  pre ++ [x] `prefix_of` seq 0 n → x = length pre ∧ length pre < n.
Proof.
  intros Hpre.
  assert (Hx : seq 0 n !! length pre = Some x).
  { eapply prefix_lookup_Some; [|exact Hpre].
    by rewrite lookup_app_r, Nat.sub_diag by lia. }
  apply lookup_seq in Hx. lia.
Qed.

Lemma row_getitem_Ok {A : Type} (row : list A) (c : nat) (x : A) :
  row_getitem row c = Ok x ↔ row !! c = Some x.
Proof.
  unfold row_getitem. destruct (row !! c); split; try done.
  - by intros [= ->].
  - by intros [= ->].
Qed.

Lemma first_index_total (idxs : list nat) (t : nat) :
  t ∈ idxs → is_Ok (first_index idxs t).
Proof.
  intros Hin. unfold first_index.
  destruct (list_find (λ x, x = t) idxs) as [[p y]|] eqn:Hfind; [by eexists|].
  apply list_find_None in Hfind. rewrite Forall_forall in Hfind.
  by destruct (Hfind t Hin).
Qed.

Section BatchLoops.
Variables (N : nat) (trs : list idx_triple) (preds : list (list Q)).
Hypothesis Hlen : length preds = length trs.
Hypothesis Hrows : Forall (λ row, length row = N) preds.
Hypothesis Htails : Forall (λ tr, tr.2 < N) trs.

Lemma filter_step_spec (m0 m1 : vocab) (p1 : list (list Q)) (j : nat)
    (tr : idx_triple) (row : list Q) :
  vocab_extends m0 m1 → vocab_bounded N m1 →
  trs !! j = Some tr → p1 !! j = Some row → length row = N →
  ∃ m2,
    filter_step (tuple3 <$> trs) ((λ tr, tr.2) <$> trs) (m1, p1) j
    = Ok (m2, <[j := filtered_scores row (vocab_get m0 [tr.1.1; tr.1.2])
                                       tr.2]> p1)
    ∧ vocab_extends m0 m2 ∧ vocab_bounded N m2.
Proof.
  intros Hext Hbd Htr Hrow Hwidth. unfold filter_step.
  pose proof (lookup_fmap_Some_2 tuple3 _ _ _ Htr) as Hk.
  pose proof (lookup_fmap_Some_2 (λ tr : idx_triple, tr.2) _ _ _ Htr) as He2.
  assert (Ht : tr.2 < N).
  { rewrite Forall_forall in Htails. eapply Htails, list_elem_of_lookup_2, Htr. }
  destruct (lookup_lt_is_Some_2 row tr.2) as [tv Htv]; [lia|].
  apply row_getitem_Ok in Hk, He2, Htv. apply row_getitem_Ok in Hrow.
  rewrite Hk. simpl.
  destruct (vocab_getitem m1 [tr.1.1; tr.1.2]) as [m2 filt] eqn:Hget.
  pose proof (vocab_bounded_getitem N _ _ _ _ Hbd Hget) as Hbd2.
  apply vocab_getitem_spec in Hget as (-> & _ & Hext2 & _).
  exists m2. split_and!; [| by apply (vocab_extends_trans _ m1) | done].
  step_Ok He2. step_Ok Hrow. step_Ok Htv.
  unfold set_cols. rewrite decide_True
    by (rewrite Hwidth; by apply vocab_bounded_get).
  simpl. apply row_getitem_Ok in Htv.
  rewrite filter_row_spec by done. destruct Hext as [_ Hext]. by rewrite Hext.
Qed.

Lemma filter_loop_spec (m0 m : vocab) :
  vocab_extends m0 m → vocab_bounded N m →
  ∃ m' preds1,
    rfoldl (filter_step (tuple3 <$> trs) ((λ tr, tr.2) <$> trs)) (m, preds)
           (seq 0 (length (tuple3 <$> trs)))
    = Ok (m', preds1)
    ∧ vocab_extends m0 m' ∧ vocab_bounded N m'
    ∧ length preds1 = length preds
    ∧ ∀ j, j < length trs → preds1 !! j = filtered_row m0 trs preds j.
Proof.
  intros Hext Hbd. rewrite length_fmap.
  destruct (rfoldl_total
    (λ pre st,
       vocab_extends m0 st.1 ∧ vocab_bounded N st.1
       ∧ length st.2 = length preds
       ∧ ∀ j, st.2 !! j = if decide (j < length pre)
                         then filtered_row m0 trs preds j else preds !! j)
    (filter_step (tuple3 <$> trs) ((λ tr, tr.2) <$> trs))
    (seq 0 (length trs)) (m, preds)) as ([m' preds1] & Hloop & HP).
  - split_and!; done.
  - intros pre j [m1 p1] [-> Hj]%prefix_seq_snoc (Hext1 & Hbd1 & Hlen1 & Hp1).
    simpl in *.
    destruct (lookup_lt_is_Some_2 trs (length pre)) as [tr Htr]; [done|].
    destruct (lookup_lt_is_Some_2 preds (length pre)) as [row Hrow]; [lia|].
    assert (Hwidth : length row = N).
    { rewrite Forall_forall in Hrows.
      eapply Hrows, list_elem_of_lookup_2, Hrow. }
    assert (Hrow1 : p1 !! length pre = Some row).
    { by rewrite Hp1, decide_False by lia. }
    destruct (filter_step_spec m0 m1 p1 _ tr row Hext1 Hbd1 Htr Hrow1 Hwidth)
      as (m2 & Hstep & Hext2 & Hbd2).
    eexists. split; [exact Hstep|]. simpl.
    split_and!; [done | done | by rewrite length_insert |].
    intros j. rewrite length_app. simpl.
    destruct (decide (j = length pre)) as [->|Hne].
    + rewrite list_lookup_insert_eq by lia. rewrite decide_True by lia.
      unfold filtered_row. by rewrite Htr, Hrow.
    + rewrite list_lookup_insert_ne by done. rewrite Hp1.
      repeat case_decide; try done; lia.
  - exists m', preds1. destruct HP as (Hext' & Hbd' & Hlen' & Hp).
    simpl in *. split_and!; try done.
    intros j Hj. rewrite Hp, length_seq. by rewrite decide_True.
Qed.
End BatchLoops.

Lemma rank_loop_spec (sort_idxs : list (list nat)) (e2_idx : list nat)
    (ranks : list nat) (hits : list (list Q)) (n : nat) :
  (∀ j, j < n → is_Some (rank_of_row sort_idxs e2_idx j)) →
  ∃ rs hits',
    rfoldl (rank_step sort_idxs e2_idx) (ranks, hits) (seq 0 n)
    = Ok (ranks ++ rs, hits')
    ∧ length rs = n
    ∧ ∀ j, j < n → rs !! j = rank_of_row sort_idxs e2_idx j.
Proof.
  intros Hsome.
  destruct (rfoldl_total
    (λ pre st, ∃ rs, st.1 = ranks ++ rs ∧ length rs = length pre
                     ∧ ∀ j, j < length pre →
                            rs !! j = rank_of_row sort_idxs e2_idx j)
    (rank_step sort_idxs e2_idx) (seq 0 n) (ranks, hits))
    as ([ranks' hits'] & Hloop & rs & Hrs & Hlen & Hlook).
  - exists []. split_and!; [by rewrite (right_id_L [] (++)) | done |].
    simpl. lia.
  - intros pre j [r1 h1] [-> Hj]%prefix_seq_snoc (rs & Hr1 & Hlen & Hlook).
    simpl in Hr1. subst r1.
    destruct (Hsome _ Hj) as [r Hr]. pose proof Hr as Hr'.
    unfold rank_of_row in Hr.
    destruct (sort_idxs !! length pre) as [idxs|] eqn:Hidxs; [|done].
    destruct (e2_idx !! length pre) as [t|] eqn:Ht; [|done]. simpl in Hr.
    destruct (first_index idxs t) as [p|] eqn:Hp; [|done].
    injection Hr as <-.
    eexists. split.
    + unfold rank_step. apply row_getitem_Ok in Hidxs, Ht.
      step_Ok Hidxs. step_Ok Ht. step_Ok Hp. reflexivity.
    + exists (rs ++ [p + 1]). simpl.
      split_and!; [by rewrite (assoc_L (++)) | rewrite !length_app; simpl; lia |].
      intros j. rewrite length_app. simpl. intros Hjlt.
      destruct (decide (j = length pre)) as [->|Hne].
      * rewrite lookup_app_r, Hlen, Nat.sub_diag by lia. by rewrite Hr'.
      * rewrite lookup_app_l by lia. apply Hlook. lia.
  - exists rs, hits'. simpl in Hrs. subst ranks'.
    rewrite length_seq in *. done.
Qed.

Lemma prefix_offsets_snoc (pre : list nat) (x B n : nat) :
  pre ++ [x] `prefix_of` (λ q, q * B) <$> seq 0 n →
  x = length pre * B ∧ length pre < n.
Proof.
  intros Hpre.
  assert (Hx : ((λ q, q * B) <$> seq 0 n) !! length pre = Some x).
  { eapply prefix_lookup_Some; [|exact Hpre].
    by rewrite lookup_app_r, Nat.sub_diag by lia. }
  rewrite list_lookup_fmap in Hx.
  destruct (seq 0 n !! length pre) as [q|] eqn:Hq; [|done].
  apply lookup_seq in Hq as [-> Hlt]. simpl in Hx. injection Hx as <-. done.
Qed.

Lemma offset_in_range (q V B : nat) :
  0 < B → q < div_ceil V B → q * B < V.
Proof.
  intros HB. rewrite div_ceil_split by done.
  pose proof (Nat.div_mod_eq V B) as Hdm.
  pose proof (Nat.mod_upper_bound V B ltac:(lia)) as Hlt.
  case_decide; nia.
Qed.

Lemma argsort_mem `{Externals} (l : list Q) (t : nat) :
  argsort_permutes → t < length l → t ∈ argsort_desc l.
Proof. intros Hperm Ht. rewrite (Hperm l). apply elem_of_seq. lia. Qed.

(** ** One batch of [evaluate], and all of them *)

Section EvaluateSpec.
Context `{Externals}.
Variables (self : Experiment) (d : Data) (mdl : model_state) (training : bool).
Variables (tds full : list idx_triple).

Let B := batch_size self.
Let N := length (entities d).
Let m0 := get_er_vocab full.

Hypothesis HB : 0 < B.
Hypothesis Hsort : argsort_permutes.
Hypothesis Hshape : forward_shape N mdl training.
Hypothesis Htds : Forall (λ tr, tr.2 < N) tds.
Hypothesis Hfull : Forall (λ tr, tr.2 < N) full.

Lemma evaluate_batch_spec (m : vocab) (ranks : list nat)
    (hits : list (list Q)) (q : nat) :
  vocab_extends m0 m → vocab_bounded N m → q * B < length tds →
  ∃ m' rs hits',
    evaluate_batch self d mdl training (tuple3 <$> tds) (m, ranks, hits)
                   (q * B)
    = Ok (m', ranks ++ rs, hits')
    ∧ vocab_extends m0 m' ∧ vocab_bounded N m'
    ∧ length rs = length (take B (drop (q * B) tds))
    ∧ ∀ j rk, rs !! j = Some rk →
        filtered_rank B mdl training m0 tds (q * B + j) rk.
Proof.
  intros Hext Hbd Hq. unfold evaluate_batch. fold B N.
  set (trs := take B (drop (q * B) tds)).
  assert (Htrs_len : length trs ≤ B) by (unfold trs; rewrite length_take; lia).
  assert (Htrs : Forall (λ tr, tr.2 < N) trs).
  { rewrite Forall_forall in *. intros tr Htr. apply Htds.
    by eapply subseteq_drop, subseteq_take. }
  (* the batch and its columns *)
  destruct (get_batch_all_absent B N m m0 (tuple3 <$> tds) (q * B) Hext)
    as (m1 & Hget & Hext1 & _).
  { apply Forall_fmap, Forall_forall. intros tr _.
    apply get_er_vocab_no_triple. }
  pose proof (get_batch_Ok _ _ _ _ _ _ _ _ Hget) as (_ & _ & _ & _ & Hbd1).
  specialize (Hbd1 Hbd).
  rewrite <- fmap_drop, <- fmap_take in Hget. fold trs in Hget.
  destruct (column_tuple3 trs) as (Hc0 & Hc1 & Hc2).
  set (preds := forward mdl training ((λ tr, tr.1.1) <$> trs)
                        ((λ tr, tr.1.2) <$> trs)).
  destruct (Hshape ((λ tr, tr.1.1) <$> trs) ((λ tr, tr.1.2) <$> trs))
    as [Hplen Hprows]; [by rewrite !length_fmap|].
  rewrite length_fmap in Hplen. fold preds in Hplen, Hprows.
  (* the filtering loop *)
  destruct (filter_loop_spec N trs preds Hplen Hprows Htrs m0 m1 Hext1 Hbd1)
    as (m2 & preds1 & Hfilter & Hext2 & Hbd2 & Hlen1 & Hrows1).
  (* the ranking loop *)
  assert (Hranks : ∀ j, j < length trs →
            ∃ tr row p,
              trs !! j = Some tr ∧ preds !! j = Some row
              ∧ first_index
                  (argsort_desc
                     (filtered_scores row (vocab_get m0 [tr.1.1; tr.1.2])
                                      tr.2)) tr.2 = Ok p
              ∧ rank_of_row (argsort_desc <$> preds1)
                            ((λ tr, tr.2) <$> trs) j = Some (p + 1)).
  { intros j Hj.
    destruct (lookup_lt_is_Some_2 trs j) as [tr Htr]; [done|].
    destruct (lookup_lt_is_Some_2 preds j) as [row Hrow]; [lia|].
    assert (Hwidth : length row = N).
    { rewrite Forall_forall in Hprows.
      eapply Hprows, list_elem_of_lookup_2, Hrow. }
    assert (Ht : tr.2 < N).
    { rewrite Forall_forall in Htrs. eapply Htrs, list_elem_of_lookup_2, Htr. }
    destruct (first_index_total
                (argsort_desc
                   (filtered_scores row (vocab_get m0 [tr.1.1; tr.1.2]) tr.2))
                tr.2) as [p Hp].
    { apply argsort_mem; [done|]. rewrite filtered_scores_length. lia. }
    exists tr, row, p. split_and!; try done.
    assert (Hs : (argsort_desc <$> preds1) !! j
                 = Some (argsort_desc
                           (filtered_scores row
                              (vocab_get m0 [tr.1.1; tr.1.2]) tr.2))).
    { apply lookup_fmap_Some_2. rewrite Hrows1 by done.
      unfold filtered_row. by rewrite Htr, Hrow. }
    pose proof (lookup_fmap_Some_2 (λ tr : idx_triple, tr.2) _ _ _ Htr) as He2.
    unfold rank_of_row. rewrite Hs. simpl. rewrite He2. simpl.
    by rewrite Hp. }
  destruct (rank_loop_spec (argsort_desc <$> preds1) ((λ tr, tr.2) <$> trs)
              ranks hits (length trs)) as (rs & hits' & Hrank & Hrs_len & Hrs).
  { intros j Hj. destruct (Hranks j Hj) as (tr & row & p & _ & _ & _ & Hr).
    by eexists. }
  exists m2, rs, hits'. split_and!; try done.
  - step_Ok Hget. step_Ok Hc0. step_Ok Hc1. step_Ok Hc2.
    fold preds. step_Ok Hfilter. rewrite length_fmap.
    step_Ok Hrank. reflexivity.
  - intros j rk Hj.
    assert (Hjlt : j < length trs).
    { rewrite <- Hrs_len. by eapply lookup_lt_Some. }
    destruct (Hranks j Hjlt) as (tr & row & p & Htr & Hrow & Hp & Hr).
    rewrite Hrs, Hr in Hj by done. injection Hj as <-.
    exists tr, row, p.
    assert (Hdiv : (q * B + j) / B = q).
    { rewrite Nat.add_comm, Nat.div_add by lia.
      rewrite Nat.div_small by lia. done. }
    assert (Hmod : (q * B + j) `mod` B = j).
    { rewrite Nat.add_comm, Nat.Div0.mod_add. apply Nat.mod_small. lia. }
    split_and!; [| | done | lia].
    + unfold trs in Htr. rewrite lookup_take_lt, lookup_drop in Htr by lia.
      done.
    + unfold score_row. rewrite Hdiv, Hmod. done.
Qed.
End EvaluateSpec.

(** ** The small instance meets the contracts *)

Lemma insert_desc_perm (l : list Q) (i : nat) (acc : list nat) :
  insert_desc l i acc ≡ₚ i :: acc.
Proof.
  induction acc as [|j acc IH]; simpl; [done|].
  destruct (Qle_bool _ _); [done|].
  rewrite IH. apply perm_swap.
Qed.

Lemma toy_argsort_permutes : @argsort_permutes toy_externals.
Proof.
  intros l. simpl. unfold stable_argsort_desc.
  induction (seq 0 (length l)) as [|i idxs IH]; simpl; [done|].
  by rewrite insert_desc_perm, IH.
Qed.

Lemma toy_forward_shape (N : nat) (training : bool) :
  @forward_shape toy_externals N N training.
Proof.
  intros hs rs Hlen. simpl. split.
  - rewrite length_fmap, length_zip_with. lia.
  - apply Forall_fmap, Forall_forall. intros hr _. simpl.
    by rewrite length_fmap, length_seq.
Qed.



(** * Further properties *)

(** ** The identifier indices and their file *)

Lemma build_idxs_snoc (xs : list string) (x : string) :
  build_idxs (xs ++ [x]) = <[x := length xs]> (build_idxs xs).
Proof.
  unfold build_idxs. rewrite imap_app, foldl_app. simpl.
  by rewrite Nat.add_0_r.
Qed.

Lemma build_idxs_lookup (xs : list string) (k : string) (i : nat) :
  build_idxs xs !! k = Some i
  ↔ xs !! i = Some k ∧ ∀ j, i < j → xs !! j ≠ Some k.
Proof.
  revert i. induction xs as [|x xs IH] using rev_ind; intros i.
  { unfold build_idxs. simpl. rewrite lookup_empty. split; [done|].
    by intros [? _]. }
  rewrite build_idxs_snoc, lookup_insert.
  destruct (decide (x = k)) as [->|Hne].
  - split.
    + intros [= <-]. split.
      * by rewrite lookup_app_r, Nat.sub_diag by lia.
      * intros j Hj. rewrite lookup_ge_None_2; [done|].
        rewrite length_app. simpl. lia.
    + intros [Hi Hlast]. f_equal.
      destruct (decide (i = length xs)) as [->|Hi']; [done|].
      pose proof (lookup_lt_Some _ _ _ Hi) as Hlt.
      rewrite length_app in Hlt. simpl in Hlt.
      destruct (Hlast (length xs)); [lia|].
      by rewrite lookup_app_r, Nat.sub_diag by lia.
  - rewrite IH. split.
    + intros [Hi Hlast]. pose proof (lookup_lt_Some _ _ _ Hi) as Hlt. split.
      * by rewrite lookup_app_l.
      * intros j Hj. destruct (decide (j < length xs)) as [Hjl|Hjl].
        -- rewrite lookup_app_l by done. by apply Hlast.
        -- rewrite lookup_app_r by lia.
           destruct (j - length xs) as [|n]; simpl; [by intros [=]|].
           by rewrite lookup_nil.
    + intros [Hi Hlast].
      assert (Hlt : i < length xs).
      { pose proof (lookup_lt_Some _ _ _ Hi) as Hlt.
        rewrite length_app in Hlt. simpl in Hlt.
        destruct (decide (i = length xs)) as [->|]; [|lia].
        rewrite lookup_app_r, Nat.sub_diag in Hi by lia. simpl in Hi.
        by injection Hi as ->. }
      rewrite lookup_app_l in Hi by done. split; [done|].
      intros j Hj Hjk. apply (Hlast j Hj).
      rewrite lookup_app_l; [done|]. by eapply lookup_lt_Some.
Qed.

Lemma build_idxs_dom (xs : list string) (k : string) :
  is_Some (build_idxs xs !! k) ↔ k ∈ xs.
Proof.
  induction xs as [|x xs IH] using rev_ind.
  { unfold build_idxs. simpl. rewrite lookup_empty. split.
    - by intros [? [=]].
    - by intros ?%elem_of_nil. }
  rewrite build_idxs_snoc, lookup_insert, elem_of_app, list_elem_of_singleton.
  case_decide as Hx; subst.
  - split; [by right | by eexists].
  - rewrite IH. split; [by left | by intros [?|?]].
Qed.

(** X1. The id that lines 115-116 give an identifier is the position of
    its last occurrence in the loader's list, and exactly the listed
    identifiers have an id. *)
Theorem build_idxs_last_occurrence (xs : list string) (k : string) :
  (∀ i, build_idxs xs !! k = Some i
        ↔ xs !! i = Some k ∧ ∀ j, i < j → xs !! j ≠ Some k)
  ∧ (is_Some (build_idxs xs !! k) ↔ k ∈ xs)
  ∧ (∀ i, build_idxs xs !! k = Some i → i < length xs).
Proof.
  split_and!.
  - intros i. apply build_idxs_lookup.
  - apply build_idxs_dom.
  - intros i. apply build_idxs_bound.
Qed.

Lemma NoDup_lookup_last (xs : list string) (k : string) (i : nat) :
  NoDup xs → xs !! i = Some k → ∀ j, i < j → xs !! j ≠ Some k.
Proof.
  intros Hnd Hi j Hj Hjk.
  pose proof (NoDup_lookup _ _ _ _ Hnd Hi Hjk). lia.
Qed.

(** X2. When the loader lists no identifier twice, the index is a
    bijection between the identifiers and the ids [0 .. N-1]: the id of
    an identifier is its position, two identifiers never share an id and
    every id below [N] is the id of an identifier. *)
Theorem build_idxs_bijection (xs : list string) :
  NoDup xs →
  (∀ k i, build_idxs xs !! k = Some i ↔ xs !! i = Some k)
  ∧ (∀ k1 k2 i, build_idxs xs !! k1 = Some i →
                build_idxs xs !! k2 = Some i → k1 = k2)
  ∧ (∀ i, i < length xs → ∃ k, build_idxs xs !! k = Some i).
Proof.
  intros Hnd.
  assert (Hiff : ∀ k i, build_idxs xs !! k = Some i ↔ xs !! i = Some k).
  { intros k i. rewrite build_idxs_lookup. split; [by intros [? _]|].
    intros Hi. split; [done|]. by apply NoDup_lookup_last. }
  split_and!; [done | |].
  - intros k1 k2 i H1%Hiff H2%Hiff. congruence.
  - intros i Hi. destruct (lookup_lt_is_Some_2 xs i Hi) as [k Hk].
    exists k. by apply Hiff.
Qed.

Lemma build_idxs_bijection_witness :
  NoDup (entities toy_data)
  ∧ ∀ k i, build_idxs (entities toy_data) !! k = Some i
           ↔ entities toy_data !! i = Some k.
Proof.
  assert (Hnd : NoDup (entities toy_data)).
  { apply (bool_decide_unpack _). vm_compute. exact I. }
  split; [exact Hnd|].
  destruct (build_idxs_bijection (entities toy_data) Hnd) as (Hiff & _).
  exact Hiff.
Defined.

Lemma save_as_numpy_keys (dictionary : list (string * nat)) :
  save_as_numpy dictionary = rstrip_nul <$> dictionary.*1.
Proof.
  unfold save_as_numpy, np_array. cbv zeta. f_equal.
  assert (Hgen : ∀ acc, foldl (λ elements kv, elements ++ [kv.1]) acc dictionary
                        = acc ++ dictionary.*1).
  { induction dictionary as [|kv m IH]; intros acc; simpl.
    - by rewrite (right_id_L [] (++)).
    - rewrite IH. by rewrite <- (assoc_L (++)). }
  apply Hgen.
Qed.

Lemma fmap_id_on {A : Type} (f : A → A) (l : list A) :
  Forall (λ x, f x = x) l → f <$> l = l.
Proof. induction 1 as [|x l Hx _ IH]; csimpl; [done | by rewrite Hx, IH]. Qed.

(** *** First occurrences *)

Lemma elem_of_first_occurrences {A : Type} `{EqDecision A} (l : list A)
    (x : A) :
  x ∈ first_occurrences l ↔ x ∈ l.
Proof.
  induction l as [|y l IH]; [done|]. cbn [first_occurrences].
  rewrite !elem_of_cons, list_elem_of_filter, IH.
  destruct (decide (x = y)) as [->|Hne]; [by split; left|].
  split.
  - intros [?|[_ ?]]; [by left | by right].
  - intros [?|?]; [by left | by right].
Qed.

Lemma first_occurrences_snoc {A : Type} `{EqDecision A} (l : list A) (x : A) :
  first_occurrences (l ++ [x])
  = if decide (x ∈ l) then first_occurrences l else first_occurrences l ++ [x].
Proof.
  induction l as [|y l IH].
  { cbn [app first_occurrences filter list_filter].
    destruct (decide (x ∈ [])) as [?%elem_of_nil|]; done. }
  cbn [app first_occurrences]. rewrite IH.
  destruct (decide (x = y)) as [->|Hne].
  - rewrite (decide_True (P := y ∈ y :: l)) by left.
    case_decide as Hl; [done|].
    rewrite filter_app, filter_cons_False by (by intros ?).
    by rewrite filter_nil, (right_id_L [] (++)).
  - case_decide as Hl.
    + by rewrite decide_True by (by right).
    + rewrite decide_False by (by intros [?|?]%elem_of_cons).
      rewrite filter_app, filter_cons_True by done.
      by rewrite filter_nil.
Qed.

Lemma first_occurrences_NoDup {A : Type} `{EqDecision A} (l : list A) :
  NoDup (first_occurrences l).
Proof.
  induction l as [|x l IH]; [constructor|]. cbn [first_occurrences].
  constructor.
  - rewrite list_elem_of_filter. by intros [? _].
  - by apply NoDup_filter.
Qed.

Lemma first_occurrences_sublist {A : Type} `{EqDecision A} (l : list A) :
  first_occurrences l `sublist_of` l.
Proof.
  induction l as [|x l IH]; [done|]. cbn [first_occurrences].
  apply sublist_skip. etransitivity; [apply sublist_filter | done].
Qed.

Lemma first_occurrences_id {A : Type} `{EqDecision A} (l : list A) :
  first_occurrences l = l ↔ NoDup l.
Proof.
  split; [intros <-; apply first_occurrences_NoDup|].
  induction 1 as [|x l Hx _ IH]; [done|]. cbn [first_occurrences].
  rewrite IH. f_equal. clear IH.
  induction l as [|y l IH]; [done|].
  apply not_elem_of_cons in Hx as [Hxy Hx].
  rewrite filter_cons_True by done. f_equal. by apply IH.
Qed.

Lemma odict_set_to_map (k : string) (v : nat) (m : list (string * nat)) :
  (list_to_map (odict_set k v m) : gmap string nat)
  = <[k := v]> (list_to_map m).
Proof.
  induction m as [|[k' v'] m IH]; simpl; [done|].
  case_decide as Hk; simpl.
  - subst. by rewrite insert_insert_eq.
  - rewrite IH. by apply insert_insert_ne.
Qed.

Lemma odict_set_keys (k : string) (v : nat) (m : list (string * nat)) :
  (odict_set k v m).*1 = if decide (k ∈ m.*1) then m.*1 else m.*1 ++ [k].
Proof.
  induction m as [|[k' v'] m IH]; [done|]. cbn [odict_set].
  destruct (decide (k' = k)) as [->|Hne]; csimpl.
  - by rewrite decide_True by left.
  - rewrite IH. destruct (decide (k ∈ m.*1)) as [Hin|Hnin].
    + by rewrite decide_True by (by right).
    + rewrite decide_False; [done|]. by intros [?|?]%elem_of_cons.
Qed.

Lemma build_idxs_items_snoc (xs : list string) (x : string) :
  build_idxs_items (xs ++ [x])
  = odict_set x (length xs) (build_idxs_items xs).
Proof.
  unfold build_idxs_items. rewrite imap_app, foldl_app. simpl.
  by rewrite Nat.add_0_r.
Qed.

Lemma build_idxs_items_keys (xs : list string) :
  NoDup (build_idxs_items xs).*1
  ∧ (∀ k, k ∈ (build_idxs_items xs).*1 ↔ k ∈ xs)
  ∧ (build_idxs_items xs).*1 `sublist_of` xs.
Proof.
  induction xs as [|x xs (Hnd & Hin & Hsub)] using rev_ind.
  { split_and!; [constructor | done | done]. }
  rewrite build_idxs_items_snoc, odict_set_keys.
  case_decide as Hx.
  - split_and!; [done | | by apply sublist_inserts_r].
    intros k. rewrite Hin, elem_of_app, list_elem_of_singleton.
    split; [by left|]. intros [? | ->]; [done | by apply Hin].
  - split_and!.
    + apply NoDup_app. split_and!; [done | | apply NoDup_singleton].
      intros k Hk Hk'%list_elem_of_singleton. by subst.
    + intros k. rewrite !elem_of_app, Hin. done.
    + by apply sublist_app.
Qed.

Lemma sublist_same_length {A : Type} (l1 l2 : list A) :
  l1 `sublist_of` l2 → length l1 = length l2 → l1 = l2.
Proof.
  induction 1 as [|x l1 l2 Hsub IH|x l1 l2 Hsub IH]; simpl; intros Hlen.
  - done.
  - f_equal. apply IH. lia.
  - apply sublist_length in Hsub. lia.
Qed.

Lemma build_idxs_items_keys_NoDup (xs : list string) :
  NoDup xs → (build_idxs_items xs).*1 = xs.
Proof.
  intros Hxs. destruct (build_idxs_items_keys xs) as (Hnd & Hin & Hsub).
  apply sublist_same_length; [done|]. apply Permutation_length.
  by apply NoDup_Permutation.
Qed.

Lemma build_idxs_items_first (xs : list string) :
  (build_idxs_items xs).*1 = first_occurrences xs.
Proof.
  induction xs as [|x xs IH] using rev_ind; [done|].
  rewrite build_idxs_items_snoc, odict_set_keys, first_occurrences_snoc, IH.
  destruct (decide (x ∈ xs)) as [Hx|Hx].
  - by rewrite decide_True by (by apply elem_of_first_occurrences).
  - by rewrite decide_False by (by rewrite elem_of_first_occurrences).
Qed.

Lemma build_idxs_items_to_map (xs : list string) :
  (list_to_map (build_idxs_items xs) : gmap string nat) = build_idxs xs.
Proof.
  induction xs as [|x xs IH] using rev_ind; [done|].
  rewrite build_idxs_items_snoc, build_idxs_snoc, odict_set_to_map.
  by f_equal.
Qed.

(** X3. The index mapping as it is saved.  [save_as_numpy] collects the
    keys of the dict in insertion order and converts them to an array;
    for the dicts of lines 115-116 the keys are the loader's identifiers
    without repetition, each at the place of its first occurrence, and
    the conversion drops NUL characters at the end of an identifier.
    The dict so ordered has the lookups of [build_idxs].  When no
    identifier ends in NUL the array holds exactly the first occurrences
    (so no identifier twice, the same identifiers as the loader's list,
    in the loader's order), and it is the loader's list itself exactly
    when that list has no repetition. *)
Theorem save_as_numpy_elements (xs : list string) :
  let saved := save_as_numpy (build_idxs_items xs) in
  (list_to_map (build_idxs_items xs) : gmap string nat) = build_idxs xs
  ∧ saved = rstrip_nul <$> first_occurrences xs
  ∧ (Forall (λ k, rstrip_nul k = k) xs →
     saved = first_occurrences xs
     ∧ NoDup saved
     ∧ (∀ k, k ∈ saved ↔ k ∈ xs)
     ∧ saved `sublist_of` xs
     ∧ (saved = xs ↔ NoDup xs)).
Proof.
  intros saved. subst saved.
  rewrite save_as_numpy_keys, build_idxs_items_first.
  split_and!; [apply build_idxs_items_to_map | done |].
  intros Hnul. rewrite fmap_id_on.
  2:{ apply Forall_forall. intros k Hk.
      apply (proj1 (elem_of_first_occurrences xs k)) in Hk.
      rewrite Forall_forall in Hnul. by apply Hnul. }
  split_and!; [done | apply first_occurrences_NoDup | |
               apply first_occurrences_sublist | apply first_occurrences_id].
  intros k. apply elem_of_first_occurrences.
Qed.

Lemma save_as_numpy_elements_witness :
  save_as_numpy (build_idxs_items ["A"; "B"; "A"; "C"; "B"])
  = ["A"; "B"; "C"].
Proof.
  destruct (save_as_numpy_elements ["A"; "B"; "A"; "C"; "B"])
    as (_ & _ & Hsaved).
  destruct Hsaved as [-> _]; [|reflexivity].
  repeat constructor.
Defined.

(** X4. The saved array against the ids: when the loader lists no
    identifier twice, the array holds at position [i] the identifier
    whose id is [i], less the NUL characters at its end; so when moreover
    no identifier ends in NUL, position [i] of the array holds exactly
    the identifier with id [i], and the index comprehension of lines
    115-116 applied to the array gives the index of the run again. *)
Theorem saved_position_is_id (xs : list string) :
  NoDup xs →
  save_as_numpy (build_idxs_items xs) = rstrip_nul <$> xs
  ∧ (∀ i k, build_idxs xs !! k = Some i →
            save_as_numpy (build_idxs_items xs) !! i = Some (rstrip_nul k))
  ∧ (Forall (λ k, rstrip_nul k = k) xs →
     (∀ i k, save_as_numpy (build_idxs_items xs) !! i = Some k
             ↔ build_idxs xs !! k = Some i)
     ∧ build_idxs (save_as_numpy (build_idxs_items xs)) = build_idxs xs).
Proof.
  intros Hnd.
  rewrite save_as_numpy_keys, build_idxs_items_first.
  rewrite (proj2 (first_occurrences_id xs) Hnd).
  split_and!; [done | |].
  - intros i k [Hk _]%build_idxs_lookup.
    by rewrite list_lookup_fmap, Hk.
  - intros Hnul. rewrite fmap_id_on by done.
    split; [|done]. intros i k. rewrite build_idxs_lookup.
    split; [|by intros [? _]].
    intros Hi. split; [done|]. by apply NoDup_lookup_last.
Qed.

Lemma saved_position_is_id_witness :
  NoDup (entities toy_data)
  ∧ build_idxs (save_as_numpy (build_idxs_items (entities toy_data)))
    = build_idxs (entities toy_data).
Proof.
  assert (Hnd : NoDup (entities toy_data)).
  { apply (bool_decide_unpack _). vm_compute. exact I. }
  split; [exact Hnd|].
  destruct (saved_position_is_id (entities toy_data) Hnd) as (_ & _ & Hback).
  destruct Hback as [_ Hback]; [repeat constructor|].
  exact Hback.
Defined.

(** Two identifiers that differ only by a NUL at the end are distinct
    keys of the dict and the same item of the saved array. *)
Example save_as_numpy_trailing_nul :
  NoDup [String "A" (String Ascii.zero EmptyString); "A"]
  ∧ save_as_numpy
      (build_idxs_items [String "A" (String Ascii.zero EmptyString); "A"])
    = ["A"; "A"].
Proof.
  split; [|reflexivity].
  apply (bool_decide_unpack _). vm_compute. exact I.
Qed.

(** ** Contents of the built vocabulary *)

Lemma vocab_lookup_None (k : key) (m : vocab) :
  vocab_lookup k m = None ↔ k ∉ vocab_keys m.
Proof.
  unfold vocab_keys. induction m as [|[k' v'] m IH]; csimpl.
  - split; [intros _; apply not_elem_of_nil | done].
  - rewrite not_elem_of_cons. case_decide as Hk.
    + split; [done | by intros [? _]].
    + rewrite IH. split; [by intros ? | by intros [_ ?]].
Qed.

Lemma vocab_lookup_store (k k' : key) (v : list nat) (m : vocab) :
  vocab_lookup k' (vocab_store k v m)
  = if decide (k' = k)
    then (match vocab_lookup k m with Some _ => Some v | None => None end)
    else vocab_lookup k' m.
Proof.
  induction m as [|[k0 v0] m IH]; simpl; [by case_decide|].
  destruct (decide (k0 = k)) as [->|Hne]; simpl.
  - repeat case_decide; congruence.
  - rewrite IH. repeat case_decide; congruence.
Qed.

Lemma vocab_lookup_append (m : vocab) (k k' : key) (t : nat) :
  vocab_lookup k' (vocab_append m k t)
  = if decide (k' = k) then Some (vocab_get m k ++ [t])
    else vocab_lookup k' m.
Proof.
  unfold vocab_append, vocab_getitem, vocab_get.
  destruct (vocab_lookup k m) as [v|] eqn:Hm; simpl.
  - rewrite vocab_lookup_store, Hm. done.
  - rewrite vocab_store_app_None, vocab_lookup_app by done.
    cbn [vocab_store]. rewrite (decide_True (P := k = k)) by done.
    cbn [vocab_lookup app].
    destruct (decide (k' = k)) as [->|Hne].
    + by rewrite Hm, decide_True.
    + rewrite (decide_False (P := k = k')) by congruence.
      by destruct (vocab_lookup k' m).
Qed.

Lemma tails_of_cons (tr : idx_triple) (dat : list idx_triple) (k : key) :
  tails_of (tr :: dat) k
  = (if decide ([tr.1.1; tr.1.2] = k) then [tr.2] else []) ++ tails_of dat k.
Proof. unfold tails_of. csimpl. by case_decide. Qed.

Lemma vocab_lookup_foldl (m : vocab) (dat : list idx_triple) (k : key) :
  vocab_lookup k (foldl (λ m tr, vocab_append m [tr.1.1; tr.1.2] tr.2) m dat)
  = match vocab_lookup k m, tails_of dat k with
    | None, [] => None
    | o, ts => Some (default [] o ++ ts)
    end.
Proof.
  revert m. induction dat as [|tr dat IH]; intros m.
  - simpl. destruct (vocab_lookup k m) as [v|]; [|done].
    simpl. by rewrite (right_id_L [] (++)).
  - cbn [foldl]. rewrite IH, vocab_lookup_append, tails_of_cons.
    destruct (decide ([tr.1.1; tr.1.2] = k)) as [Hk|Hk].
    + rewrite decide_True by done. subst k. unfold vocab_get. simpl.
      destruct (vocab_lookup _ m) as [v|]; simpl.
      * rewrite <- (assoc_L (++)). simpl. by destruct (tails_of dat _).
      * by destruct (tails_of dat _).
    + rewrite decide_False by done. done.
Qed.

Lemma elem_of_tails_of (dat : list idx_triple) (h r t : nat) :
  t ∈ tails_of dat [h; r] ↔ (h, r, t) ∈ dat.
Proof.
  unfold tails_of. rewrite list_elem_of_omap. split.
  - intros ([[h' r'] t'] & Hin & Hk). simpl in Hk.
    case_decide as Heq; [|done]. injection Heq as -> ->.
    by injection Hk as ->.
  - intros Hin. exists (h, r, t). split; [done|]. simpl.
    by rewrite decide_True.
Qed.

Lemma get_er_vocab_lookup_eq (dat : list idx_triple) (k : key) :
  vocab_lookup k (get_er_vocab dat)
  = if decide (tails_of dat k = []) then None else Some (tails_of dat k).
Proof.
  unfold get_er_vocab. rewrite vocab_lookup_foldl. simpl.
  by destruct (tails_of dat k).
Qed.

Lemma get_er_vocab_get (dat : list idx_triple) (k : key) :
  vocab_get (get_er_vocab dat) k = tails_of dat k.
Proof.
  unfold vocab_get. rewrite get_er_vocab_lookup_eq.
  by case_decide as Hk; [rewrite Hk|].
Qed.

(** X5. What [get_er_vocab] stores under a key: exactly the tails of the
    triples with that (head, relation) pair, in the order of the input
    and as often as they occur; a pair of no triple is not a key.  So a
    tail is registered for [(h, r)] if and only if [(h, r, t)] is one of
    the triples. *)
Theorem get_er_vocab_lookup (dat : list idx_triple) :
  (∀ k, vocab_lookup k (get_er_vocab dat)
        = if decide (tails_of dat k = []) then None
          else Some (tails_of dat k))
  ∧ (∀ k, vocab_get (get_er_vocab dat) k = tails_of dat k)
  ∧ (∀ h r t, t ∈ vocab_get (get_er_vocab dat) [h; r] ↔ (h, r, t) ∈ dat).
Proof.
  split_and!.
  - apply get_er_vocab_lookup_eq.
  - apply get_er_vocab_get.
  - intros h r t. rewrite get_er_vocab_get. apply elem_of_tails_of.
Qed.

Lemma vocab_append_keys (m : vocab) (k : key) (t : nat) :
  vocab_keys (vocab_append m k t)
  = if decide (k ∈ vocab_keys m) then vocab_keys m else vocab_keys m ++ [k].
Proof.
  unfold vocab_append, vocab_getitem, vocab_keys.
  destruct (vocab_lookup k m) as [v|] eqn:Hm.
  - rewrite vocab_store_keys.
    rewrite decide_True; [done|]. by eapply vocab_lookup_Some_key.
  - rewrite vocab_store_keys, fmap_app.
    apply vocab_lookup_None in Hm. by rewrite decide_False.
Qed.

Lemma get_er_vocab_snoc (dat : list idx_triple) (tr : idx_triple) :
  get_er_vocab (dat ++ [tr])
  = vocab_append (get_er_vocab dat) [tr.1.1; tr.1.2] tr.2.
Proof. unfold get_er_vocab. by rewrite foldl_app. Qed.

Lemma get_er_vocab_keys_NoDup (dat : list idx_triple) :
  NoDup (vocab_keys (get_er_vocab dat))
  ∧ vocab_keys (get_er_vocab dat)
    `sublist_of` ((λ tr : idx_triple, [tr.1.1; tr.1.2]) <$> dat).
Proof.
  induction dat as [|tr dat [Hnd Hsub]] using rev_ind.
  { split; [constructor | done]. }
  rewrite get_er_vocab_snoc, vocab_append_keys, fmap_app.
  case_decide as Hk.
  - split; [done | by apply sublist_inserts_r].
  - split; [|by apply sublist_app].
    apply NoDup_app. split_and!; [done | | apply NoDup_singleton].
    intros k Hin Hk'%list_elem_of_singleton. by subst.
Qed.

Lemma vocab_lookup_elem_of (m : vocab) (k : key) (v : list nat) :
  NoDup (vocab_keys m) → (k, v) ∈ m → vocab_lookup k m = Some v.
Proof.
  unfold vocab_keys. induction m as [|[k' v'] m IH]; csimpl.
  - by intros _ ?%elem_of_nil.
  - intros [Hnin Hnd]%NoDup_cons [[= <- <-]|Hin]%elem_of_cons.
    + by rewrite decide_True.
    + rewrite decide_False; [by apply IH|]. intros ->. apply Hnin.
      apply list_elem_of_fmap. by exists (k, v).
Qed.

Lemma get_er_vocab_keys_first (dat : list idx_triple) :
  vocab_keys (get_er_vocab dat)
  = first_occurrences ((λ tr : idx_triple, [tr.1.1; tr.1.2]) <$> dat).
Proof.
  induction dat as [|tr dat IH] using rev_ind; [done|].
  rewrite get_er_vocab_snoc, vocab_append_keys, fmap_app.
  cbn [fmap list_fmap]. rewrite first_occurrences_snoc, IH.
  set (ks := (λ tr0 : idx_triple, [tr0.1.1; tr0.1.2]) <$> dat).
  pose proof (elem_of_first_occurrences ks [tr.1.1; tr.1.2]) as Hiff.
  case_decide as H1; case_decide as H2; [done | | | done]; exfalso.
  - by apply H2, Hiff.
  - by apply H1, Hiff.
Qed.

(** X6. The keys of the built vocabulary are the (head, relation) pairs
    of the input without repetition, each at the place of its first
    occurrence: so no key occurs twice, the keys are exactly the pairs of
    the triples, in the order of the input, at most as many as there are
    triples, and every key has at least one tail. *)
Theorem get_er_vocab_key_set (dat : list idx_triple) :
  vocab_keys (get_er_vocab dat)
  = first_occurrences ((λ tr : idx_triple, [tr.1.1; tr.1.2]) <$> dat)
  ∧ NoDup (vocab_keys (get_er_vocab dat))
  ∧ (∀ k, k ∈ vocab_keys (get_er_vocab dat)
          ↔ ∃ tr : idx_triple, tr ∈ dat ∧ k = [tr.1.1; tr.1.2])
  ∧ vocab_keys (get_er_vocab dat)
    `sublist_of` ((λ tr : idx_triple, [tr.1.1; tr.1.2]) <$> dat)
  ∧ length (vocab_keys (get_er_vocab dat)) ≤ length dat
  ∧ Forall (λ kv, kv.2 ≠ []) (get_er_vocab dat).
Proof.
  destruct (get_er_vocab_keys_NoDup dat) as [Hnd Hsub].
  split_and!; [apply get_er_vocab_keys_first | done | | done | |].
  - intros k. split.
    + intros Hk. apply (sublist_subseteq _ _ Hsub) in Hk.
      apply list_elem_of_fmap in Hk as (tr & -> & Htr). by exists tr.
    + intros ([[h r] t] & Htr & ->). simpl.
      destruct (vocab_lookup [h; r] (get_er_vocab dat)) as [v|] eqn:Hm.
      { by eapply vocab_lookup_Some_key. }
      rewrite get_er_vocab_lookup_eq in Hm. case_decide as Hts; [|done].
      apply elem_of_tails_of in Htr. rewrite Hts in Htr.
      by apply elem_of_nil in Htr.
  - apply sublist_length in Hsub. by rewrite length_fmap in Hsub.
  - apply Forall_forall. intros [k v] Hkv. simpl.
    apply (vocab_lookup_elem_of _ _ _ Hnd) in Hkv.
    rewrite get_er_vocab_lookup_eq in Hkv. case_decide; congruence.
Qed.

Lemma get_er_vocab_key_set_witness :
  vocab_keys (get_er_vocab [(0, 0, 1); (1, 0, 2); (0, 0, 2)])
  = [[0; 0]; [1; 0]].
Proof.
  destruct (get_er_vocab_key_set [(0, 0, 1); (1, 0, 2); (0, 0, 2)])
    as [-> _].
  reflexivity.
Defined.

(** ** Exceptions and side effects of [get_batch] *)

Lemma target_rows_Raise (N : nat) (batch : list key) (m : vocab) (e : exn) :
  target_rows N m batch = Raise e → e = IndexError.
Proof.
  revert m. induction batch as [|k batch IH]; intros m; simpl; [done|].
  destruct (vocab_getitem m k) as [m1 tails].
  intros [Hrow | (row & _ & Hrest)]%rbind_Raise.
  - unfold set_cols in Hrow. case_decide; [done | by injection Hrow].
  - apply rbind_Raise in Hrest as [Hrest | ([m2 rows] & _ & [=])].
    by eapply IH.
Qed.

(** X7. The only exception of [get_batch] is the [IndexError] of the
    assignment on line 52, and it is raised exactly when some key of the
    slice has a registered tail that is not a column of the target
    matrix (a tail id not below the entity count). *)
Theorem get_batch_index_error (B N : nat) (m : vocab) (keys : list key)
    (idx : nat) :
  (∀ e, get_batch B N m keys idx = Raise e → e = IndexError)
  ∧ ((∃ e, get_batch B N m keys idx = Raise e)
     ↔ Exists (λ k, Exists (λ t, N ≤ t) (vocab_get m k))
              (take B (drop idx keys))).
Proof.
  assert (Hraise : ∀ e, get_batch B N m keys idx = Raise e → e = IndexError).
  { unfold get_batch. intros e [Hrows | ([m1 rows] & _ & [=])]%rbind_Raise.
    by eapply target_rows_Raise. }
  split; [done|].
  assert (Hnot : Exists (λ k, Exists (λ t, N ≤ t) (vocab_get m k))
                        (take B (drop idx keys))
                 ↔ ¬ Forall (λ k, Forall (λ t, t < N) (vocab_get m k))
                            (take B (drop idx keys))).
  { split.
    - intros Hex Hall. apply Exists_exists in Hex as (k & Hk & Hex).
      apply Exists_exists in Hex as (t & Ht & HN).
      rewrite Forall_forall in Hall. specialize (Hall k Hk).
      rewrite Forall_forall in Hall. specialize (Hall t Ht). lia.
    - intros Hnall. apply not_Forall_Exists in Hnall; [|intros k; apply _].
      eapply Exists_impl; [exact Hnall|]. intros k Hk. simpl in Hk.
      apply not_Forall_Exists in Hk; [|intros t; apply _].
      eapply Exists_impl; [exact Hk|]. intros t. simpl. lia. }
  rewrite Hnot. split.
  - intros [e He] Hall. apply (get_batch_total B N m keys idx) in Hall.
    destruct Hall as [a Ha]. by rewrite Ha in He.
  - intros Hnall.
    destruct (result_cases (get_batch B N m keys idx))
      as [[[m' [batch targets]] Hok] | He]; [|done].
    exfalso. apply Hnall. unfold get_batch in Hok.
    rewrite slice_take_drop in Hok.
    apply rbind_Ok in Hok as ([m1 rows] & Hrows & _).
    by apply target_rows_Ok in Hrows as (_ & Hall & _).
Qed.

Lemma target_rows_frame (N : nat) (batch : list key) (m m' : vocab)
    (rows : list (list Q)) :
  target_rows N m batch = Ok (m', rows) →
  ∃ new, m' = m ++ new
         ∧ Forall (λ kv, kv.2 = [] ∧ kv.1 ∈ batch
                         ∧ vocab_lookup kv.1 m = None) new.
Proof.
  revert m m' rows. induction batch as [|k batch IH]; intros m m' rows; simpl.
  - intros [= <- <-]. exists []. by rewrite (right_id_L [] (++)).
  - destruct (vocab_getitem m k) as [m1 tails] eqn:Hget.
    intros Hb. apply rbind_Ok in Hb as (row & _ & Hb).
    apply rbind_Ok in Hb as ([m2 rows2] & Hrest & [= <- <-]).
    destruct (IH _ _ _ Hrest) as (new & -> & Hnew).
    apply vocab_getitem_spec in Hget as (_ & _ & [Hext _] & Habs & Hpres).
    assert (Hnew' : Forall (λ kv, kv.2 = [] ∧ kv.1 ∈ k :: batch
                                  ∧ vocab_lookup kv.1 m = None) new).
    { eapply Forall_impl; [exact Hnew|]. intros [k' v'] (Hv & Hin & Hnone).
      simpl in *. split_and!; [done | by right |].
      destruct (vocab_lookup k' m) as [v0|] eqn:Hm; [|done].
      apply Hext in Hm. congruence. }
    destruct (vocab_lookup k m) as [v|] eqn:Hm.
    + rewrite (Hpres ltac:(by eexists)). by exists new.
    + rewrite (Habs eq_refl). exists ((k, []) :: new).
      rewrite <- (assoc_L (++)). split; [done|].
      constructor; [|done]. simpl. split_and!; [done | left | done].
Qed.

Lemma get_batch_effect (B N : nat) (m m' : vocab) (keys batch : list key)
    (idx : nat) (targets : list (list Q)) :
  get_batch B N m keys idx = Ok (m', (batch, targets)) →
  (∃ new, m' = m ++ new
          ∧ Forall (λ kv, kv.2 = [] ∧ kv.1 ∈ batch
                          ∧ vocab_lookup kv.1 m = None) new)
  ∧ (Forall (λ k, is_Some (vocab_lookup k m)) batch → m' = m)
  ∧ (length keys ≤ idx → batch = [] ∧ targets = [] ∧ m' = m).
Proof.
  intros Hget. pose proof Hget as (Hb & Ht & _)%get_batch_Ok.
  unfold get_batch in Hget. rewrite slice_take_drop in Hget.
  apply rbind_Ok in Hget as ([m1 rows] & Hrows & [= <- <- <-]).
  destruct (target_rows_frame _ _ _ _ _ Hrows) as (new & -> & Hnew).
  assert (Hpresent : Forall (λ k, is_Some (vocab_lookup k m))
                            (take B (drop idx keys)) → m ++ new = m).
  { intros Hall. destruct new as [|[k v] new].
    - by rewrite (right_id_L [] (++)).
    - apply Forall_cons in Hnew as [(_ & Hin & Hnone) _]. simpl in *.
      rewrite Forall_forall in Hall. destruct (Hall k Hin) as [v' Hv'].
      congruence. }
  split_and!; [by exists new | done |].
  intros Hidx. rewrite drop_ge, take_nil in * by done.
  split_and!; [done | by rewrite Ht | by apply Hpresent].
Qed.

(** X8. What a call of [get_batch] does to the vocabulary: it only
    appends entries, each with an empty tail list and for a key of the
    slice that was absent; with every key of the slice present the
    vocabulary is left as it was.  An offset at or past the end of the key
    list gives the empty batch with an empty target matrix. *)
Theorem get_batch_frame (B N : nat) (m m' : vocab) (keys batch : list key)
    (idx : nat) (targets : list (list Q)) :
  get_batch B N m keys idx = Ok (m', (batch, targets)) →
  (∃ new, m' = m ++ new
          ∧ Forall (λ kv, kv.2 = [] ∧ kv.1 ∈ batch
                          ∧ vocab_lookup kv.1 m = None) new)
  ∧ (Forall (λ k, is_Some (vocab_lookup k m)) batch → m' = m)
  ∧ (length keys ≤ idx → batch = [] ∧ targets = [] ∧ m' = m).
Proof. apply get_batch_effect. Qed.

Lemma get_batch_frame_witness :
  get_batch 2 3 [([0; 0], [1; 2]); ([1; 0], [2])] [[0; 0]; [1; 0]] 0
  = Ok ([([0; 0], [1; 2]); ([1; 0], [2])],
        ([[0; 0]; [1; 0]], [[0; 1; 1]; [0; 0; 1]]%Q))
  ∧ ∃ new, [([0; 0], [1; 2]); ([1; 0], [2])]
           = [([0; 0], [1; 2]); ([1; 0], [2])] ++ new.
Proof.
  assert (Hrun : get_batch 2 3 [([0; 0], [1; 2]); ([1; 0], [2])]
                   [[0; 0]; [1; 0]] 0
                 = Ok ([([0; 0], [1; 2]); ([1; 0], [2])],
                       ([[0; 0]; [1; 0]], [[0; 1; 1]; [0; 0; 1]]%Q)))
    by (vm_compute; reflexivity).
  split; [exact Hrun|].
  destruct (get_batch_frame _ _ _ _ _ _ _ _ Hrun) as ((new & Hnew & _) & _).
  exists new. exact Hnew.
Defined.

(** ** The vocabulary during training *)

Section TrainingFrame.
Context `{Externals}.
Variables (self : Experiment) (d : Data) (data_dir : string).

Lemma train_batch_frame (st st' : locals) (j : nat) :
  train_batch self d st j = Ok st' →
  pairs_in_vocab st →
  er_vocab st' = er_vocab st ∧ er_vocab_pairs st' = er_vocab_pairs st
  ∧ training st' = training st ∧ grad_enabled st' = grad_enabled st
  ∧ gen st' = gen st ∧ is_Some (loss_var st').
Proof.
  unfold train_batch, pairs_in_vocab. intros Hb Hin.
  apply rbind_Ok in Hb as ([m1 [data_batch targets]] & Hget & Hb).
  apply rbind_Ok in Hb as (e1 & _ & Hb).
  apply rbind_Ok in Hb as (r & _ & Hb).
  apply rbind_Ok in Hb as (targets1 & _ & [= <-]). simpl.
  pose proof (get_batch_Ok _ _ _ _ _ _ _ _ Hget) as (Hbatch & _).
  destruct (get_batch_effect _ _ _ _ _ _ _ _ Hget) as (_ & Hsame & _).
  split_and!; try done. apply Hsame. subst data_batch.
  rewrite Forall_forall in *. intros k Hk. apply Hin.
  by eapply subseteq_drop, subseteq_take.
Qed.

Lemma train_loop_frame (st st' : locals) (offsets : list nat) :
  rfoldl (train_batch self d) st offsets = Ok st' →
  pairs_in_vocab st →
  er_vocab st' = er_vocab st ∧ er_vocab_pairs st' = er_vocab_pairs st
  ∧ training st' = training st ∧ grad_enabled st' = grad_enabled st
  ∧ gen st' = gen st.
Proof.
  intros Hloop Hin.
  apply (rfoldl_invariant
           (λ _ s, er_vocab s = er_vocab st
                   ∧ er_vocab_pairs s = er_vocab_pairs st
                   ∧ training s = training st
                   ∧ grad_enabled s = grad_enabled st ∧ gen s = gen st))
    in Hloop; [done | done |].
  intros pre j s1 s2 _ (Hv & Hp & Ht & Hg & Hr) Hstep.
  apply train_batch_frame in Hstep as (Hv' & Hp' & Ht' & Hg' & Hr' & _).
  - split_and!; congruence.
  - unfold pairs_in_vocab. by rewrite Hv, Hp.
Qed.

(** An epoch that returns has gone through its whole body. *)
Lemma epoch_Ok_inv (st st' : locals) (it : nat) :
  outcome (epoch self d data_dir st it) = Ok st' →
  ∃ offsets st2 st3,
    range_step (length (shuffle (gen st) (er_vocab_pairs st)).2)
               (batch_size self) = Ok offsets
    ∧ rfoldl (train_batch self d)
             (Locals (model st) true (grad_enabled st)
                     (shuffle (gen st) (er_vocab_pairs st)).1 (er_vocab st)
                     (shuffle (gen st) (er_vocab_pairs st)).2 (loss_var st))
             offsets = Ok st2
    ∧ er_vocab st3 = er_vocab st2 ∧ er_vocab_pairs st3 = er_vocab_pairs st2
    ∧ loss_var st3 = loss_var st2 ∧ is_Some (loss_var st3)
    ∧ outcome (evaluation_phase self d it st3) = Ok st'.
Proof.
  unfold epoch. cbv zeta.
  destruct (shuffle (gen st) (er_vocab_pairs st)) as [gen1 pairs1].
  cbn [fst snd].
  destruct (range_step (length pairs1) (batch_size self)) as [offsets|e]
    eqn:Hrange; [|done].
  rewrite lift_Ok_bind.
  destruct (rfoldl _ _ offsets) as [st2|e] eqn:Hloop; [|done].
  rewrite lift_Ok_bind.
  match goal with
  | |- context [lift (match loss_var ?s with _ => _ end)] =>
      set (st3 := s); destruct (loss_var st3) as [l|] eqn:Hl
  end; [|done].
  rewrite lift_Ok_bind, emit_bind_outcome, epoch_tail_outcome.
  intros Hev. exists offsets, st2, st3.
  split_and!; try done; try (by eexists).
  all: subst st3; by destruct (truthy (decay_rate self)).
Qed.

Lemma epoch_frame (st st' : locals) (it : nat) :
  shuffle_permutes →
  outcome (epoch self d data_dir st it) = Ok st' →
  pairs_in_vocab st →
  er_vocab st' = er_vocab st ∧ er_vocab_pairs st' ≡ₚ er_vocab_pairs st
  ∧ pairs_in_vocab st'.
Proof.
  intros Hperm Hok Hin.
  destruct (epoch_Ok_inv _ _ _ Hok)
    as (offsets & st2 & st3 & _ & Hloop & Hv3 & Hp3 & _ & _ & Hev).
  apply train_loop_frame in Hloop as (Hv2 & Hp2 & _); simpl in *.
  2:{ unfold pairs_in_vocab. simpl. unfold pairs_in_vocab in Hin.
      by rewrite (Hperm (gen st) (er_vocab_pairs st)). }
  apply evaluation_phase_outcome in Hev as (_ & _ & Hv' & Hp' & _).
  assert (Hv : er_vocab st' = er_vocab st) by congruence.
  assert (Hp : er_vocab_pairs st' ≡ₚ er_vocab_pairs st).
  { rewrite Hp', Hp3, Hp2. apply Hperm. }
  split_and!; [done | done |].
  unfold pairs_in_vocab in *. by rewrite Hv, Hp.
Qed.
End TrainingFrame.

Lemma run_foldl_invariant `{Externals} {A B : Type} (P : B → Prop)
    (f : B → A → run B) (l : list A) (b b' : B) :
  P b →
  (∀ b1 x b2, P b1 → outcome (f b1 x) = Ok b2 → P b2) →
  outcome (run_foldl f b l) = Ok b' → P b'.
Proof.
  revert b. induction l as [|x l IH]; intros b H0 Hstep; simpl.
  - by intros [= <-].
  - intros (b1 & Hx & Hrest)%run_bind_outcome_Ok.
    apply (IH b1); [by eapply Hstep | done | done].
Qed.

Lemma vocab_keys_in_vocab (m : vocab) :
  Forall (λ k, is_Some (vocab_lookup k m)) (vocab_keys m).
Proof.
  apply Forall_forall. intros k Hk.
  destruct (vocab_lookup k m) as [v|] eqn:Hm; [by eexists|].
  by apply vocab_lookup_None in Hm.
Qed.

(** X9. Training never changes the vocabulary: with a shuffle that only
    reorders, after any number of completed epochs the vocabulary is the
    one built before the loop (no key is added by the lookups of
    [get_batch], no tail list is touched), and the key list iterated by
    the batch loop is still a permutation of the initial one, so every
    epoch serves each key of the vocabulary exactly once.  The state in
    which [train_and_eval] enters the loop, the keys of the vocabulary
    itself, is such a starting point. *)
Theorem training_keeps_vocabulary `{Externals} (self : Experiment) (d : Data)
    (data_dir : string) (st st' : locals) (its : list nat) :
  shuffle_permutes →
  pairs_in_vocab st →
  outcome (run_foldl (epoch self d data_dir) st its) = Ok st' →
  er_vocab st' = er_vocab st
  ∧ er_vocab_pairs st' ≡ₚ er_vocab_pairs st
  ∧ ∀ mdl g idxs,
      pairs_in_vocab (Locals mdl true true g (get_er_vocab idxs)
                             (vocab_keys (get_er_vocab idxs)) None).
Proof.
  intros Hperm Hin Hok.
  apply (run_foldl_invariant
           (λ s, er_vocab s = er_vocab st
                 ∧ er_vocab_pairs s ≡ₚ er_vocab_pairs st
                 ∧ pairs_in_vocab s)) in Hok.
  - destruct Hok as (Hv & Hp & _). split_and!; [done | done |].
    intros mdl g idxs. apply vocab_keys_in_vocab.
  - done.
  - intros s1 it s2 (Hv & Hp & Hin1) Hep.
    apply epoch_frame in Hep as (Hv' & Hp' & Hin'); [|done..].
    split_and!; [congruence | by rewrite Hp' | done].
Qed.

Lemma toy_shuffle_permutes : @shuffle_permutes toy_externals.
Proof. intros g l. simpl. apply reverse_Permutation. Qed.

Lemma training_keeps_vocabulary_witness :
  ∃ st',
    outcome (run_foldl (epoch (toy_experiment "HypER" 2) toy_data "data")
                       toy_locals [1; 2]) = Ok st'
    ∧ er_vocab st' = er_vocab toy_locals.
Proof.
  assert (Hrun : ∃ st',
            outcome (run_foldl (epoch (toy_experiment "HypER" 2) toy_data
                                      "data") toy_locals [1; 2]) = Ok st').
  { eexists. vm_compute. reflexivity. }
  destruct Hrun as [st' Hrun]. exists st'. split; [exact Hrun|].
  destruct (training_keeps_vocabulary (toy_experiment "HypER" 2) toy_data
              "data" toy_locals st' [1; 2] toy_shuffle_permutes
              (vocab_keys_in_vocab _) Hrun) as (Hv & _).
  exact Hv.
Defined.

(** ** Hits and ranks *)

Lemma hits_of_ranks_snoc (ranks : list nat) (rank : nat) :
  imap (λ hits_level h,
          h ++ [if decide (rank ≤ hits_level) then 1%Q else 0%Q])
       (hits_of_ranks ranks)
  = hits_of_ranks (ranks ++ [rank + 1]).
Proof.
  unfold hits_of_ranks. apply list_eq. intros level.
  rewrite list_lookup_imap, !list_lookup_fmap.
  destruct (seq 0 10 !! level) as [lv|] eqn:Hlv; [|done].
  apply lookup_seq in Hlv as [-> _]. simpl. rewrite fmap_app. simpl.
  do 3 f_equal. repeat case_decide; (done || lia).
Qed.

Lemma rank_step_hits (sort_idxs : list (list nat)) (e2_idx ranks ranks' : list nat)
    (hits hits' : list (list Q)) (j : nat) :
  rank_step sort_idxs e2_idx (ranks, hits) j = Ok (ranks', hits') →
  hits = hits_of_ranks ranks ∧ Forall (λ rk, 1 ≤ rk) ranks →
  hits' = hits_of_ranks ranks' ∧ Forall (λ rk, 1 ≤ rk) ranks'
  ∧ length ranks' = S (length ranks).
Proof.
  unfold rank_step. intros Hb [-> Hpos].
  apply rbind_Ok in Hb as (idxs & _ & Hb).
  apply rbind_Ok in Hb as (t & _ & Hb).
  apply rbind_Ok in Hb as (rank & _ & [= <- <-]).
  split_and!.
  - apply hits_of_ranks_snoc.
  - apply Forall_app. split; [done|]. constructor; [lia | constructor].
  - rewrite length_app. simpl. lia.
Qed.

Lemma rank_loop_hits (sort_idxs : list (list nat)) (e2_idx ranks ranks' : list nat)
    (hits hits' : list (list Q)) (js : list nat) :
  rfoldl (rank_step sort_idxs e2_idx) (ranks, hits) js = Ok (ranks', hits') →
  hits = hits_of_ranks ranks ∧ Forall (λ rk, 1 ≤ rk) ranks →
  hits' = hits_of_ranks ranks' ∧ Forall (λ rk, 1 ≤ rk) ranks'
  ∧ length ranks' = length ranks + length js.
Proof.
  intros Hloop [Hh Hpos].
  apply (rfoldl_invariant
           (λ pre acc, acc.2 = hits_of_ranks acc.1
                       ∧ Forall (λ rk, 1 ≤ rk) acc.1
                       ∧ length acc.1 = length ranks + length pre))
    in Hloop; [done | simpl; split_and!; [done | done | lia] |].
  intros pre j [r1 h1] [r2 h2] _ (Hh1 & Hp1 & Hl1) Hstep. simpl in *.
  apply rank_step_hits in Hstep as (Hh2 & Hp2 & Hl2); [|done].
  split_and!; [done | done |]. rewrite length_app. simpl. lia.
Qed.

Section EvaluateHits.
Context `{Externals}.
Variables (self : Experiment) (entity_idxs relation_idxs : gmap string nat).
Variables (d : Data) (mdl : model_state) (training : bool).

Lemma evaluate_batch_hits (tks : list key) (m m' : vocab)
    (ranks ranks' : list nat) (hits hits' : list (list Q)) (i : nat) :
  evaluate_batch self d mdl training tks (m, ranks, hits) i
  = Ok (m', ranks', hits') →
  hits = hits_of_ranks ranks ∧ Forall (λ rk, 1 ≤ rk) ranks →
  hits' = hits_of_ranks ranks' ∧ Forall (λ rk, 1 ≤ rk) ranks'
  ∧ length ranks'
    = length ranks + length (take (batch_size self) (drop i tks)).
Proof.
  unfold evaluate_batch. intros Hb Hinv.
  apply rbind_Ok in Hb as ([m1 [data_batch targets]] & Hget & Hb).
  apply rbind_Ok in Hb as (e1 & _ & Hb).
  apply rbind_Ok in Hb as (r & _ & Hb).
  apply rbind_Ok in Hb as (e2 & _ & Hb).
  apply rbind_Ok in Hb as ([m2 preds1] & _ & Hb).
  apply rbind_Ok in Hb as ([ranks1 hits1] & Hrank & [= <- <- <-]).
  apply get_batch_Ok in Hget as (-> & _).
  apply rank_loop_hits in Hrank as (Hh & Hp & Hl); [|done].
  by rewrite length_seq in Hl.
Qed.

Lemma evaluate_hits_inv (dat : list raw_triple) (v' : vocab)
    (ranks : list nat) (hits : list (list Q)) :
  evaluate self entity_idxs relation_idxs d mdl training dat
  = Ok (v', ranks, hits) →
  hits = hits_of_ranks ranks ∧ Forall (λ rk, 1 ≤ rk) ranks.
Proof.
  unfold evaluate. intros Hb.
  apply rbind_Ok in Hb as (tds & _ & Hb).
  apply rbind_Ok in Hb as (full & _ & Hb).
  apply rbind_Ok in Hb as (offsets & _ & Hloop).
  apply (rfoldl_invariant
           (λ _ st, st.2 = hits_of_ranks st.1.2
                    ∧ Forall (λ rk, 1 ≤ rk) st.1.2)) in Hloop;
    [done | by split | ].
  intros pre o [[m1 r1] h1] [[m2 r2] h2] _ Hinv Hstep. simpl in *.
  by apply evaluate_batch_hits in Hstep as (? & ? & _).
Qed.
End EvaluateHits.

Lemma hits_of_ranks_lookup (ranks : list nat) (level k rk : nat) :
  level < 10 → ranks !! k = Some rk →
  ∃ h, hits_of_ranks ranks !! level = Some h
       ∧ h !! k = Some (if decide (rk ≤ level + 1) then 1%Q else 0%Q).
Proof.
  intros Hlevel Hk. unfold hits_of_ranks. eexists. split.
  - rewrite list_lookup_fmap, lookup_seq_lt by done. reflexivity.
  - rewrite list_lookup_fmap, Hk. reflexivity.
Qed.

(** X10. The hit lists of [evaluate] are determined by its ranks: there
    are ten of them, list [level] has one entry per evaluation triple,
    1.0 when the rank of that triple is at most [level + 1] and 0.0
    otherwise; hence a triple counted for Hits@k is counted for every
    Hits@k' with [k ≤ k'], and every rank is at least 1. *)
Theorem evaluate_hits `{Externals} (self : Experiment)
    (entity_idxs relation_idxs : gmap string nat) (d : Data)
    (mdl : model_state) (training : bool) (dat : list raw_triple)
    (v' : vocab) (ranks : list nat) (hits : list (list Q)) :
  evaluate self entity_idxs relation_idxs d mdl training dat
  = Ok (v', ranks, hits) →
  hits = hits_of_ranks ranks
  ∧ length hits = 10
  ∧ Forall (λ h, length h = length ranks) hits
  ∧ Forall (λ rk, 1 ≤ rk) ranks
  ∧ (∀ level k rk, level < 10 → ranks !! k = Some rk →
       ∃ h, hits !! level = Some h
            ∧ h !! k = Some (if decide (rk ≤ level + 1) then 1%Q else 0%Q))
  ∧ (∀ level level' k h h', level ≤ level' →
       hits !! level = Some h → hits !! level' = Some h' →
       h !! k = Some 1%Q → h' !! k = Some 1%Q).
Proof.
  intros [-> Hpos]%evaluate_hits_inv. split_and!; [done | done | | done | |].
  - unfold hits_of_ranks. apply Forall_fmap, Forall_forall. intros level _.
    simpl. by rewrite length_fmap.
  - intros level k rk. apply hits_of_ranks_lookup.
  - intros level level' k h h' Hle Hh Hh' Hk.
    assert (Hlt : level' < 10).
    { apply lookup_lt_Some in Hh'. unfold hits_of_ranks in Hh'.
      by rewrite length_fmap, length_seq in Hh'. }
    destruct (ranks !! k) as [rk|] eqn:Hrk.
    + destruct (hits_of_ranks_lookup ranks level k rk ltac:(lia) Hrk)
        as (h0 & Hh0 & Hk0).
      destruct (hits_of_ranks_lookup ranks level' k rk Hlt Hrk)
        as (h1 & Hh1 & Hk1).
      rewrite Hh in Hh0. injection Hh0 as <-.
      rewrite Hh' in Hh1. injection Hh1 as <-.
      rewrite Hk in Hk0. rewrite Hk1. f_equal.
      destruct (decide (rk ≤ level + 1)) as [Hr|Hr]; [|by injection Hk0].
      by rewrite decide_True by lia.
    + unfold hits_of_ranks in Hh. rewrite list_lookup_fmap in Hh.
      destruct (seq 0 10 !! level); [|done]. injection Hh as <-.
      rewrite list_lookup_fmap, Hrk in Hk. done.
Qed.

Lemma evaluate_hits_witness :
  evaluate (toy_experiment "HypER" 2) (build_idxs (entities toy_data))
           (build_idxs (relations toy_data)) toy_data toy_model false
           (test_data toy_data)
  = Ok ([([0; 0], [1; 2]); ([1; 0], [2; 0]); ([2; 0], [0]); ([1; 0; 0], [])],
        [2], [0%Q] :: replicate 9 [1%Q])
  ∧ [0%Q] :: replicate 9 [1%Q] = hits_of_ranks [2].
Proof.
  split; [exact evaluate_toy_test|].
  destruct (evaluate_hits _ _ _ _ _ _ _ _ _ _ evaluate_toy_test) as (Hh & _).
  exact Hh.
Defined.

(** ** Ranks of a whole evaluation *)

(** Every rank that [evaluate] returns is the filtered rank of its
    triple; the statement keeps the rank list whole, for the properties
    below. *)
Lemma evaluate_ranks_spec `{Externals} (self : Experiment) (d : Data)
    (mdl : model_state) (training : bool) (dat : list raw_triple)
    (tds full : list idx_triple) :
  0 < batch_size self →
  argsort_permutes →
  forward_shape (length (entities d)) mdl training →
  get_data_idxs (build_idxs (entities d)) (build_idxs (relations d)) dat
  = Ok tds →
  get_data_idxs (build_idxs (entities d)) (build_idxs (relations d)) (data d)
  = Ok full →
  ∃ v' ranks hits,
    evaluate self (build_idxs (entities d)) (build_idxs (relations d)) d
             mdl training dat
    = Ok (v', ranks, hits)
    ∧ length ranks = length tds
    ∧ ∀ k rk, ranks !! k = Some rk →
        filtered_rank (batch_size self) mdl training (get_er_vocab full)
                      tds k rk.
Proof.
  intros HB Hsort Hshape Htds Hfull.
  pose (N := length (entities d)).
  assert (Hbound : ∀ k i, build_idxs (entities d) !! k = Some i → i < N).
  { intros k i. apply build_idxs_bound. }
  assert (Htails : Forall (λ tr : idx_triple, tr.2 < N) tds).
  { eapply Forall_impl; [exact (get_data_idxs_bound _ _ _ _ _ Hbound Htds)|].
    by intros tr [_ ?]. }
  assert (Hftails : Forall (λ tr : idx_triple, tr.2 < N) full).
  { eapply Forall_impl; [exact (get_data_idxs_bound _ _ _ _ _ Hbound Hfull)|].
    by intros tr [_ ?]. }
  destruct (rfoldl_total
    (λ pre st,
       vocab_extends (get_er_vocab full) st.1.1 ∧ vocab_bounded N st.1.1
       ∧ length st.1.2 = Nat.min (length pre * batch_size self) (length tds)
       ∧ ∀ k rk, st.1.2 !! k = Some rk →
                 filtered_rank (batch_size self) mdl training
                               (get_er_vocab full) tds k rk)
    (evaluate_batch self d mdl training (tuple3 <$> tds))
    ((λ q, q * batch_size self)
       <$> seq 0 (div_ceil (length tds) (batch_size self)))
    (get_er_vocab full, [], replicate 10 []))
    as ([[v' ranks] hits] & Hloop & _ & _ & Hlen & Hranks).
  - simpl. split_and!; [apply vocab_extends_refl
                       | by apply get_er_vocab_bounded | done | done].
  - intros pre x [[m ranks] hits] [-> Hq]%prefix_offsets_snoc
      (Hext & Hbd & Hlen & Hranks). simpl in *.
    pose proof (offset_in_range _ _ _ HB Hq) as Hoff.
    destruct (evaluate_batch_spec self d mdl training tds full HB Hsort Hshape
                Htails Hftails m ranks hits (length pre) Hext Hbd Hoff)
      as (m' & rs & hits' & Hstep & Hext' & Hbd' & Hrs_len & Hrs).
    eexists. split; [exact Hstep|]. simpl.
    split_and!; [done | done | |].
    + rewrite !length_app, Hlen, Hrs_len, length_take, length_drop.
      simpl. nia.
    + intros k rk. destruct (decide (k < length ranks)) as [Hk|Hk].
      * rewrite lookup_app_l by done. apply Hranks.
      * rewrite lookup_app_r by lia. intros Hrk%Hrs.
        replace (length pre * batch_size self + (k - length ranks)) with k
          in Hrk; [done | lia].
  - exists v', ranks, hits. simpl in *. split_and!; [| | done].
    + unfold evaluate. step_Ok Htds. step_Ok Hfull.
      rewrite range_step_closed by done. simpl. exact Hloop.
    + rewrite Hlen, length_fmap, length_seq.
      pose proof (div_ceil_cover (length tds) (batch_size self) HB). lia.
Qed.

Lemma first_index_Ok (idxs : list nat) (t p : nat) :
  first_index idxs t = Ok p ↔
  idxs !! p = Some t ∧ ∀ j c, j < p → idxs !! j = Some c → c ≠ t.
Proof.
  unfold first_index.
  destruct (list_find (λ x, x = t) idxs) as [[p' y]|] eqn:Hfind.
  - apply list_find_Some in Hfind as (Hp' & -> & Hbefore). split.
    + intros [= <-]. split; [done|]. intros j c Hj Hc. by eapply Hbefore.
    + intros [Hp Hfirst]. f_equal.
      destruct (Nat.lt_trichotomy p p') as [Hlt | [-> | Hgt]]; [|done|].
      * by destruct (Hbefore p t Hp Hlt).
      * by destruct (Hfirst p' t Hgt Hp').
  - split; [done|]. intros [Hp _].
    apply list_find_None in Hfind. rewrite Forall_forall in Hfind.
    destruct (Hfind t); [by eapply list_elem_of_lookup_2 | done].
Qed.

Lemma filtered_scores_lookup (row : list Q) (filt : list nat) (t c : nat)
    (x : Q) :
  row !! c = Some x →
  filtered_scores row filt t !! c
  = Some (if decide (c = t) then x
          else if decide (c ∈ filt) then 0%Q else x).
Proof.
  intros Hc. unfold filtered_scores. by rewrite list_lookup_imap, Hc.
Qed.

Lemma score_row_width `{Externals} (N B : nat) (mdl : model_state)
    (training : bool) (tds : list idx_triple) (k : nat) (row : list Q) :
  forward_shape N mdl training →
  score_row B mdl training tds k = Some row → length row = N.
Proof.
  intros Hshape Hrow. unfold score_row in Hrow.
  destruct (Hshape ((λ tr : idx_triple, tr.1.1) <$> take B (drop (k / B * B) tds))
                   ((λ tr : idx_triple, tr.1.2) <$> take B (drop (k / B * B) tds)))
    as [_ Hrows]; [by rewrite !length_fmap|].
  rewrite Forall_forall in Hrows. eapply Hrows, list_elem_of_lookup_2, Hrow.
Qed.

(** The position of the target among the sorted indices: at most the
    length of the row, and, for a descending sort and a positive raw
    score of the target, at most the number of rivals that the filter
    leaves. *)
Lemma filtered_position_bound `{Externals} (row : list Q) (filt : list nat)
    (t p : nat) :
  argsort_permutes →
  first_index (argsort_desc (filtered_scores row filt t)) t = Ok p →
  p < length row
  ∧ (argsort_descending → (∀ x, row !! t = Some x → (0 < x)%Q) →
     p ≤ length (unfiltered_rivals (length row) filt t)).
Proof.
  intros Hperm [Hp Hfirst]%first_index_Ok.
  set (l := filtered_scores row filt t) in *.
  assert (Hlen : length (argsort_desc l) = length row).
  { rewrite (Hperm l), length_seq. apply filtered_scores_length. }
  assert (Hin : ∀ c, c ∈ argsort_desc l ↔ c < length row).
  { intros c. rewrite (Hperm l), elem_of_seq. unfold l.
    rewrite filtered_scores_length. lia. }
  assert (Hnd : NoDup (argsort_desc l)).
  { rewrite (Hperm l). apply NoDup_seq. }
  split.
  { rewrite <- Hlen. by eapply lookup_lt_Some. }
  intros Hdesc Hpos.
  assert (Ht : t < length row).
  { apply Hin. by eapply list_elem_of_lookup_2. }
  destruct (lookup_lt_is_Some_2 row t Ht) as [x Hx].
  specialize (Hpos x Hx).
  assert (Hsub : take p (argsort_desc l) ⊆+ unfiltered_rivals (length row) filt t).
  { apply NoDup_submseteq.
    - eapply sublist_NoDup; [exact Hnd | apply sublist_take].
    - intros c Hc. apply elem_of_take in Hc as (j & Hj & Hjp).
      assert (Hclt : c < length row).
      { apply Hin. by eapply list_elem_of_lookup_2. }
      pose proof (Hfirst j c Hjp Hj) as Hct.
      unfold unfiltered_rivals. apply list_elem_of_filter.
      split; [|apply elem_of_seq; lia].
      split; [done|]. intros Hcf.
      destruct (lookup_lt_is_Some_2 row c Hclt) as [y Hy].
      pose proof (filtered_scores_lookup row filt t c y Hy) as Hlc.
      rewrite decide_False, decide_True in Hlc by done.
      pose proof (filtered_scores_lookup row filt t t x Hx) as Hlt.
      rewrite decide_True in Hlt by done.
      pose proof (Hdesc l j p c t 0%Q x ltac:(lia) Hj Hp Hlc Hlt) as Hle.
      apply (Qlt_not_le _ _ Hpos Hle). }
  apply submseteq_length in Hsub.
  rewrite length_take in Hsub.
  assert (p < length (argsort_desc l)) by (by eapply lookup_lt_Some). lia.
Qed.

(** The small instance sorts in descending order. *)
Lemma insert_desc_sorted (l : list Q) (i : nat) (acc : list nat) :
  StronglySorted (λ a b, (nth b l 0 <= nth a l 0)%Q) acc →
  StronglySorted (λ a b, (nth b l 0 <= nth a l 0)%Q) (insert_desc l i acc).
Proof.
  induction 1 as [|j acc Hacc IH Hj]; simpl.
  - repeat constructor.
  - destruct (Qle_bool (nth j l 0%Q) (nth i l 0%Q)) eqn:Hle.
    + apply Qle_bool_iff in Hle.
      constructor; [by constructor|].
      constructor; [done|].
      eapply Forall_impl; [exact Hj|]. intros b Hb. simpl in *.
      by eapply Qle_trans.
    + assert (Hlt : (nth i l 0 <= nth j l 0)%Q).
      { apply Qlt_le_weak, Qnot_le_lt. intros Hc.
        apply Qle_bool_iff in Hc. congruence. }
      constructor; [done|].
      rewrite (insert_desc_perm l i acc). by constructor.
Qed.

Lemma stable_argsort_desc_sorted (l : list Q) :
  StronglySorted (λ a b, (nth b l 0 <= nth a l 0)%Q) (stable_argsort_desc l).
Proof.
  unfold stable_argsort_desc.
  induction (seq 0 (length l)) as [|i idxs IH]; simpl; [constructor|].
  by apply insert_desc_sorted.
Qed.

Lemma StronglySorted_lookup_le {A : Type} (R : A → A → Prop) (l : list A)
    (i j : nat) (a b : A) :
  StronglySorted R l → i < j → l !! i = Some a → l !! j = Some b → R a b.
Proof.
  intros Hs. revert i j. induction Hs as [|x l Hs IH Hx]; intros i j Hij Hi Hj.
  - by rewrite lookup_nil in Hi.
  - destruct j as [|j]; [lia|]. simpl in Hj. destruct i as [|i]; simpl in Hi.
    + injection Hi as <-. rewrite Forall_forall in Hx.
      eapply Hx, list_elem_of_lookup_2, Hj.
    + apply (IH i j); [lia | done | done].
Qed.

Lemma toy_argsort_descending : @argsort_descending toy_externals.
Proof.
  intros l i j a b x y Hij Ha Hb Hx Hy. simpl in Ha, Hb.
  destruct (decide (i = j)) as [->|Hne].
  - rewrite Ha in Hb. injection Hb as <-. rewrite Hx in Hy.
    injection Hy as <-. apply Qle_refl.
  - pose proof (StronglySorted_lookup_le _ _ i j a b
                  (stable_argsort_desc_sorted l) ltac:(lia) Ha Hb) as Hle.
    simpl in Hle.
    by rewrite (nth_lookup_Some _ _ _ _ Hx), (nth_lookup_Some _ _ _ _ Hy)
      in Hle.
Qed.

(** X11. The range of the ranks.  Under the contracts of the model and of
    the sort, every rank that [evaluate] returns lies between 1 and the
    number of entities.  When moreover the sort is descending and the raw
    score of the true tail is positive, no known tail of the filter set
    is ranked before it: its rank is at most 1 + the number of entities
    outside the filter set (the true tail apart). *)
Theorem evaluate_rank_range `{Externals} (self : Experiment) (d : Data)
    (mdl : model_state) (training : bool) (dat : list raw_triple)
    (tds full : list idx_triple) :
  0 < batch_size self →
  argsort_permutes →
  forward_shape (length (entities d)) mdl training →
  get_data_idxs (build_idxs (entities d)) (build_idxs (relations d)) dat
  = Ok tds →
  get_data_idxs (build_idxs (entities d)) (build_idxs (relations d)) (data d)
  = Ok full →
  ∃ v' ranks hits,
    evaluate self (build_idxs (entities d)) (build_idxs (relations d)) d
             mdl training dat
    = Ok (v', ranks, hits)
    ∧ Forall (λ rk, 1 ≤ rk ≤ length (entities d)) ranks
    ∧ (argsort_descending →
       ∀ k h r t row x rk,
         tds !! k = Some (h, r, t) →
         score_row (batch_size self) mdl training tds k = Some row →
         row !! t = Some x → (0 < x)%Q →
         ranks !! k = Some rk →
         rk ≤ 1 + length (unfiltered_rivals
                            (length (entities d))
                            (vocab_get (get_er_vocab full) [h; r]) t)).
Proof.
  intros HB Hsort Hshape Htds Hfull.
  destruct (evaluate_ranks_spec self d mdl training dat tds full HB Hsort
              Hshape Htds Hfull) as (v' & ranks & hits & Hev & Hlen & Hranks).
  exists v', ranks, hits. split_and!; [done | |].
  - apply Forall_lookup. intros k rk Hrk.
    destruct (Hranks k rk Hrk) as (tr & row & p & _ & Hrow & Hp & ->).
    apply (score_row_width _ _ _ _ _ _ _ Hshape) in Hrow.
    apply (filtered_position_bound _ _ _ _ Hsort) in Hp as [Hp _]. lia.
  - intros Hdesc k h r t row x rk Hk Hrow Hx Hpos Hrk.
    destruct (Hranks k rk Hrk) as (tr & row' & p & Htr & Hrow' & Hp & ->).
    rewrite Hk in Htr. injection Htr as <-.
    rewrite Hrow in Hrow'. injection Hrow' as <-. simpl in Hp.
    apply (filtered_position_bound _ _ _ _ Hsort) in Hp as [_ Hp].
    rewrite (score_row_width _ _ _ _ _ _ _ Hshape Hrow) in Hp.
    apply le_n_S, Hp; [done|]. intros x' Hx'. congruence.
Qed.

Lemma evaluate_rank_range_witness :
  ∃ v' ranks hits,
    evaluate (toy_experiment "HypER" 2) (build_idxs (entities toy_data))
             (build_idxs (relations toy_data)) toy_data
             toy_model false (valid_data toy_data)
    = Ok (v', ranks, hits)
    ∧ Forall (λ rk, 1 ≤ rk ≤ 3) ranks
    ∧ ∀ rk, ranks !! 0 = Some rk →
        rk ≤ 1 + length (unfiltered_rivals 3
                           (vocab_get
                              (get_er_vocab [(0, 0, 1); (1, 0, 2); (2, 0, 0);
                                             (0, 0, 2); (1, 0, 0)]) [0; 0])
                           2).
Proof.
  assert (HB : 0 < batch_size (toy_experiment "HypER" 2)) by (simpl; lia).
  assert (Htds : get_data_idxs (build_idxs (entities toy_data))
                   (build_idxs (relations toy_data)) (valid_data toy_data)
                 = Ok [(0, 0, 2)]) by (vm_compute; reflexivity).
  assert (Hfull : get_data_idxs (build_idxs (entities toy_data))
                    (build_idxs (relations toy_data)) (data toy_data)
                  = Ok [(0, 0, 1); (1, 0, 2); (2, 0, 0); (0, 0, 2); (1, 0, 0)])
    by (vm_compute; reflexivity).
  destruct (evaluate_rank_range (toy_experiment "HypER" 2) toy_data
              toy_model false (valid_data toy_data) _ _
              HB toy_argsort_permutes (toy_forward_shape 3 false) Htds Hfull)
    as (v' & ranks & hits & Hev & Hrange & Hbound).
  exists v', ranks, hits. split; [exact Hev|]. split; [exact Hrange|].
  intros rk Hrk.
  apply (Hbound toy_argsort_descending 0 0 0 2 [0; 3; 1]%Q 1%Q rk);
    [reflexivity | vm_compute; reflexivity | reflexivity | reflexivity
     | exact Hrk].
Defined.

(** ** Batched and per-triple evaluation *)

Lemma score_row_rowwise `{Externals} (N B : nat) (mdl : model_state)
    (training : bool) (f : nat → nat → list Q) (tds : list idx_triple)
    (k : nat) (tr : idx_triple) :
  forward_rowwise N mdl training f → 0 < B → tds !! k = Some tr →
  score_row B mdl training tds k = Some (f tr.1.1 tr.1.2).
Proof.
  intros [Hf _] HB Hk. unfold score_row. rewrite Hf.
  assert (Htr : take B (drop (k / B * B) tds) !! (k `mod` B) = Some tr).
  { rewrite lookup_take_lt by (apply Nat.mod_upper_bound; lia).
    rewrite lookup_drop. rewrite <- Hk. f_equal.
    pose proof (Nat.div_mod_eq k B). lia. }
  rewrite lookup_zip_with, !list_lookup_fmap, Htr. done.
Qed.

Lemma forward_rowwise_shape `{Externals} (N : nat) (mdl : model_state)
    (training : bool) (f : nat → nat → list Q) :
  forward_rowwise N mdl training f → forward_shape N mdl training.
Proof.
  intros [Hf Hlen] hs rs Hhr. rewrite Hf. split.
  - rewrite length_zip_with. lia.
  - apply Forall_forall. intros row Hrow.
    apply list_elem_of_lookup in Hrow as [i Hi].
    rewrite lookup_zip_with in Hi.
    destruct (hs !! i) as [h|]; [|done]. simpl in Hi.
    destruct (rs !! i) as [r|]; [|done]. simpl in Hi.
    injection Hi as <-. apply Hlen.
Qed.

(** X12. Batching does not change the result of an evaluation: for a
    model that scores each (head, relation) pair on its own, two
    experiments that differ in their (positive) batch size return the
    same ranks and the same hit lists on the same data, in particular the
    ranks of a per-triple evaluation (batch size 1). *)
Theorem evaluate_batch_size_independent `{Externals}
    (self1 self2 : Experiment) (d : Data) (mdl : model_state)
    (training : bool) (f : nat → nat → list Q) (dat : list raw_triple)
    (tds full : list idx_triple) :
  0 < batch_size self1 → 0 < batch_size self2 →
  argsort_permutes →
  forward_rowwise (length (entities d)) mdl training f →
  get_data_idxs (build_idxs (entities d)) (build_idxs (relations d)) dat
  = Ok tds →
  get_data_idxs (build_idxs (entities d)) (build_idxs (relations d)) (data d)
  = Ok full →
  ∃ v1 v2 ranks hits,
    evaluate self1 (build_idxs (entities d)) (build_idxs (relations d)) d
             mdl training dat
    = Ok (v1, ranks, hits)
    ∧ evaluate self2 (build_idxs (entities d)) (build_idxs (relations d)) d
               mdl training dat
      = Ok (v2, ranks, hits).
Proof.
  intros HB1 HB2 Hsort Hrow Htds Hfull.
  pose proof (forward_rowwise_shape _ _ _ _ Hrow) as Hshape.
  destruct (evaluate_ranks_spec self1 d mdl training dat tds full HB1 Hsort
              Hshape Htds Hfull) as (v1 & ranks1 & hits1 & Hev1 & Hlen1 & Hr1).
  destruct (evaluate_ranks_spec self2 d mdl training dat tds full HB2 Hsort
              Hshape Htds Hfull) as (v2 & ranks2 & hits2 & Hev2 & Hlen2 & Hr2).
  assert (Hranks : ranks1 = ranks2).
  { apply list_eq. intros k.
    destruct (ranks1 !! k) as [rk1|] eqn:Hk1.
    - destruct (lookup_lt_is_Some_2 ranks2 k) as [rk2 Hk2].
      { rewrite Hlen2, <- Hlen1. by eapply lookup_lt_Some. }
      rewrite Hk2. f_equal.
      destruct (Hr1 k rk1 Hk1) as (tr & row & p & Htr & Hrow1 & Hp & ->).
      destruct (Hr2 k rk2 Hk2) as (tr' & row' & p' & Htr' & Hrow2 & Hp' & ->).
      rewrite Htr in Htr'. injection Htr' as <-.
      rewrite (score_row_rowwise _ _ _ _ _ _ _ _ Hrow HB1 Htr) in Hrow1.
      rewrite (score_row_rowwise _ _ _ _ _ _ _ _ Hrow HB2 Htr) in Hrow2.
      injection Hrow1 as <-. injection Hrow2 as <-.
      rewrite Hp in Hp'. by injection Hp' as <-.
    - symmetry. apply lookup_ge_None_2. rewrite Hlen2, <- Hlen1.
      by apply lookup_ge_None_1. }
  subst ranks2.
  pose proof (evaluate_hits_inv _ _ _ _ _ _ _ _ _ _ Hev1) as [-> _].
  pose proof (evaluate_hits_inv _ _ _ _ _ _ _ _ _ _ Hev2) as [-> _].
  by exists v1, v2, ranks1, (hits_of_ranks ranks1).
Qed.

Lemma toy_forward_rowwise (training : bool) :
  @forward_rowwise toy_externals 3 toy_model training
    (λ h r, (λ e, toy_score h r e) <$> seq 0 3).
Proof.
  split.
  - intros hs rs. simpl. unfold toy_model.
    revert rs. induction hs as [|h hs IH]; intros [|r rs]; simpl; [done..|].
    f_equal. apply IH.
  - intros h r. by rewrite length_fmap, length_seq.
Qed.

Lemma evaluate_batch_size_independent_witness :
  ∃ v1 v2 ranks hits,
    evaluate (toy_experiment "HypER" 1) (build_idxs (entities toy_data))
             (build_idxs (relations toy_data)) toy_data toy_model false
             (data toy_data)
    = Ok (v1, ranks, hits)
    ∧ evaluate (toy_experiment "HypER" 2) (build_idxs (entities toy_data))
               (build_idxs (relations toy_data)) toy_data toy_model false
               (data toy_data)
      = Ok (v2, ranks, hits).
Proof.
  assert (HB1 : 0 < batch_size (toy_experiment "HypER" 1)) by (simpl; lia).
  assert (HB2 : 0 < batch_size (toy_experiment "HypER" 2)) by (simpl; lia).
  assert (Hfull : get_data_idxs (build_idxs (entities toy_data))
                    (build_idxs (relations toy_data)) (data toy_data)
                  = Ok [(0, 0, 1); (1, 0, 2); (2, 0, 0); (0, 0, 2); (1, 0, 0)])
    by (vm_compute; reflexivity).
  exact (evaluate_batch_size_independent
           (toy_experiment "HypER" 1) (toy_experiment "HypER" 2) toy_data
           toy_model false _ (data toy_data) _ _ HB1 HB2 toy_argsort_permutes
           (toy_forward_rowwise false) Hfull Hfull).
Defined.

(** ** Exceptions and edge cases of [evaluate] *)

(** X13. How [evaluate] fails and what it does on an empty split.  A
    [KeyError] of the split is raised first; the filter vocabulary is
    rebuilt from the full dataset at every call, so an identifier of any
    split that is absent from the indices makes every evaluation raise
    that [KeyError], whatever split is evaluated; a batch size of 0 is a
    [ValueError], even on an empty split; and on an empty split with a
    positive batch size [evaluate] returns no rank, ten empty hit lists
    and the filter vocabulary as built. *)
Theorem evaluate_edge_cases `{Externals} (self : Experiment)
    (entity_idxs relation_idxs : gmap string nat) (d : Data)
    (mdl : model_state) (training : bool) (dat : list raw_triple) :
  (∀ e, get_data_idxs entity_idxs relation_idxs dat = Raise e →
        evaluate self entity_idxs relation_idxs d mdl training dat = Raise e)
  ∧ (∀ e, is_Ok (get_data_idxs entity_idxs relation_idxs dat) →
          get_data_idxs entity_idxs relation_idxs (data d) = Raise e →
          evaluate self entity_idxs relation_idxs d mdl training dat
          = Raise e)
  ∧ (is_Ok (get_data_idxs entity_idxs relation_idxs dat) →
     is_Ok (get_data_idxs entity_idxs relation_idxs (data d)) →
     batch_size self = 0 →
     evaluate self entity_idxs relation_idxs d mdl training dat
     = Raise ValueError)
  ∧ (∀ full, dat = [] → 0 < batch_size self →
       get_data_idxs entity_idxs relation_idxs (data d) = Ok full →
       evaluate self entity_idxs relation_idxs d mdl training dat
       = Ok (get_er_vocab full, [], replicate 10 [])).
Proof.
  unfold evaluate. split_and!.
  - intros e He. by rewrite He.
  - intros e [tds Htds] He. rewrite Htds. simpl. by rewrite He.
  - intros [tds Htds] [full Hfull] HB. rewrite Htds. simpl. rewrite Hfull.
    simpl. unfold range_step. by rewrite HB, decide_True.
  - intros full -> HB Hfull. simpl. rewrite Hfull. simpl.
    unfold range_step. rewrite decide_False by lia. done.
Qed.

(** ** What a run writes *)

Section Written.
Context `{Externals}.
Variables (self : Experiment) (d : Data) (data_dir : string).

Lemma written_app (l1 l2 : list event) :
  written (l1 ++ l2) = written l1 ++ written l2.
Proof. apply omap_app. Qed.

Lemma written_avgloss (it : nat) (ls : list Q) (l : list event) :
  written (AvgLoss it ls :: l) = written l.
Proof. done. Qed.

Lemma evaluation_phase_written (it : nat) (st : locals) :
  written (events (evaluation_phase self d it st)) = [].
Proof.
  rewrite evaluation_phase_events.
  repeat (case_decide || case_match); done.
Qed.

(** An epoch writes its checkpoint, all of it and nothing else, exactly
    when it completes. *)
Lemma epoch_written (st : locals) (it : nat) :
  written (events (epoch self d data_dir st it))
  = match outcome (epoch self d data_dir st it) with
    | Ok _ => checkpoint_paths self data_dir
    | Raise _ => []
    end.
Proof.
  destruct (epoch_unfold self d data_dir st it) as [[e ->] | (st3 & l & _ & ->)];
    [done|].
  rewrite emit_bind_events, emit_bind_outcome, epoch_tail_events,
    epoch_tail_outcome.
  rewrite written_avgloss, written_app, evaluation_phase_written.
  by destruct (outcome (evaluation_phase self d it st3)).
Qed.

Lemma epochs_written (st : locals) (its : list nat) :
  ∃ n, n ≤ length its
       ∧ written (events (run_foldl (epoch self d data_dir) st its))
         = mjoin (replicate n (checkpoint_paths self data_dir))
       ∧ (is_Ok (outcome (run_foldl (epoch self d data_dir) st its)) →
          n = length its).
Proof.
  revert st. induction its as [|it its IH]; intros st.
  { exists 0. split_and!; done. }
  cbn [run_foldl]. rewrite run_bind_events, run_bind_outcome, written_app,
    epoch_written.
  destruct (outcome (epoch self d data_dir st it)) as [st'|e].
  - destruct (IH st') as (n & Hn & Hw & Hok). exists (S n).
    split_and!; [simpl; lia | by rewrite Hw | ].
    intros Hr. simpl. f_equal. by apply Hok.
  - exists 0. split_and!; [simpl; lia | done | by intros [? [=]]].
Qed.
End Written.

Lemma train_and_eval_run `{Externals} (self : Experiment) (d : Data)
    (data_dir : string) (gen0 : rng) (idxs : list idx_triple) (v : variant) :
  get_data_idxs (build_idxs (entities d)) (build_idxs (relations d))
                (train_data d) = Ok idxs →
  select_model (model_name self) = Some v →
  let st0 := Locals (init (construct v d)) true true gen0 (get_er_vocab idxs)
                    (vocab_keys (get_er_vocab idxs)) None in
  events (train_and_eval self d data_dir gen0)
  = [SavedKeys (data_dir +:+ "/entities.npy") (build_idxs (entities d));
     SavedKeys (data_dir +:+ "/relations.npy") (build_idxs (relations d))]
    ++ events (run_foldl (epoch self d data_dir) st0
                         (seq 1 (num_iterations self)))
  ∧ outcome (train_and_eval self d data_dir gen0)
    = match outcome (run_foldl (epoch self d data_dir) st0
                               (seq 1 (num_iterations self))) with
      | Ok _ => Ok ()
      | Raise e => Raise e
      end.
Proof.
  intros Hidx Hsel st0. unfold train_and_eval. cbv zeta.
  rewrite Hidx, lift_Ok_bind, Hsel.
  rewrite !emit_bind_events, !emit_bind_outcome, lift_Ok_bind.
  rewrite run_bind_events, run_bind_outcome. fold st0.
  destruct (outcome (run_foldl (epoch self d data_dir) st0
                               (seq 1 (num_iterations self)))); split; try done.
  all: simpl; by rewrite ?(right_id_L [] (++)).
Qed.

(** *** Paths of the script's data directory *)

Lemma string_app_cons (x : ascii) (a b : string) :
  String x a +:+ b = String x (a +:+ b).
Proof. reflexivity. Qed.

Lemma string_app_nil (b : string) : "" +:+ b = b.
Proof. reflexivity. Qed.

Lemma string_app_assoc (a b c : string) : (a +:+ b) +:+ c = a +:+ (b +:+ c).
Proof.
  induction a as [|x a IH]; [done|]. by rewrite !string_app_cons, IH.
Qed.

Lemma split_slash_plain (c : string) :
  has_slash c = false → split_slash c = [c].
Proof.
  induction c as [|x c IH]; simpl; [done|].
  intros [Hx Hc]%orb_false_elim. rewrite Hx, (IH Hc). done.
Qed.

Lemma split_slash_app (c s : string) :
  has_slash c = false →
  split_slash (c +:+ String "/" s) = c :: split_slash s.
Proof.
  induction c as [|x c IH]; [by rewrite string_app_nil|].
  cbn [has_slash]. intros [Hx Hc]%orb_false_elim.
  rewrite string_app_cons. cbn [split_slash]. by rewrite Hx, (IH Hc).
Qed.

(** The directory that the script passes, [data/<dataset>/], with [sub]
    appended after a slash: the doubled slash is dropped. *)
Lemma Path_script_dir (dataset sub : string) :
  plain_component dataset → plain_component sub →
  Path (("data/" +:+ dataset +:+ "/") +:+ String "/" sub)
  = {| path_root := ""; path_parts := ["data"; dataset; sub] |}.
Proof.
  intros (Hd & Hd1 & Hd2) (Hs & Hs1 & Hs2).
  assert (Hstr : ("data/" +:+ dataset +:+ "/") +:+ String "/" sub
                 = "data" +:+ String "/"
                     (dataset +:+ String "/" ("" +:+ String "/" sub))).
  { by rewrite !string_app_assoc, !string_app_cons, !string_app_nil. }
  unfold Path. f_equal.
  rewrite Hstr, !split_slash_app, split_slash_plain by done.
  rewrite filter_cons_True by done.
  rewrite filter_cons_True by done.
  rewrite filter_cons_False by (by intros [? _]).
  rewrite filter_cons_True by done.
  done.
Qed.

Lemma select_model_lower (name : string) (v : variant) :
  select_model name = Some v → lower name = variant_name v.
Proof. unfold select_model. repeat case_decide; intros [= <-]; done. Qed.

Lemma checkpoint_paths_script (self : Experiment) (dataset : string)
    (v : variant) :
  plain_component dataset →
  select_model (model_name self) = Some v →
  checkpoint_paths self ("data/" +:+ dataset +:+ "/")
  = ["data/" +:+ dataset +:+ "/model";
     "data/" +:+ dataset +:+ "/model/" +:+ variant_name v +:+ "_model.torch";
     "data/" +:+ dataset +:+ "/embeddings";
     "data/" +:+ dataset +:+ "/embeddings/" +:+ variant_name v
       +:+ "_entity_embeddings.torch";
     "data/" +:+ dataset +:+ "/embeddings/" +:+ variant_name v
       +:+ "_relation_embeddings.torch"].
Proof.
  intros Hd Hv%select_model_lower. unfold checkpoint_paths. cbv zeta.
  rewrite Hv.
  change (("data/" +:+ dataset +:+ "/") +:+ "/model")
    with (("data/" +:+ dataset +:+ "/") +:+ String "/" "model").
  change (("data/" +:+ dataset +:+ "/") +:+ "/embeddings")
    with (("data/" +:+ dataset +:+ "/") +:+ String "/" "embeddings").
  rewrite !Path_script_dir by done.
  destruct v; reflexivity.
Qed.

(** X14. What a run leaves on storage, the storage calls themselves
    taken to return.  A run that completes has written the two index
    files and then, once per epoch, the same five checkpoint paths (two
    directories, the model state and the two embedding files, keyed by
    the lower-cased model name): every epoch overwrites the files of the
    one before.  A run that raises has written a prefix of that:
    nothing, or the index files followed by one whole checkpoint for each
    epoch it completed.  The checkpoint paths are those that [pathlib]
    makes of the directory: for the directory [data/<dataset>/] that the
    script passes, [data/<dataset>/model], the model file in it, and
    [data/<dataset>/embeddings] with the two embedding files, the doubled
    slash of the concatenation dropped; the index files keep it, their
    names being concatenated strings. *)
Theorem run_written `{Externals} (self : Experiment) (d : Data)
    (data_dir : string) (gen0 : rng) :
  (is_Ok (outcome (train_and_eval self d data_dir gen0)) →
   written (events (train_and_eval self d data_dir gen0))
   = index_paths data_dir
     ++ mjoin (replicate (num_iterations self)
                         (checkpoint_paths self data_dir)))
  ∧ (written (events (train_and_eval self d data_dir gen0)) = []
     ∨ ∃ n, n ≤ num_iterations self
            ∧ written (events (train_and_eval self d data_dir gen0))
              = index_paths data_dir
                ++ mjoin (replicate n (checkpoint_paths self data_dir)))
  ∧ (∀ dataset v,
       plain_component dataset →
       select_model (model_name self) = Some v →
       checkpoint_paths self ("data/" +:+ dataset +:+ "/")
       = ["data/" +:+ dataset +:+ "/model";
          "data/" +:+ dataset +:+ "/model/" +:+ variant_name v
            +:+ "_model.torch";
          "data/" +:+ dataset +:+ "/embeddings";
          "data/" +:+ dataset +:+ "/embeddings/" +:+ variant_name v
            +:+ "_entity_embeddings.torch";
          "data/" +:+ dataset +:+ "/embeddings/" +:+ variant_name v
            +:+ "_relation_embeddings.torch"]
       ∧ index_paths ("data/" +:+ dataset +:+ "/")
         = ["data/" +:+ dataset +:+ "//entities.npy";
            "data/" +:+ dataset +:+ "//relations.npy"]).
Proof.
  split_and!; [| |intros dataset v Hd Hv; split;
                   [by apply checkpoint_paths_script|]].
  3:{ unfold index_paths.
      by rewrite !string_app_assoc, !string_app_cons, !string_app_nil. }
  all: destruct (get_data_idxs (build_idxs (entities d))
              (build_idxs (relations d)) (train_data d)) as [idxs|e] eqn:Hidx.
  all: try (destruct (train_and_eval_unfold self d data_dir gen0)
        as [(e' & _ & ->) | [([idxs Hok] & _) | (st0 & _ & Hev & _)]];
      [first [by intros [? [=]] | by left] | congruence |
       exfalso; revert Hev; unfold train_and_eval; cbv zeta;
       rewrite Hidx; done]).
  all: destruct (select_model (model_name self)) as [v|] eqn:Hsel.
  all: try (destruct (train_and_eval_unfold self d data_dir gen0)
        as [(e' & He' & _) | [(_ & _ & ->) | (st0 & [v Hv] & _)]];
        [congruence | | congruence];
      first [by intros [? [=]] | right; exists 0; split; [lia | done]]).
  all: destruct (train_and_eval_run self d data_dir gen0 idxs v Hidx Hsel)
    as [Hev Hout]; rewrite Hev, ?Hout, written_app.
  all: match goal with
  | |- context [run_foldl _ ?s _] =>
      destruct (epochs_written self d data_dir s (seq 1 (num_iterations self)))
        as (n & Hn & Hw & Hok)
  end.
  all: rewrite length_seq in Hn, Hok; rewrite Hw.
  - intros Hr. rewrite Hok; [done|].
    match goal with
    | H : is_Ok (match ?o with _ => _ end) |- _ =>
        destruct o; [by eexists | by destruct H]
    end.
  - right. by exists n.
Qed.

Lemma run_written_witness :
  is_Ok (outcome (train_and_eval (toy_experiment "HypER" 2) toy_data
                                 "data/toy/" toy_gen))
  ∧ written (events (train_and_eval (toy_experiment "HypER" 2) toy_data
                                    "data/toy/" toy_gen))
    = ["data/toy//entities.npy"; "data/toy//relations.npy";
       "data/toy/model"; "data/toy/model/hyper_model.torch";
       "data/toy/embeddings";
       "data/toy/embeddings/hyper_entity_embeddings.torch";
       "data/toy/embeddings/hyper_relation_embeddings.torch";
       "data/toy/model"; "data/toy/model/hyper_model.torch";
       "data/toy/embeddings";
       "data/toy/embeddings/hyper_entity_embeddings.torch";
       "data/toy/embeddings/hyper_relation_embeddings.torch"].
Proof.
  assert (Hok : is_Ok (outcome (train_and_eval (toy_experiment "HypER" 2)
                                               toy_data "data/toy/" toy_gen))).
  { exists tt. vm_compute. reflexivity. }
  split; [exact Hok|].
  destruct (run_written (toy_experiment "HypER" 2) toy_data "data/toy/"
                        toy_gen) as (Hdone & _ & Hpaths).
  rewrite (Hdone Hok).
  destruct (Hpaths "toy" HypER) as [Hcp Hix]; [by split_and! | done |].
  change ("data/" +:+ "toy" +:+ "/") with "data/toy/" in Hcp, Hix.
  rewrite Hcp, Hix. reflexivity.
Defined.

(** ** Edge cases of a run *)

(** X15. Three degenerate runs of [train_and_eval], each with a known
    architecture name and training triples that index.  With zero
    iterations the run completes and has written the two index files,
    nothing else.  With a batch size of 0 and at least one iteration the
    first epoch raises the [ValueError] of [range], and with an empty
    training split (and a positive batch size) it raises
    [UnboundLocalError] on [loss], which no batch has assigned; in both
    cases the index files are all that has been written, and no loss, no
    evaluation and no checkpoint has happened. *)
Theorem degenerate_runs `{Externals} (self : Experiment) (d : Data)
    (data_dir : string) (gen0 : rng) (idxs : list idx_triple) (v : variant) :
  get_data_idxs (build_idxs (entities d)) (build_idxs (relations d))
                (train_data d) = Ok idxs →
  select_model (model_name self) = Some v →
  let r := train_and_eval self d data_dir gen0 in
  let index_events :=
    [SavedKeys (data_dir +:+ "/entities.npy") (build_idxs (entities d));
     SavedKeys (data_dir +:+ "/relations.npy") (build_idxs (relations d))] in
  (num_iterations self = 0 → outcome r = Ok () ∧ events r = index_events)
  ∧ (0 < num_iterations self → batch_size self = 0 →
     outcome r = Raise ValueError ∧ events r = index_events)
  ∧ (0 < num_iterations self → 0 < batch_size self → shuffle_permutes →
     train_data d = [] →
     outcome r = Raise (UnboundLocalError "loss") ∧ events r = index_events).
Proof.
  intros Hidx Hsel r index_events. subst r index_events.
  destruct (train_and_eval_run self d data_dir gen0 idxs v Hidx Hsel)
    as [-> ->].
  split_and!.
  - intros ->. simpl. done.
  - intros Hn HB. destruct (num_iterations self) as [|n]; [lia|].
    cbn [seq run_foldl]. rewrite run_bind_events, run_bind_outcome.
    assert (Hep : ∀ st, epoch self d data_dir st 1 = Run [] (Raise ValueError)).
    { intros st. unfold epoch. cbv zeta.
      destruct (shuffle (gen st) (er_vocab_pairs st)) as [g1 p1].
      unfold range_step. rewrite HB, decide_True by done. done. }
    rewrite Hep. simpl. done.
  - intros Hn HB Hperm Hempty. destruct (num_iterations self) as [|n]; [lia|].
    cbn [seq run_foldl]. rewrite run_bind_events, run_bind_outcome.
    assert (Hidxs : idxs = []).
    { rewrite Hempty in Hidx. simpl in Hidx. by injection Hidx as <-. }
    subst idxs.
    match goal with
    | |- context [epoch self d data_dir ?s 1] =>
        assert (Hep : epoch self d data_dir s 1
                      = Run [] (Raise (UnboundLocalError "loss")))
    end.
    { unfold epoch. cbv zeta. cbn [gen er_vocab_pairs].
      pose proof (Hperm gen0 (vocab_keys (get_er_vocab []))) as Hsh.
      destruct (shuffle gen0 (vocab_keys (get_er_vocab []))) as [g1 p1].
      cbn [snd] in Hsh. apply Permutation_nil_r in Hsh. subst p1.
      unfold range_step. rewrite decide_False by lia. simpl.
      by destruct (truthy (decay_rate self)). }
    rewrite Hep. simpl. done.
Qed.

Lemma degenerate_runs_witness :
  outcome (train_and_eval
             {| model_name := "ConvE"; num_iterations := 3; batch_size := 0;
                decay_rate := 0; label_smoothing := 0 |}
             toy_data "data" toy_gen)
  = Raise ValueError.
Proof.
  destruct (degenerate_runs
              {| model_name := "ConvE"; num_iterations := 3; batch_size := 0;
                 decay_rate := 0; label_smoothing := 0 |}
              toy_data "data" toy_gen [(0, 0, 1); (1, 0, 2); (2, 0, 0)] ConvE
              ltac:(vm_compute; reflexivity) ltac:(vm_compute; reflexivity))
    as (_ & Hzero & _).
  destruct (Hzero ltac:(simpl; lia) eq_refl) as [Hout _].
  exact Hout.
Defined.

(** ** The architecture name *)

Lemma lower_char_idemp (c : ascii) : lower_char (lower_char c) = lower_char c.
Proof.
  destruct c as [[] [] [] [] [] [] [] []]; vm_compute; reflexivity.
Qed.

Lemma lower_idemp (s : string) : lower (lower s) = lower s.
Proof.
  induction s as [|c s IH]; simpl; [done|].
  by rewrite lower_char_idemp, IH.
Qed.

(** X16. The selection of the architecture depends on the name only
    through its lower-case form, and decodes the five names without
    overlap: an architecture is selected exactly when the lower-cased
    name is its name, each architecture is selected by its own name in
    any capitalisation, and a name that lowers to none of the five
    selects nothing. *)
Theorem select_model_spec (name : string) :
  (∀ v, select_model name = Some v ↔ lower name = variant_name v)
  ∧ select_model (lower name) = select_model name
  ∧ (∀ v, select_model (variant_name v) = Some v)
  ∧ (select_model name = None ↔ ∀ v, lower name ≠ variant_name v).
Proof.
  assert (Hspec : ∀ s v, select_model s = Some v ↔ lower s = variant_name v).
  { intros s v. unfold select_model. split.
    - repeat case_decide; intros [= <-]; done.
    - intros Hv. rewrite Hv. by destruct v. }
  assert (Hnone : ∀ s, select_model s = None ↔ ∀ v, lower s ≠ variant_name v).
  { intros s. split.
    - intros Hs v Hv. apply Hspec in Hv. congruence.
    - intros Hs. destruct (select_model s) as [v|] eqn:Hv; [|done].
      apply Hspec in Hv. by destruct (Hs v). }
  split_and!; [apply Hspec | | | apply Hnone].
  - unfold select_model. by rewrite lower_idemp.
  - intros v. apply Hspec. by destruct v.
Qed.

(** ** Runs that complete *)

Lemma rmap_app_inv {A B : Type} (f : A → result B) (l1 l2 : list A)
    (out : list B) :
  rmap f (l1 ++ l2) = Ok out →
  ∃ o1 o2, rmap f l1 = Ok o1 ∧ rmap f l2 = Ok o2 ∧ out = o1 ++ o2.
Proof.
  intros Hout. apply rmap_Ok in Hout.
  apply Forall2_app_inv_l in Hout as (o1 & o2 & H1 & H2 & ->).
  exists o1, o2. by rewrite !rmap_Ok.
Qed.

Lemma column_total (c : nat) (batch : list key) :
  c < 2 → Forall (λ k, length k = 2) batch → is_Ok (column c batch).
Proof.
  intros Hc. unfold column. induction 1 as [|k batch Hk _ [cs IH]].
  - by eexists.
  - destruct (lookup_lt_is_Some_2 k c ltac:(lia)) as [x Hx].
    exists (x :: cs). apply rmap_Ok. constructor.
    + by apply row_getitem_Ok.
    + by apply rmap_Ok.
Qed.

Lemma smooth_targets_total (s : Q) (N : nat) (targets : list (list Q)) :
  0 < N → is_Ok (smooth_targets s N targets).
Proof.
  intros HN. unfold smooth_targets. destruct (truthy s); [|by eexists].
  rewrite decide_False by lia. by eexists.
Qed.

Lemma run_foldl_total `{Externals} {A B : Type} (P : B → Prop)
    (f : B → A → run B) (l : list A) (b : B) :
  P b →
  (∀ b1 x, P b1 → ∃ b2, outcome (f b1 x) = Ok b2 ∧ P b2) →
  ∃ b', outcome (run_foldl f b l) = Ok b' ∧ P b'.
Proof.
  intros Hb Hstep. revert b Hb.
  induction l as [|x l IH]; intros b Hb; [by exists b|].
  destruct (Hstep b x Hb) as (b2 & Hf & Hb2).
  destruct (IH b2 Hb2) as (b' & Hrun & Hb').
  exists b'. split; [|done].
  cbn [run_foldl]. by rewrite run_bind_outcome, Hf.
Qed.

Lemma get_er_vocab_nonempty (dat : list idx_triple) :
  dat ≠ [] → get_er_vocab dat ≠ [].
Proof.
  destruct dat as [|tr dat _] using rev_ind; [done|]. intros _ Hnil.
  apply (f_equal vocab_keys) in Hnil.
  rewrite get_er_vocab_snoc, vocab_append_keys in Hnil.
  case_decide as Hk.
  - rewrite Hnil in Hk. by apply elem_of_nil in Hk.
  - by destruct (vocab_keys (get_er_vocab dat)).
Qed.

Section Completes.
Context `{Externals}.
Variables (self : Experiment) (d : Data) (data_dir : string).
Variables (tds_valid tds_test full : list idx_triple).
Variable good : model_state → Prop.

Hypothesis HB : 0 < batch_size self.
Hypothesis HN : 0 < length (entities d).
Hypothesis Hshuffle : shuffle_permutes.
Hypothesis Hsort : argsort_permutes.
Hypothesis Hstep : model_contract (length (entities d)) good.
Hypothesis Hvalid :
  get_data_idxs (build_idxs (entities d)) (build_idxs (relations d))
                (valid_data d) = Ok tds_valid.
Hypothesis Htest :
  get_data_idxs (build_idxs (entities d)) (build_idxs (relations d))
                (test_data d) = Ok tds_test.
Hypothesis Hfull :
  get_data_idxs (build_idxs (entities d)) (build_idxs (relations d))
                (data d) = Ok full.

(** The batch loop body returns on keys of the vocabulary. *)
Lemma train_batch_total (st : locals) (j : nat) :
  vocab_bounded (length (entities d)) (er_vocab st) →
  Forall (λ k, length k = 2) (er_vocab_pairs st) →
  good (model st) →
  ∃ st', train_batch self d st j = Ok st' ∧ good (model st').
Proof.
  intros Hbound Hlen Hgood. unfold train_batch.
  destruct (get_batch_bounded_total (batch_size self) (length (entities d))
              (er_vocab st) (er_vocab_pairs st) j Hbound)
    as [[m' [batch targets]] Hgb].
  rewrite Hgb. cbn.
  apply get_batch_Ok in Hgb as (-> & _).
  assert (Hlen' : Forall (λ k : key, length k = 2)
                    (take (batch_size self) (drop j (er_vocab_pairs st)))).
  { apply Forall_take, Forall_drop, Hlen. }
  destruct (column_total 0 _ ltac:(lia) Hlen') as [e1 ->].
  destruct (column_total 1 _ ltac:(lia) Hlen') as [r1 ->]. cbn.
  destruct (smooth_targets_total (label_smoothing self) (length (entities d))
              targets HN) as [t1 ->].
  cbn. eexists. split; [done|]. cbn [model]. by apply Hstep.
Qed.

Lemma evaluation_phase_total (it : nat) (st : locals) :
  good (model st) → is_Ok (outcome (evaluation_phase self d it st)).
Proof.
  intros Hgood.
  assert (Hshape : forward_shape (length (entities d)) (model st) false)
    by (by apply Hstep).
  unfold evaluation_phase. cbv zeta. cbn [training grad_enabled model].
  case_decide as Hsplits; [|by eexists].
  rewrite emit_bind_outcome.
  destruct (evaluate_ranks_spec self d (model st) false (valid_data d)
              tds_valid full HB Hsort Hshape Hvalid Hfull)
    as (v1 & ranks1 & hits1 & -> & _).
  rewrite lift_Ok_bind, emit_bind_outcome, run_bind_outcome.
  case_decide as Heven; [|by eexists].
  rewrite emit_bind_outcome.
  destruct (evaluate_ranks_spec self d (model st) false (test_data d)
              tds_test full HB Hsort Hshape Htest Hfull)
    as (v2 & ranks2 & hits2 & -> & _).
  rewrite lift_Ok_bind. by eexists.
Qed.

Lemma epoch_total (V0 : vocab) (st : locals) (it : nat) :
  vocab_bounded (length (entities d)) V0 →
  Forall (λ k, length k = 2) (vocab_keys V0) →
  V0 ≠ [] →
  epoch_inv good V0 st →
  ∃ st', outcome (epoch self d data_dir st it) = Ok st'
         ∧ epoch_inv good V0 st'.
Proof.
  intros Hbound Hlen Hne (HV & Hkeys & Hgood).
  assert (Hin : pairs_in_vocab st).
  { unfold pairs_in_vocab. rewrite HV, Hkeys. apply vocab_keys_in_vocab. }
  cut (∃ st3, good (model st3)
              ∧ outcome (epoch self d data_dir st it)
                = outcome (evaluation_phase self d it st3)).
  { intros (st3 & Hgood3 & Hout).
    destruct (evaluation_phase_total it st3 Hgood3) as [st' Hst'].
    exists st'. split; [congruence|].
    apply evaluation_phase_outcome in Hst' as Hev.
    destruct Hev as (_ & Hmodel & _).
    rewrite <- Hout in Hst'.
    destruct (epoch_frame self d data_dir st st' it Hshuffle Hst' Hin)
      as (HV' & Hkeys' & _).
    split_and!; [congruence | by rewrite Hkeys' | by rewrite Hmodel]. }
  unfold epoch. cbv zeta.
  pose proof (Hshuffle (gen st) (er_vocab_pairs st)) as Hperm.
  destruct (shuffle (gen st) (er_vocab_pairs st)) as [gen1 pairs1].
  cbn [snd] in Hperm.
  rewrite range_step_closed, lift_Ok_bind by done.
  assert (Hpos : 0 < div_ceil (length pairs1) (batch_size self)).
  { pose proof (div_ceil_cover (length pairs1) (batch_size self) HB).
    assert (0 < length pairs1); [|nia].
    rewrite Hperm, Hkeys. unfold vocab_keys. rewrite length_fmap.
    destruct V0; [done | simpl; lia]. }
  match goal with
  | |- context [rfoldl ?f ?s ?l] =>
      destruct (rfoldl_total
                  (λ pre b, er_vocab b = V0 ∧ er_vocab_pairs b = pairs1
                            ∧ good (model b)
                            ∧ (pre ≠ [] → is_Some (loss_var b)))
                  f l s) as (st2 & Hloop & _ & _ & Hgood2 & Hloss)
  end.
  { by split_and!. }
  { intros pre x b1 _ (Hb1 & Hp1 & Hg1 & _).
    destruct (train_batch_total b1 x) as (b2 & Hb2 & Hg2).
    - by rewrite Hb1.
    - rewrite Hp1, Hperm, Hkeys. done.
    - done.
    - exists b2. split; [done|].
      destruct (train_batch_frame self d b1 b2 x Hb2) as (? & ? & _ & _ & _ & ?).
      + unfold pairs_in_vocab. rewrite Hb1, Hp1, Hperm, Hkeys.
        apply vocab_keys_in_vocab.
      + split_and!; [congruence | congruence | done | done]. }
  rewrite Hloop, lift_Ok_bind.
  destruct Hloss as [l Hl].
  { destruct (div_ceil (length pairs1) (batch_size self)); [lia | done]. }
  match goal with
  | |- context [lift (match loss_var ?s with _ => _ end)] =>
      exists s;
      assert (Hl3 : loss_var s = Some l) by (by destruct (truthy _));
      rewrite Hl3
  end.
  split.
  - destruct (truthy _); [cbn [model]; by apply Hstep | done].
  - by rewrite lift_Ok_bind, emit_bind_outcome, epoch_tail_outcome.
Qed.
End Completes.

(** X17. A run completes without an exception when the architecture name
    is known, the batch size is positive, the training split is not
    empty, every identifier of the three splits is listed, and the
    collaborators keep their contracts: [shuffle] reorders, the sort
    returns a permutation of the columns, and the model, from its
    initialisation on and through every optimiser and scheduler step,
    returns one row of entity scores per input pair.  Then no lookup, no
    slice, no target column and no rank search of the training or
    evaluation code fails. *)
Theorem run_completes `{Externals} (self : Experiment) (d : Data)
    (data_dir : string) (gen0 : rng) (v : variant) (full : list idx_triple)
    (good : model_state → Prop) :
  select_model (model_name self) = Some v →
  0 < batch_size self →
  train_data d ≠ [] →
  get_data_idxs (build_idxs (entities d)) (build_idxs (relations d))
                (data d) = Ok full →
  shuffle_permutes →
  argsort_permutes →
  model_contract (length (entities d)) good →
  good (init (construct v d)) →
  outcome (train_and_eval self d data_dir gen0) = Ok ().
Proof.
  intros Hsel HB Htrain Hfull Hshuffle Hsort Hstep Hinit.
  pose proof Hfull as Hsplit. unfold data, get_data_idxs in Hsplit.
  apply rmap_app_inv in Hsplit as (idxs & rest & Hidx & Hrest & _).
  apply rmap_app_inv in Hrest as (tds_valid & tds_test & Hvalid & Htest & _).
  assert (Hidxs : idxs ≠ []).
  { intros ->. apply rmap_Ok in Hidx. apply Forall2_nil_inv_r in Hidx.
    done. }
  pose proof (get_data_idxs_bound _ _ (length (entities d)) _ _
                (build_idxs_bound (entities d)) Hidx) as Hbd.
  assert (HN : 0 < length (entities d)).
  { destruct idxs as [|tr idxs]; [done|].
    apply Forall_cons in Hbd as [[? _] _]. lia. }
  destruct (train_and_eval_run self d data_dir gen0 idxs v Hidx Hsel)
    as [_ ->].
  match goal with
  | |- context [run_foldl ?f ?s ?l] =>
      destruct (run_foldl_total (epoch_inv good (get_er_vocab idxs)) f l s)
        as (st' & -> & _); [| |done]
  end.
  - by split_and!.
  - intros st it Hinv.
    apply (epoch_total self d data_dir tds_valid tds_test full good
             HB HN Hshuffle Hsort Hstep Hvalid Htest Hfull); [| | |done].
    + apply get_er_vocab_bounded. eapply Forall_impl; [exact Hbd|].
      by intros tr [_ ?].
    + apply get_er_vocab_keys.
    + by apply get_er_vocab_nonempty.
Qed.

Lemma run_completes_witness :
  outcome (train_and_eval (toy_experiment "DistMult" 2) toy_data "data"
                          toy_gen) = Ok ().
Proof.
  apply (run_completes (toy_experiment "DistMult" 2) toy_data "data" toy_gen
           DistMult
           [(0, 0, 1); (1, 0, 2); (2, 0, 0); (0, 0, 2); (1, 0, 0)]
           (λ m, m = 3)).
  - vm_compute. reflexivity.
  - simpl. lia.
  - discriminate.
  - vm_compute. reflexivity.
  - exact toy_shuffle_permutes.
  - exact toy_argsort_permutes.
  - split_and!; [done | done |].
    intros m tr ->. apply toy_forward_shape.
  - reflexivity.
Defined.

(** ** The printed metrics *)

Lemma np_sum_le {A : Type} (f g : A → Q) (l : list A) :
  Forall (λ x, (f x <= g x)%Q) l → (np_sum (f <$> l) <= np_sum (g <$> l))%Q.
Proof.
  induction 1 as [|x l Hx _ IH]; [apply Qle_refl|].
  cbn. by apply Qplus_le_compat.
Qed.

Lemma np_sum_nonneg {A : Type} (f : A → Q) (l : list A) :
  Forall (λ x, (0 <= f x)%Q) l → (0 <= np_sum (f <$> l))%Q.
Proof.
  induction 1 as [|x l Hx _ IH]; [apply Qle_refl|].
  cbn. apply Qle_trans with (0 + 0)%Q; [apply Qle_refl|].
  by apply Qplus_le_compat.
Qed.

Lemma np_sum_const {A : Type} (c : Q) (l : list A) :
  (np_sum ((λ _, c) <$> l) == c * inject_Z (Z.of_nat (length l)))%Q.
Proof.
  induction l as [|x l IH]; [cbn; ring|].
  cbn [fmap list_fmap np_sum foldr length]. fold (np_sum ((λ _, c) <$> l)).
  rewrite IH, Nat2Z.inj_succ, <- Z.add_1_r, inject_Z_plus. ring.
Qed.

Lemma np_mean_le {A : Type} (f g : A → Q) (l : list A) (x y : Q) :
  Forall (λ a, (f a <= g a)%Q) l →
  np_mean (f <$> l) = Some x → np_mean (g <$> l) = Some y → (x <= y)%Q.
Proof.
  intros Hle Hx Hy. destruct l as [|a l]; [done|].
  injection Hx as <-. injection Hy as <-.
  change (np_sum (f <$> a :: l)
          / inject_Z (Z.of_nat (length (f <$> a :: l)))
          <= np_sum (g <$> a :: l)
             / inject_Z (Z.of_nat (length (g <$> a :: l))))%Q.
  rewrite !length_fmap. apply Qmult_le_compat_r.
  - exact (np_sum_le f g _ Hle).
  - apply Qinv_le_0_compat. change 0%Q with (inject_Z 0).
    rewrite <- Zle_Qle. lia.
Qed.

Lemma np_mean_const {A : Type} (c : Q) (l : list A) (x : Q) :
  np_mean ((λ _, c) <$> l) = Some x → (x == c)%Q.
Proof.
  destruct l as [|a l]; [done|]. intros [= <-].
  change (np_sum ((λ _, c) <$> a :: l)
          / inject_Z (Z.of_nat (length ((λ _ : A, c) <$> a :: l))) == c)%Q.
  rewrite np_sum_const, length_fmap.
  assert (Hn : ¬ (inject_Z (Z.of_nat (length (a :: l))) == 0)%Q).
  { change 0%Q with (inject_Z 0). rewrite inject_Z_injective. simpl. lia. }
  revert Hn. generalize (inject_Z (Z.of_nat (length (a :: l)))).
  intros n Hn. by field.
Qed.

Lemma np_mean_is_Some {A : Type} (f : A → Q) (l : list A) :
  l ≠ [] → is_Some (np_mean (f <$> l)).
Proof. destruct l; [done | by eexists]. Qed.

Lemma rank_reciprocal_bounds (rk : nat) :
  1 ≤ rk →
  (0 < 1 / rank_value rk)%Q ∧ (1 / rank_value rk <= 1)%Q
  ∧ ((if decide (rk ≤ 0 + 1) then 1 else 0) <= 1 / rank_value rk)%Q.
Proof.
  intros Hrk. unfold rank_value.
  assert (Hpos : (0 < inject_Z (Z.of_nat rk))%Q).
  { change 0%Q with (inject_Z 0). rewrite <- Zlt_Qlt. lia. }
  assert (Hone : (1 <= inject_Z (Z.of_nat rk))%Q).
  { change 1%Q with (inject_Z 1). rewrite <- Zle_Qle. lia. }
  assert (Hinv : (0 < 1 / inject_Z (Z.of_nat rk))%Q).
  { apply Qlt_shift_div_l; [done|]. by rewrite Qmult_0_l. }
  split_and!; [done | |].
  - apply Qle_shift_div_r; [done|]. by rewrite Qmult_1_l.
  - case_decide as H1.
    + assert (rk = 1) as -> by lia. by vm_compute.
    + by apply Qlt_le_weak.
Qed.

(** X18. The figures printed at the end of [evaluate].  On an empty
    split all five are nan (the mean of no value).  Otherwise each is a
    number, and they are ordered as the metrics should be:
    0 ≤ Hits@1 ≤ Hits@3 ≤ Hits@10 ≤ 1, the mean rank is at least 1, and
    the mean reciprocal rank lies in (0, 1] and is at least Hits@1. *)
Theorem evaluate_printed_metrics `{Externals} (self : Experiment)
    (entity_idxs relation_idxs : gmap string nat) (d : Data)
    (mdl : model_state) (training : bool) (dat : list raw_triple)
    (v' : vocab) (ranks : list nat) (hits : list (list Q)) :
  evaluate self entity_idxs relation_idxs d mdl training dat
  = Ok (v', ranks, hits) →
  (ranks = [] →
   printed_metrics ranks hits = Ok (Metrics None None None None None))
  ∧ (ranks ≠ [] →
     ∃ h10 h3 h1 mr mrr,
       printed_metrics ranks hits
       = Ok (Metrics (Some h10) (Some h3) (Some h1) (Some mr) (Some mrr))
       ∧ (0 <= h1)%Q ∧ (h1 <= h3)%Q ∧ (h3 <= h10)%Q ∧ (h10 <= 1)%Q
       ∧ (1 <= mr)%Q
       ∧ (0 < mrr)%Q ∧ (mrr <= 1)%Q ∧ (h1 <= mrr)%Q).
Proof.
  intros [-> Hpos]%evaluate_hits_inv. split; [by intros ->|].
  intros Hne. unfold printed_metrics, hits_of_ranks. cbn [seq fmap list_fmap].
  cbn [row_getitem lookup list_lookup mbind result_bind].
  set (hit := λ level rk, if decide (rk ≤ level + 1) then 1%Q else 0%Q).
  change (np_mean ((λ rk, if decide (rk ≤ 9 + 1) then 1%Q else 0%Q) <$> ranks))
    with (np_mean (hit 9 <$> ranks)).
  change (np_mean ((λ rk, if decide (rk ≤ 2 + 1) then 1%Q else 0%Q) <$> ranks))
    with (np_mean (hit 2 <$> ranks)).
  change (np_mean ((λ rk, if decide (rk ≤ 0 + 1) then 1%Q else 0%Q) <$> ranks))
    with (np_mean (hit 0 <$> ranks)).
  destruct (np_mean_is_Some (hit 9) ranks Hne) as [h10 H10].
  destruct (np_mean_is_Some (hit 2) ranks Hne) as [h3 H3].
  destruct (np_mean_is_Some (hit 0) ranks Hne) as [h1 H1].
  destruct (np_mean_is_Some rank_value ranks Hne) as [mr Hmr].
  destruct (np_mean_is_Some (λ rk, 1 / rank_value rk)%Q ranks Hne)
    as [mrr Hmrr].
  destruct (np_mean_is_Some (λ _, 0%Q) ranks Hne) as [zero H0].
  destruct (np_mean_is_Some (λ _, 1%Q) ranks Hne) as [one Hone].
  pose proof (np_mean_const _ _ _ H0) as E0.
  pose proof (np_mean_const _ _ _ Hone) as E1.
  exists h10, h3, h1, mr, mrr. rewrite H10, H3, H1, Hmr, Hmrr.
  assert (Hhit : ∀ level level', level ≤ level' →
            Forall (λ rk, (hit level rk <= hit level' rk)%Q) ranks).
  { intros level level' Hle. apply Forall_forall. intros rk _. unfold hit.
    repeat case_decide; try done; lia. }
  assert (Hlt : (0 < mrr)%Q).
  { destruct ranks as [|rk ranks]; [done|]. injection Hmrr as <-.
    apply Qlt_shift_div_l.
    - change 0%Q with (inject_Z 0). rewrite <- Zlt_Qlt. simpl. lia.
    - rewrite Qmult_0_l. apply Forall_cons in Hpos as [Hrk Hpos].
      destruct (rank_reciprocal_bounds rk Hrk) as (Hrk0 & _).
      apply Qlt_le_trans with (1 / rank_value rk + 0)%Q;
        [by rewrite Qplus_0_r|].
      apply Qplus_le_compat; [apply Qle_refl|].
      apply np_sum_nonneg. eapply Forall_impl; [exact Hpos|].
      intros r Hr. simpl. apply Qlt_le_weak.
      by apply rank_reciprocal_bounds. }
  split_and!; [done | | | | | | done | |].
  - rewrite <- E0. eapply np_mean_le; [|exact H0 | exact H1].
    apply Forall_forall. intros rk _. unfold hit. by case_decide.
  - eapply np_mean_le; [|exact H1 | exact H3]. apply Hhit. lia.
  - eapply np_mean_le; [|exact H3 | exact H10]. apply Hhit. lia.
  - rewrite <- E1. eapply np_mean_le; [|exact H10 | exact Hone].
    apply Forall_forall. intros rk _. unfold hit. by case_decide.
  - rewrite <- E1. eapply np_mean_le; [|exact Hone | exact Hmr].
    eapply Forall_impl; [exact Hpos|]. intros rk Hrk. simpl in *.
    unfold rank_value. change 1%Q with (inject_Z 1). rewrite <- Zle_Qle. lia.
  - rewrite <- E1. eapply np_mean_le; [|exact Hmrr | exact Hone].
    eapply Forall_impl; [exact Hpos|]. intros rk Hrk. simpl in Hrk.
    by apply rank_reciprocal_bounds.
  - eapply np_mean_le; [|exact H1 | exact Hmrr].
    eapply Forall_impl; [exact Hpos|]. intros rk Hrk. simpl in Hrk.
    by apply rank_reciprocal_bounds.
Qed.

Lemma evaluate_printed_metrics_witness :
  ∃ h10 h3 h1 mr mrr,
    printed_metrics [2] ([0%Q] :: replicate 9 [1%Q])
    = Ok (Metrics (Some h10) (Some h3) (Some h1) (Some mr) (Some mrr))
    ∧ (0 <= h1)%Q ∧ (h1 <= h3)%Q ∧ (h3 <= h10)%Q ∧ (h10 <= 1)%Q
    ∧ (1 <= mr)%Q
    ∧ (0 < mrr)%Q ∧ (mrr <= 1)%Q ∧ (h1 <= mrr)%Q.
Proof.
  destruct (evaluate_printed_metrics _ _ _ _ _ _ _ _ _ _ evaluate_toy_test)
    as [_ Hsome].
  exact (Hsome ltac:(discriminate)).
Defined.

(** ** Decoding indexed triples *)

Lemma indexes_to_decodes (ents rels : list string) (tr : raw_triple)
    (x : idx_triple) :
  indexes_to (build_idxs ents) (build_idxs rels) tr x →
  ents !! x.1.1 = Some tr.1.1 ∧ rels !! x.1.2 = Some tr.1.2
  ∧ ents !! x.2 = Some tr.2.
Proof.
  intros (Hh & Hr & Ht).
  apply build_idxs_lookup in Hh as [Hh _].
  apply build_idxs_lookup in Hr as [Hr _].
  apply build_idxs_lookup in Ht as [Ht _]. done.
Qed.

(** X19. The index triples that [get_data_idxs] returns under the
    indices of [train_and_eval] can be decoded: there is one per input
    triple, in the same order, and each of its three ids is a position of
    the loader's entity or relation list that holds the identifier it
    stands for.  So the encoding loses nothing: two datasets with the
    same index triples are the same dataset. *)
Theorem get_data_idxs_decodes (ents rels : list string)
    (dat : list raw_triple) (out : list idx_triple) :
  get_data_idxs (build_idxs ents) (build_idxs rels) dat = Ok out →
  length out = length dat
  ∧ (∀ k h r t, out !! k = Some (h, r, t) →
       ∃ hn rn tn, dat !! k = Some (hn, rn, tn)
                   ∧ ents !! h = Some hn ∧ rels !! r = Some rn
                   ∧ ents !! t = Some tn)
  ∧ (∀ dat', get_data_idxs (build_idxs ents) (build_idxs rels) dat' = Ok out →
       dat' = dat).
Proof.
  assert (Hdec : ∀ dat0, get_data_idxs (build_idxs ents) (build_idxs rels) dat0
                         = Ok out →
            Forall2 (λ (tr : raw_triple) (x : idx_triple),
                       ents !! x.1.1 = Some tr.1.1
                       ∧ rels !! x.1.2 = Some tr.1.2
                       ∧ ents !! x.2 = Some tr.2) dat0 out).
  { intros dat0 Hout. unfold get_data_idxs in Hout. apply rmap_Ok in Hout.
    eapply Forall2_impl; [exact Hout|]. intros tr x Hx.
    apply indexes_to_decodes. by apply idx_triple_of_Ok. }
  intros Hout. pose proof (Hdec dat Hout) as HF. split_and!.
  - symmetry. by eapply Forall2_length.
  - intros k h r t Hk.
    destruct (Forall2_lookup_r _ _ _ _ _ HF Hk)
      as ([[hn rn] tn] & Hdat & Hh & Hr & Ht).
    by exists hn, rn, tn.
  - intros dat' Hout'. pose proof (Hdec dat' Hout') as HF'.
    clear -HF HF'. revert dat' HF'.
    induction HF as [|[[hn rn] tn] [[h r] t] dat out (Hh & Hr & Ht) _ IH];
      intros dat' HF'.
    + by apply Forall2_nil_inv_r in HF'.
    + apply Forall2_cons_inv_r in HF'
        as ([[hn' rn'] tn'] & dat0 & (Hh' & Hr' & Ht') & HF0 & ->).
      simpl in *. f_equal; [congruence | by apply IH].
Qed.

Lemma get_data_idxs_decodes_witness :
  length [(0, 0, 1); (1, 0, 2); (2, 0, 0)] = length (train_data toy_data).
Proof.
  destruct (get_data_idxs_decodes (entities toy_data) (relations toy_data)
              (train_data toy_data) [(0, 0, 1); (1, 0, 2); (2, 0, 0)]
              ltac:(vm_compute; reflexivity)) as [Hlen _].
  exact Hlen.
Defined.
